(** * Penta Organization: the service worker's asset cache (sw.js) and the
      page-side model preloader (assets/js/modules/animations.js)

    A shallow embedding of the caching layer.  The browser's CacheStorage is
    a finite map from partition names to partitions, a partition is a finite
    map from request URLs to responses, and the network is an oracle that
    fixes the outcome of the n-th fetch.  An async function is a computation
    in a state-and-rejection monad over the world; work that the source
    starts without awaiting it (a detached [cache.put], the background fetch
    of stale-while-revalidate) is recorded as a pending task of the world
    and takes effect when that task completes, and so are the steps of the
    page-side preloader, whose lookups and fetches complete in an order
    that the page does not choose. *)

From stdpp Require Import gmap strings list fin_maps.

Local Open Scope string_scope.
Local Open Scope list_scope.
Local Open Scope nat_scope.

(** ** Strings: the two JavaScript string tests the worker uses *)

(** [String.prototype.endsWith]: compare the last [searchLength] characters
    of [s] with [searchString]; false when [searchString] is longer. *)
Definition endsWith (s searchString : string) : bool :=
  let len := String.length s in
  let searchLength := String.length searchString in
  if searchLength <=? len
  then String.eqb (String.substring (len - searchLength) searchLength s) searchString
  else false.

(** The alternatives of the pattern [/\.(css|js|png|jpg|jpeg|svg|woff2?)$/];
    [woff2?] stands for the two endings [woff] and [woff2]. *)
Definition static_extensions : list string :=
  ["css"; "js"; "png"; "jpg"; "jpeg"; "svg"; "woff"; "woff2"].

(** [pathname.match(/\.(...)$/)] used as a condition: the pattern is
    anchored at the end only, so it matches exactly when the path ends
    with a dot followed by one of the alternatives. *)
Definition match_static (pathname : string) : bool :=
  existsb (λ ext, endsWith pathname ("." +:+ ext)) static_extensions.

(** ** Data model *)

Record URL := mkURL { origin : string; pathname : string }.

Global Instance URL_eq_dec : EqDecision URL.
Proof. solve_decision. Defined.

Global Instance URL_countable : Countable URL.
Proof.
  refine (inj_countable' (λ u, (origin u, pathname u))
                         (λ p, mkURL p.1 p.2) _).
  by intros [].
Defined.

(** [request.url] as a string. *)
Definition href (u : URL) : string := origin u +:+ pathname u.

(** A captured response.  [response.ok] is true for the statuses 200-299. *)
Record Response := mkResponse { status : nat; body : string }.

Definition ok (r : Response) : bool :=
  (200 <=? status r) && (status r <=? 299).

(** A partial response (status 206, the answer to a range request).  It
    is ok, but the Cache API refuses to store it. *)
Definition partial_content (r : Response) : bool := status r =? 206.

(** What a write guarded by [response.ok] gets into the cache: an ok
    response that the cache does not refuse. *)
Definition storable (r : Response) : bool := ok r && negb (partial_content r).

(** The outcome of one network fetch: the promise of [fetch] is fulfilled
    with a response (whatever its status) or rejected with an error. *)
Inductive FetchOutcome :=
| NetResponse (r : Response)
| NetError (e : string).

(** The settled state of a promise. *)
Inductive result (A : Type) :=
| Resolved (a : A)
| Rejected (e : string).
Arguments Resolved {A} a.
Arguments Rejected {A} e.

(** Work that is pending: a write or a fetch that the function that
    started it does not wait for ([TPut], [TRevalidate]), and the page-side
    preloader where it waits while other work goes on: a call of
    [preloadWithFetch] waiting for its fetch ([TPreload]), a callback of
    [preloadAllModels] waiting for the answer of its lookup ([TLookup]),
    and the loop of [ensureAllCached] waiting for the lookup of [url] with
    the models of [rest] still to come ([TEnsure]). *)
Inductive Task :=
| TPut (cacheName : string) (request : URL) (response : Response)
| TRevalidate (ticket : nat) (cacheName : string) (request : URL)
              (cachedResponse : option Response)
| TPreload (ticket : nat) (cacheName : string) (url : URL)
| TLookup (cacheName : string) (url : URL)
| TEnsure (cacheName : string) (url : URL) (rest : list URL).

(** What the world has observed, oldest first. *)
Inductive TraceEvent :=
| EvFetch (request : URL)
| EvPut (cacheName : string) (request : URL).

Record World := mkWorld {
  storage : gmap string (gmap URL Response);
  trace : list TraceEvent;
  tasks : list Task;
  skipWaiting_called : bool;
  clients_claimed : bool
}.

Definition with_storage (f : gmap string (gmap URL Response) →
                             gmap string (gmap URL Response)) (w : World) : World :=
  mkWorld (f (storage w)) (trace w) (tasks w)
          (skipWaiting_called w) (clients_claimed w).

Definition log (e : TraceEvent) (w : World) : World :=
  mkWorld (storage w) (trace w ++ [e]) (tasks w)
          (skipWaiting_called w) (clients_claimed w).

Definition with_tasks (f : list Task → list Task) (w : World) : World :=
  mkWorld (storage w) (trace w) (f (tasks w))
          (skipWaiting_called w) (clients_claimed w).

(** The requests that went to the network, oldest first. *)
Fixpoint fetches (t : list TraceEvent) : list URL :=
  match t with
  | [] => []
  | EvFetch u :: t' => u :: fetches t'
  | EvPut _ _ :: t' => fetches t'
  end.

(** The network-call counter of one resource. *)
Definition fetch_count (u : URL) (w : World) : nat :=
  length (filter (λ v, v = u) (fetches (trace w))).

(** A world with nothing stored and nothing started. *)
Definition initial_world : World := mkWorld ∅ [] [] false false.

(** ** The monad of async functions *)

Definition M (A : Type) : Type := World → result A * World.

Definition ret {A} (a : A) : M A := λ w, (Resolved a, w).

Definition throw {A} (e : string) : M A := λ w, (Rejected e, w).

Definition bind {A B} (m : M A) (k : A → M B) : M B :=
  λ w, match m w with
       | (Resolved a, w') => k a w'
       | (Rejected e, w') => (Rejected e, w')
       end.

(** [try { m } catch (error) { h error }], and [promise.catch(h)]. *)
Definition try_catch {A} (m : M A) (h : string → M A) : M A :=
  λ w, match m w with
       | (Resolved a, w') => (Resolved a, w')
       | (Rejected e, w') => h e w'
       end.

Notation "'let*' x := m 'in' k" := (bind m (λ x, k))
  (at level 10, x name, m at level 100, k at level 200,
   format "'[v' 'let*'  x  :=  m  'in' '/' k ']'").
Notation "m ;; k" := (bind m (λ _, k))
  (at level 100, k at level 200, right associativity).

(** [for (const x of xs) { await body(x) }]: a rejection leaves the loop. *)
Fixpoint for_each {A} (xs : list A) (body : A → M unit) : M unit :=
  match xs with
  | [] => ret ()
  | x :: xs' => body x ;; for_each xs' body
  end.

(** [xs.map(f)] where every [f x] runs up to its result, in list order. *)
Fixpoint map_M {A B} (f : A → M B) (xs : list A) : M (list B) :=
  match xs with
  | [] => ret []
  | x :: xs' => let* y := f x in let* ys := map_M f xs' in ret (y :: ys)
  end.

(** ** Configuration (the constants at the top of sw.js) *)

Definition CACHE_VERSION : string := "v1".

Record CacheNames := mkCacheNames {
  models : string;
  static : string;
  runtime : string
}.

Definition CACHE_NAMES : CacheNames := {|
  models := "penta-3d-models-" +:+ CACHE_VERSION;
  static := "penta-static-" +:+ CACHE_VERSION;
  runtime := "penta-runtime-" +:+ CACHE_VERSION
|}.

(** [Object.values(CACHE_NAMES)] *)
Definition Object_values (names : CacheNames) : list string :=
  [models names; static names; runtime names].

Definition MODEL_ASSETS : list string := [
  "./assets/3d/logo_3d_just_icon.glb";
  "./assets/3d/corparete_event.glb";
  "./assets/3d/decoration.glb";
  "./assets/3d/staff.glb";
  "./assets/3d/technical.glb";
  "./assets/3d/transfer.glb"
].

Definition STATIC_ASSETS : list string := [
  "./assets/css/main.css";
  "./assets/css/components.css";
  "./assets/js/main.js";
  "./assets/images/logo.png"
].

Section Worker.

(** The network: the outcome of the fetch with ticket [n] (the n-th fetch
    ever started, counting from 0) when it asks for [request]. *)
Variable net : nat → URL → FetchOutcome.

(** [location.origin] of the worker, and the directory that holds sw.js
    and the pages, against which the manifests' relative paths resolve
    (ending in a slash). *)
Variable self_origin : string.
Variable base_path : string.

(** [new Request("./a/b")]: a manifest path is relative to the directory
    of the script (the pages of the site lie in the same directory). *)
Definition resolve (path : string) : URL :=
  mkURL self_origin
        (base_path +:+
         (if String.prefix "./" path
          then String.substring 2 (String.length path - 2) path
          else path)).

(** *** The Cache API and fetch *)

(** [caches.open(name)]: creates the partition when it does not exist; the
    handle of a partition is its name. *)
Definition caches_open (cacheName : string) : M string :=
  λ w, (Resolved cacheName,
        with_storage (λ st, match st !! cacheName with
                            | Some _ => st
                            | None => <[cacheName := ∅]> st
                            end) w).

(** [caches.keys()] *)
Definition caches_keys : M (list string) :=
  λ w, (Resolved (map_to_list (storage w)).*1, w).

(** [caches.delete(name)] *)
Definition caches_delete (cacheName : string) : M unit :=
  λ w, (Resolved (), with_storage (delete cacheName) w).

(** [cache.match(request)]: [None] is JavaScript's [undefined]. *)
Definition cache_match (cache : string) (request : URL) : M (option Response) :=
  λ w, (Resolved (storage w !! cache ≫= (λ p, p !! request)), w).

(** [cache.keys()]: the requests that have an entry.  The list comes in
    the order of the finite map, which is not the order in which the
    browser lists them (the order of insertion); what is stated of it is
    stated of its length or up to a permutation. *)
Definition cache_keys (cache : string) : M (list URL) :=
  λ w, (Resolved (match storage w !! cache with
                  | Some p => (map_to_list p).*1
                  | None => []
                  end), w).

(** [await cache.put(request, response)]: a partial response is refused,
    the promise is rejected with a TypeError and nothing is written;
    otherwise the entry of [request] is replaced.  (Of what the cache looks
    at, a response has its status here and no headers.)  A handle whose
    partition has been deleted from the storage writes to nothing that a
    later lookup by name can reach. *)
Definition cache_put (cache : string) (request : URL) (response : Response) : M unit :=
  λ w, if partial_content response
       then (Rejected "TypeError", w)
       else (Resolved (),
             log (EvPut cache request)
                 (with_storage (alter (λ p, <[request := response]> p) cache) w)).

(** [cache.put(request, response)] whose promise is dropped: the write is
    started and completes later, as a task; when it is refused, nobody
    hears of the rejection. *)
Definition cache_put_detached (cache : string) (request : URL)
           (response : Response) : M unit :=
  λ w, (Resolved (), with_tasks (λ ts, ts ++ [TPut cache request response]) w).

(** Calling [fetch(request)] starts the request at once and hands back a
    promise, here the ticket that names the outcome. *)
Definition fetch_start (request : URL) : M nat :=
  λ w, (Resolved (length (fetches (trace w))), log (EvFetch request) w).

(** Awaiting the promise of a started fetch. *)
Definition fetch_settle (ticket : nat) (request : URL) : M Response :=
  λ w, match net ticket request with
       | NetResponse r => (Resolved r, w)
       | NetError e => (Rejected e, w)
       end.

(** [await fetch(request)] *)
Definition fetch (request : URL) : M Response :=
  let* ticket := fetch_start request in
  fetch_settle ticket request.

(** Leave a started piece of work to complete on its own. *)
Definition spawn (t : Task) : M unit :=
  λ w, (Resolved (), with_tasks (λ ts, ts ++ [t]) w).

(** *** The three strategies *)

Definition cacheFirst (request : URL) (cacheName : string) : M Response :=
  let* cache := caches_open cacheName in
  let* cachedResponse := cache_match cache request in
  match cachedResponse with
  | Some cached => ret cached
  | None =>
    let* networkResponse := fetch request in
    (if ok networkResponse
     then cache_put_detached cache request networkResponse
     else ret ()) ;;
    ret networkResponse
  end.

(** The promise [fetchPromise] of staleWhileRevalidate once its fetch has
    been started: [.then(networkResponse => ...).catch(() => cachedResponse)]. *)
Definition fetchPromise (cache : string) (request : URL)
           (cachedResponse : option Response) (ticket : nat) : M (option Response) :=
  try_catch
    (let* networkResponse := fetch_settle ticket request in
     (if ok networkResponse
      then cache_put_detached cache request networkResponse
      else ret ()) ;;
     ret (Some networkResponse))
    (λ _, ret cachedResponse).

(** [return cachedResponse || fetchPromise]: with a cached response the
    function returns it and the promise is left to settle on its own. *)
Definition staleWhileRevalidate (request : URL) (cacheName : string)
  : M (option Response) :=
  let* cache := caches_open cacheName in
  let* cachedResponse := cache_match cache request in
  let* ticket := fetch_start request in
  match cachedResponse with
  | Some cached =>
    spawn (TRevalidate ticket cache request cachedResponse) ;;
    ret (Some cached)
  | None => fetchPromise cache request cachedResponse ticket
  end.

Definition networkFirst (request : URL) (cacheName : string) : M Response :=
  let* cache := caches_open cacheName in
  try_catch
    (let* networkResponse := fetch request in
     (if ok networkResponse
      then cache_put_detached cache request networkResponse
      else ret ()) ;;
     ret networkResponse)
    (λ error,
     let* cachedResponse := cache_match cache request in
     match cachedResponse with
     | Some cached => ret cached
     | None => throw error
     end).

(** *** The fetch listener *)

(** What the listener did with the event: it returned without calling
    [event.respondWith] (the request goes on to the network untouched), or
    it answered with the settled promise of a strategy. *)
Inductive Handled :=
| NotIntercepted
| RespondWith (r : result (option Response)).

Definition respondWith {A} (wrap : A → option Response) (m : M A)
  : World → Handled * World :=
  λ w, match m w with
       | (Resolved a, w') => (RespondWith (Resolved (wrap a)), w')
       | (Rejected e, w') => (RespondWith (Rejected e), w')
       end.

Definition onfetch (request : URL) : World → Handled * World :=
  let url := request in
  if bool_decide (origin url ≠ self_origin) then λ w, (NotIntercepted, w)
  else if endsWith (pathname url) ".glb" || endsWith (pathname url) ".gltf"
  then respondWith Some (cacheFirst request (models CACHE_NAMES))
  else if match_static (pathname url)
  then respondWith id (staleWhileRevalidate request (static CACHE_NAMES))
  else if endsWith (pathname url) ".html" || String.eqb (pathname url) "/"
  then respondWith Some (networkFirst request (runtime CACHE_NAMES))
  else λ w, (NotIntercepted, w).

(** *** Lifecycle: install and activate *)

(** The responses of a batch of started fetches, as [cache.addAll] needs
    them: the batch fails on the first request whose fetch is rejected or
    whose response is not ok or is partial. *)
Fixpoint addAll_responses (started : list (nat * URL))
  : result (list (URL * Response)) :=
  match started with
  | [] => Resolved []
  | (ticket, request) :: rest =>
    match net ticket request with
    | NetError e => Rejected e
    | NetResponse r =>
      if storable r
      then match addAll_responses rest with
           | Resolved rs => Resolved ((request, r) :: rs)
           | Rejected e => Rejected e
           end
      else Rejected "TypeError"
    end
  end.

(** [await cache.addAll(requests)]: all the requests are fetched, and the
    responses are stored only when every one of them is there, ok and not
    partial. *)
Definition cache_addAll (cache : string) (requests : list URL) : M unit :=
  let* started := map_M (λ request,
                          let* ticket := fetch_start request in
                          ret (ticket, request)) requests in
  let* responses := (λ w, (addAll_responses started, w)) in
  for_each responses (λ entry, cache_put cache entry.1 entry.2).

(** [self.skipWaiting()] *)
Definition skipWaiting : M unit :=
  λ w, (Resolved (),
        mkWorld (storage w) (trace w) (tasks w) true (clients_claimed w)).

(** [await self.clients.claim()] *)
Definition clients_claim : M unit :=
  λ w, (Resolved (),
        mkWorld (storage w) (trace w) (tasks w) (skipWaiting_called w) true).

(** The promise handed to [event.waitUntil] by the install listener. *)
Definition install : M unit :=
  let* modelCache := caches_open (models CACHE_NAMES) in
  for_each MODEL_ASSETS (λ model,
    try_catch
      (let* response := fetch (resolve model) in
       if ok response
       then cache_put modelCache (resolve model) response
       else ret ())
      (λ error, ret ())) ;;
  let* staticCache := caches_open (static CACHE_NAMES) in
  cache_addAll staticCache (resolve <$> STATIC_ASSETS) ;;
  skipWaiting.

(** The promise handed to [event.waitUntil] by the activate listener;
    [Promise.all] over the deletions, which do not depend on each other. *)
Definition activate : M unit :=
  let* cacheNames := caches_keys in
  for_each
    (filter (λ name, name ∉ Object_values CACHE_NAMES) cacheNames)
    (λ name, caches_delete name) ;;
  clients_claim.

(** *** The control channel *)

Record CacheStatus := mkCacheStatus {
  version : string;
  cachedModels : list string;
  totalModels : nat;
  cachedCount : nat
}.

Definition getCacheStatus : M CacheStatus :=
  let* modelCache := caches_open (models CACHE_NAMES) in
  let* modelKeys := cache_keys modelCache in
  ret {| version := CACHE_VERSION;
         cachedModels := href <$> modelKeys;
         totalModels := length MODEL_ASSETS;
         cachedCount := length modelKeys |}.

Definition clearAllCaches : M unit :=
  let* cacheNames := caches_keys in
  for_each cacheNames (λ name, caches_delete name).

Definition preloadModels : M unit :=
  let* cache := caches_open (models CACHE_NAMES) in
  for_each MODEL_ASSETS (λ model,
    let* cached := cache_match cache (resolve model) in
    match cached with
    | Some _ => ret ()
    | None =>
      try_catch
        (let* response := fetch (resolve model) in
         if ok response
         then cache_put cache (resolve model) response
         else ret ())
        (λ error, ret ())
    end).

Record MessageData := mkMessageData { type : string }.

Inductive Reply :=
| StatusReply (status : CacheStatus)
| SuccessReply (success : bool).

(** [promise.then(value => event.ports[0].postMessage(reply value))]: the
    messages posted on the reply port; none when the promise is rejected. *)
Definition then_post {A} (m : M A) (reply : A → Reply) : World → list Reply * World :=
  λ w, match m w with
       | (Resolved a, w') => ([reply a], w')
       | (Rejected _, w') => ([], w')
       end.

Definition onmessage (data : MessageData) : World → list Reply * World :=
  if String.eqb (type data) "CACHE_STATUS"
  then then_post getCacheStatus StatusReply
  else if String.eqb (type data) "CLEAR_CACHE"
  then then_post clearAllCaches (λ _, SuccessReply true)
  else if String.eqb (type data) "PRELOAD_MODELS"
  then then_post preloadModels (λ _, SuccessReply true)
  else λ w, ([], w).

(** *** The page-side preloader (ModelPreloader in animations.js) *)

Definition ModelPreloader_models : list string := [
  "./assets/3d/logo_3d_just_icon.glb";
  "./assets/3d/staff.glb";
  "./assets/3d/corparete_event.glb";
  "./assets/3d/technical.glb";
  "./assets/3d/transfer.glb";
  "./assets/3d/decoration.glb"
].

(** The rest of [preloadWithFetch] after its fetch has been started. *)
Definition preloadWithFetch_settle (ticket : nat) (url : URL) (cache : string)
  : M unit :=
  try_catch
    (let* response := fetch_settle ticket url in
     if ok response
     then cache_put cache url response
     else ret ())
    (λ error, ret ()).

Definition preloadWithFetch (url : URL) (cache : string) : M unit :=
  let* ticket := fetch_start url in
  preloadWithFetch_settle ticket url cache.

(** [preloadWithFetch] up to its [await fetch]: the fetch has started and
    the rest of the function is pending. *)
Definition preloadWithFetch_start (url : URL) (cache : string) : M unit :=
  let* ticket := fetch_start url in
  spawn (TPreload ticket cache url).

(** A callback of [this.models.map] in [preloadAllModels], from the answer
    of its lookup on. *)
Definition preloadAllModels_callback (cache : string) (url : URL) : M unit :=
  let* cached := cache_match cache url in
  match cached with
  | Some _ => ret ()
  | None => preloadWithFetch_start url cache
  end.

(** [preloadAllModels] up to [await Promise.all(promises)]: every callback
    of [this.models.map] has asked the cache for its model and waits for
    the answer ([caches.open] answers at once, here as in the worker).
    The callbacks go on one by one as their lookups and fetches complete,
    in whatever order that is; the promise of [preloadAllModels] is
    fulfilled when the last of them is done and is never rejected.
    [caches_in_window] is the test ['caches' in window]. *)
Definition preloadAllModels (caches_in_window : bool) : M unit :=
  if negb caches_in_window then ret ()
  else
    try_catch
      (let* cache := caches_open "penta-3d-models-v1" in
       for_each ModelPreloader_models (λ model,
         spawn (TLookup cache (resolve model))))
      (λ error, ret ()).

(** The loop of [ensureAllCached] at its next model: it asks the cache and
    waits for the answer; after the last model there is nothing left. *)
Definition ensureAllCached_next (cache : string) (urls : list URL) : M unit :=
  match urls with
  | [] => ret ()
  | url :: rest => spawn (TEnsure cache url rest)
  end.

(** One round of the loop of [ensureAllCached], from the answer of the
    lookup on: [preloadWithFetch] is called and not waited for. *)
Definition ensureAllCached_round (cache : string) (url : URL) (rest : list URL)
  : M unit :=
  let* cached := cache_match cache url in
  match cached with
  | Some _ => ret ()
  | None => preloadWithFetch_start url cache
  end ;;
  ensureAllCached_next cache rest.

(** [ensureAllCached] up to the first [await cache.match(model)]
    ([caches.open] answers at once, here as in the worker); the rounds of
    the loop go on as the lookups complete, while the fetches that earlier
    rounds started may complete in between. *)
Definition ensureAllCached (caches_in_window : bool) : M unit :=
  if negb caches_in_window then ret ()
  else
    let* cache := caches_open "penta-3d-models-v1" in
    ensureAllCached_next cache (resolve <$> ModelPreloader_models).

(** *** Pending work and the events of the system *)

(** What happens when a pending task completes. *)
Definition run_task (t : Task) (w : World) : World :=
  match t with
  | TPut cache request response => (cache_put cache request response w).2
  | TRevalidate ticket cache request cachedResponse =>
    (fetchPromise cache request cachedResponse ticket w).2
  | TPreload ticket cache url => (preloadWithFetch_settle ticket url cache w).2
  | TLookup cache url => (preloadAllModels_callback cache url w).2
  | TEnsure cache url rest => (ensureAllCached_round cache url rest w).2
  end.

(** The [i]-th pending task completes (tasks complete in any order). *)
Definition complete (i : nat) (w : World) : World :=
  match tasks w !! i with
  | Some t => run_task t (with_tasks (delete i) w)
  | None => w
  end.

(** Let the pending tasks complete, oldest first, [fuel] times. *)
Fixpoint settle (fuel : nat) (w : World) : World :=
  match fuel with
  | 0 => w
  | S fuel' => settle fuel' (complete 0 w)
  end.

(** A background fetch may leave one detached write behind, a lookup of
    the preloader one fetch, and a round of the loop of [ensureAllCached]
    one fetch and the rounds after it. *)
Definition task_weight (t : Task) : nat :=
  match t with
  | TPut _ _ _ => 1
  | TRevalidate _ _ _ _ => 2
  | TPreload _ _ _ => 1
  | TLookup _ _ => 2
  | TEnsure _ _ rest => 2 * S (length rest)
  end.

Definition settle_all (w : World) : World :=
  settle (sum_list (task_weight <$> tasks w)) w.

Inductive Event :=
| OnInstall
| OnActivate
| OnFetch (request : URL)
| OnMessage (data : MessageData)
| PagePreloadAllModels (caches_in_window : bool)
| PageEnsureAllCached (caches_in_window : bool)
| TaskCompletes (i : nat).

Definition run_event (ev : Event) (w : World) : World :=
  match ev with
  | OnInstall => (install w).2
  | OnActivate => (activate w).2
  | OnFetch request => (onfetch request w).2
  | OnMessage data => (onmessage data w).2
  | PagePreloadAllModels b => (preloadAllModels b w).2
  | PageEnsureAllCached b => (ensureAllCached b w).2
  | TaskCompletes i => complete i w
  end.

(** The events happen one after the other, first to last. *)
Definition run_events (evs : list Event) (w : World) : World :=
  foldl (λ w ev, run_event ev w) w evs.

End Worker.

(** ** The classes of the strategy selector, in the words of the design

    A path belongs to a class by its ending: a 3D-model extension, one of
    the static-asset extensions, or markup (the root path counts as the
    root document). *)

Definition has_extension (path ext : string) : Prop :=
  ∃ stem, path = stem +:+ "." +:+ ext.

Definition model_class (path : string) : Prop :=
  has_extension path "glb" ∨ has_extension path "gltf".

Definition static_class (path : string) : Prop :=
  ∃ ext, ext ∈ static_extensions ∧ has_extension path ext.

Definition document_class (path : string) : Prop :=
  has_extension path "html" ∨ path = "/".

(** ** Observations used in the statements *)

(** The response stored for [request] in the partition [cacheName], as a
    lookup by name sees it. *)
Definition cached_in (cacheName : string) (request : URL) (w : World)
  : option Response :=
  storage w !! cacheName ≫= (λ p, p !! request).

(** The world after [n] more requests for [request] went through
    [cacheFirst]. *)
Fixpoint repeat_cacheFirst (net : nat → URL → FetchOutcome) (n : nat)
         (request : URL) (cacheName : string) (w : World) : World :=
  match n with
  | 0 => w
  | S n' => repeat_cacheFirst net n' request cacheName
                              (cacheFirst net request cacheName w).2
  end.

(** The ticket that the next fetch will get. *)
Definition next_ticket (w : World) : nat := length (fetches (trace w)).

(** The vocabulary of the statements about install: how the fetch with a
    given ticket ended, and the trace that the model loop leaves. *)
Section InstallObservations.

Variable net : nat → URL → FetchOutcome.
Variable self_origin : string.
Variable base_path : string.

(** The fetch with ticket [n] for [u] brought a response that a guarded
    write stores: ok and not partial. *)
Definition fetched_storable (n : nat) (u : URL) : bool :=
  match net n u with
  | NetResponse r => storable r
  | NetError _ => false
  end.

(** What a lookup of [u] finds after a step that fetched [u] with ticket
    [n] and tried to store the response if it was ok, when it found
    [before]: the response when the cache took it, else [before]. *)
Definition after_precache (n : nat) (u : URL) (before : option Response)
  : option Response :=
  match net n u with
  | NetResponse r => if storable r then Some r else before
  | NetError _ => before
  end.

(** One asset after the other: the fetch of an asset, then its write when
    the response was ok and the cache took it, then the next asset. *)
Fixpoint model_trace (cache : string) (n : nat) (assets : list string)
  : list TraceEvent :=
  match assets with
  | [] => []
  | model :: rest =>
    EvFetch (resolve self_origin base_path model)
    :: (if fetched_storable n (resolve self_origin base_path model)
        then [EvPut cache (resolve self_origin base_path model)]
        else [])
    ++ model_trace cache (S n) rest
  end.

(** Every fetch of a batch, with the tickets from [n] on, brought an ok
    response that is not partial. *)
Fixpoint batch_storable (n : nat) (requests : list URL) : bool :=
  match requests with
  | [] => true
  | u :: rest => fetched_storable n u && batch_storable (S n) rest
  end.

(** The world after one round of the model loop of install. *)
Definition precached (cache : string) (model : string) (w : World) : World :=
  let u := resolve self_origin base_path model in
  let w1 := log (EvFetch u) w in
  match net (next_ticket w) u with
  | NetResponse r => if ok r then (cache_put cache u r w1).2 else w1
  | NetError _ => w1
  end.

End InstallObservations.

(** The trace grows by several events. *)
Definition log_all (es : list TraceEvent) (w : World) : World :=
  mkWorld (storage w) (trace w ++ es) (tasks w)
          (skipWaiting_called w) (clients_claimed w).

(** ** Invariants of the stored entries

    [P cacheName request response] is a property wanted of every entry of
    every partition.  A world is safe when its entries have it and its
    pending tasks can only write entries that have it. *)
Section Safety.

Variable net : nat → URL → FetchOutcome.
Variable self_origin : string.
Variable base_path : string.
Variable P : string → URL → Response → Prop.

(** Whatever ok response the network brings for [u] may be stored under
    [u] in the partition [c]. *)
Definition brings (c : string) (u : URL) : Prop :=
  ∀ n r, net n u = NetResponse r → ok r = true → P c u r.

Definition task_safe (t : Task) : Prop :=
  match t with
  | TPut c u r => P c u r
  | TRevalidate _ c u _ => brings c u
  | TPreload _ c u => brings c u
  | TLookup c u => brings c u
  | TEnsure c u rest => brings c u ∧ Forall (brings c) rest
  end.

Definition safe (w : World) : Prop :=
  (∀ c u r, cached_in c u w = Some r → P c u r)
  ∧ Forall task_safe (tasks w).

(** The computation keeps a safe world safe, and a value it returns in a
    safe world satisfies [Q]. *)
Definition keeps {A} (m : M A) (Q : A → Prop) : Prop :=
  ∀ w, safe w →
       safe (m w).2
       ∧ match (m w).1 with
         | Resolved a => Q a
         | Rejected _ => True
         end.

(** The assets of the manifests may be stored where the worker and the
    page store them. *)
Definition manifests_safe : Prop :=
  (∀ model, model ∈ MODEL_ASSETS →
            brings (models CACHE_NAMES) (resolve self_origin base_path model))
  ∧ (∀ asset, asset ∈ STATIC_ASSETS →
              brings (static CACHE_NAMES) (resolve self_origin base_path asset))
  ∧ (∀ model, model ∈ ModelPreloader_models →
              brings "penta-3d-models-v1" (resolve self_origin base_path model)).

(** A request may be stored in the partition of its class. *)
Definition fetch_safe (request : URL) : Prop :=
  origin request = self_origin →
  (model_class (pathname request) → brings (models CACHE_NAMES) request)
  ∧ (static_class (pathname request) → brings (static CACHE_NAMES) request)
  ∧ (document_class (pathname request) → brings (runtime CACHE_NAMES) request).

Definition event_safe (ev : Event) : Prop :=
  match ev with
  | OnFetch request => fetch_safe request
  | _ => True
  end.

End Safety.

(** The entry is an ok response that the network gave for its request. *)
Definition from_ok_response (net : nat → URL → FetchOutcome)
           (c : string) (u : URL) (r : Response) : Prop :=
  ok r = true ∧ ∃ n, net n u = NetResponse r.

(** The entries of the model partition are assets of the model manifest. *)
Definition in_manifest (self_origin base_path : string)
           (c : string) (u : URL) (r : Response) : Prop :=
  c = models CACHE_NAMES → u ∈ resolve self_origin base_path <$> MODEL_ASSETS.

(** The replies to a [CACHE_STATUS] message sent in the world [w]. *)
Definition status_replies (w : World) : list Reply :=
  (then_post getCacheStatus StatusReply w).1.

(** The amount of work that is still pending. *)
Definition pending_weight (w : World) : nat :=
  sum_list (task_weight <$> tasks w).

(** ** Scenarios *)

Definition site : string := "https://www.pentaorganizasyon.com".

(** A network on which every fetch is answered with status 200. *)
Definition net_up : nat → URL → FetchOutcome :=
  λ _ u, NetResponse (mkResponse 200 (pathname u)).

(** A network that is down: every fetch is rejected. *)
Definition net_down : nat → URL → FetchOutcome :=
  λ _ _, NetError "TypeError: Failed to fetch".

(** A server that answers every request with a partial response, which
    is ok (status 206) but which the cache refuses. *)
Definition net_partial : nat → URL → FetchOutcome :=
  λ _ u, NetResponse (mkResponse 206 (pathname u)).

(** The model files are answered with partial responses; everything else
    is answered in full. *)
Definition net_models_partial : nat → URL → FetchOutcome :=
  λ _ u, if endsWith (pathname u) ".glb"
         then NetResponse (mkResponse 206 (pathname u))
         else NetResponse (mkResponse 200 (pathname u)).


Definition staff_glb : URL := mkURL site "/assets/3d/staff.glb".
Definition home_animation_glb : URL := mkURL site "/assets/3d/home_animation.glb".
Definition main_css : URL := mkURL site "/assets/css/main.css".
Definition index_html : URL := mkURL site "/index.html".



(** The static partition holds a copy of the main style sheet. *)
Definition stale_css : Response := mkResponse 200 "body{}".

Definition world_with_css : World :=
  mkWorld {[ static CACHE_NAMES := {[ main_css := stale_css ]} ]}
          [] [] false false.

(** The model files cannot be fetched; everything else is answered. *)
Definition net_models_down : nat → URL → FetchOutcome :=
  λ _ u, if endsWith (pathname u) ".glb"
         then NetError "TypeError: Failed to fetch"
         else NetResponse (mkResponse 200 (pathname u)).

(** The logo image is missing on the server; everything else is answered. *)
Definition net_logo_missing : nat → URL → FetchOutcome :=
  λ _ u, if String.eqb (pathname u) "/assets/images/logo.png"
         then NetResponse (mkResponse 404 "Not Found")
         else NetResponse (mkResponse 200 (pathname u)).

(** A partition of an earlier version lies next to a current one. *)
Definition world_with_old_version : World :=
  mkWorld {[ "penta-static-v0" := {[ main_css := stale_css ]};
             static CACHE_NAMES := {[ main_css := stale_css ]} ]}
          [] [] false false.

(** The worker is installed on a working network, the page then asks for
    the hero animation, which is no asset of the model manifest, and the
    write that its request started completes. *)
Definition events_with_hero : list Event :=
  [OnInstall; OnFetch home_animation_glb; TaskCompletes 0].

(** The same with a request for an asset of the manifest. *)
Definition events_with_staff : list Event :=
  [OnInstall; OnFetch staff_glb; TaskCompletes 0].

(** ** Further observations: the control channel and the preloaders *)

Section PreloadObservations.

Variable net : nat → URL → FetchOutcome.
Variable self_origin : string.
Variable base_path : string.

(** The world after one round of the loop of [preloadModels]: an asset
    that is found in the cache is passed over, another one goes through
    the same fetch-and-store step as in install. *)
Definition preload_step (cache : string) (model : string) (w : World) : World :=
  match cached_in cache (resolve self_origin base_path model) w with
  | Some _ => w
  | None => precached net self_origin base_path cache model w
  end.

(** The requests of [requests] that have no entry in the partition. *)
Definition uncached (cache : string) (w : World) (requests : list URL)
  : list URL :=
  filter (λ u, cached_in cache u w = None) requests.

(** The assets whose fetch, with the tickets from [n] on, one per asset,
    brought an ok response that is not partial. *)
Fixpoint storable_models (n : nat) (assets : list string) : list URL :=
  match assets with
  | [] => []
  | model :: rest =>
    (if fetched_storable net n (resolve self_origin base_path model)
     then [resolve self_origin base_path model]
     else [])
    ++ storable_models (S n) rest
  end.

End PreloadObservations.

(** The partition and the request that a pending task will write to, if
    it writes. *)
Definition task_cache (t : Task) : string :=
  match t with
  | TPut c _ _ => c
  | TRevalidate _ c _ _ => c
  | TPreload _ c _ => c
  | TLookup c _ => c
  | TEnsure c _ _ => c
  end.

Definition task_request (t : Task) : URL :=
  match t with
  | TPut _ u _ => u
  | TRevalidate _ _ u _ => u
  | TPreload _ _ u => u
  | TLookup _ u => u
  | TEnsure _ u _ => u
  end.

(** The requests that a pending task goes on to after [task_request]. *)
Definition task_later (t : Task) : list URL :=
  match t with
  | TEnsure _ _ rest => rest
  | _ => []
  end.

(** The world after the preloader has got the answer of its lookup of
    [url]: when there is no entry, a fetch has been started and is left
    pending. *)
Definition looked_up (cache : string) (url : URL) (w : World) : World :=
  match cached_in cache url w with
  | Some _ => w
  | None => with_tasks (λ ts, ts ++ [TPreload (next_ticket w) cache url])
                       (log (EvFetch url) w)
  end.

(** The models that a pending task of the preloader has still to look up,
    and the fetch, ticket and model, that it waits for. *)
Definition awaiting (t : Task) : list URL :=
  match t with
  | TLookup _ u => [u]
  | TEnsure _ u rest => u :: rest
  | _ => []
  end.

Definition fetching (t : Task) : list (nat * URL) :=
  match t with
  | TPreload n _ u => [(n, u)]
  | _ => []
  end.

(** A pending task of the preloader at work on the partition [cache]. *)
Definition preloader_task (cache : string) (t : Task) : Prop :=
  match t with
  | TPreload _ c _ | TLookup c _ | TEnsure c _ _ => c = cache
  | _ => False
  end.

(** The preloader at work: the page has called it for [models] in the
    world [w], where nothing was pending, and since then only its tasks
    have completed, in some order.  [waiting] are the models that are
    still to be looked up, [started] the fetches that have not completed,
    [fetched] the models fetched so far, oldest first. *)
Section PreloaderAtWork.

Variable net : nat → URL → FetchOutcome.
Variable cache : string.
Variable models : list URL.
Variable w : World.

Record preloading (waiting : list URL) (started : list (nat * URL))
       (fetched : list URL) (w' : World) : Prop := mkPreloading {
  partition_open : is_Some (storage w' !! cache);
  only_preloader_tasks : Forall (preloader_task cache) (tasks w');
  tasks_waiting : tasks w' ≫= awaiting ≡ₚ waiting;
  tasks_started : tasks w' ≫= fetching ≡ₚ started;
  fetched_so_far : fetches (trace w') = fetches (trace w) ++ fetched;
  waiting_once : NoDup waiting;
  started_once : NoDup started.*2;
  fetched_once : NoDup fetched;
  waiting_models : ∀ u, u ∈ waiting → u ∈ models;
  fetched_missing :
    ∀ u, u ∈ fetched ↔ u ∈ uncached cache w models ∧ u ∉ waiting;
  started_ticket :
    ∀ n u, (n, u) ∈ started →
           ∃ j, n = next_ticket w + j ∧ fetched !! j = Some u;
  started_absent : ∀ n u, (n, u) ∈ started → cached_in cache u w' = None;
  settled_entry :
    ∀ j u, fetched !! j = Some u → u ∉ started.*2 →
           cached_in cache u w'
           = after_precache net (next_ticket w + j) u None;
  others_kept :
    ∀ c u, c ≠ cache ∨ u ∉ fetched → cached_in c u w' = cached_in c u w
}.

(** The loop of [ensureAllCached] goes through its list in order: it has
    looked up the models of [done], and one task at most holds the others. *)
Definition in_list_order (w' : World) : Prop :=
  ∃ done waiting,
    models = done ++ waiting
    ∧ fetches (trace w') = fetches (trace w) ++ uncached cache w done
    ∧ Forall (λ t, awaiting t = [] ∨ awaiting t = waiting) (tasks w').

End PreloaderAtWork.

(** Two of the six model files cannot be fetched. *)
Definition net_two_models_down : nat → URL → FetchOutcome :=
  λ _ u, if String.eqb (pathname u) "/assets/3d/staff.glb"
            || String.eqb (pathname u) "/assets/3d/transfer.glb"
         then NetError "TypeError: Failed to fetch"
         else NetResponse (mkResponse 200 (pathname u)).

(** What a handler that answers a request may leave behind when it
    returns: no lookup has changed, at most one piece of work is pending
    more than before, and that work can only write the entry of [request]
    in the partition [c]; no partition other than [c] has been created. *)
Definition answers_quietly (request : URL) (c : string) (w w' : World) : Prop :=
  (∀ c' u, cached_in c' u w' = cached_in c' u w)
  ∧ (∃ new, tasks w' = tasks w ++ new
            ∧ length new ≤ 1
            ∧ ∀ t, t ∈ new → task_request t = request ∧ task_cache t = c
                              ∧ task_later t = [])
  ∧ (∀ name, is_Some (storage w' !! name) →
             is_Some (storage w !! name) ∨ name = c).

(** The network answers the first fetch and is down from then on. *)
Definition net_first_only : nat → URL → FetchOutcome :=
  λ n u, if n =? 0
         then NetResponse (mkResponse 200 (pathname u))
         else NetError "TypeError: Failed to fetch".

(** ** The testimonials carousel (initTestimonials in animations.js)

    The closure of [initTestimonials] holds the slides and dots it found,
    the current slide and the id of the autoplay interval; the page holds
    the classes and attributes of the slides and dots and the repeating
    timers that are alive. *)
Module Carousel.

Record State := mkState {
  slides : nat;                   (* slides.length *)
  dots : nat;                     (* dots.length *)
  currentSlide : Z;
  slideActive : list bool;        (* class carousel__slide--active *)
  slideHidden : list bool;        (* attribute aria-hidden *)
  dotActive : list bool;          (* class carousel__dot--active *)
  dotSelected : list bool;        (* attribute aria-selected *)
  autoplayInterval : option nat;  (* null, or the id of the interval *)
  intervals : list nat;           (* the intervals alive in the page *)
  timerIds : nat;                 (* the last timer id handed out *)
  touchStartX : Z;
  touchEndX : Z
}.

(** [nodes.forEach((node, i) => f(i === index))] *)
Definition marks (n : nat) (index : Z) : list bool :=
  (λ i, bool_decide (Z.of_nat i = index)) <$> seq 0 n.

Definition showSlide (index : Z) (s : State) : State :=
  let index := if (index <? 0)%Z then (Z.of_nat (slides s) - 1)%Z else index in
  let index := if (Z.of_nat (slides s) <=? index)%Z then 0%Z else index in
  mkState (slides s) (dots s) index
          (marks (slides s) index)
          (negb <$> marks (slides s) index)
          (marks (dots s) index)
          (marks (dots s) index)
          (autoplayInterval s) (intervals s) (timerIds s)
          (touchStartX s) (touchEndX s).

Definition nextSlide (s : State) : State := showSlide (currentSlide s + 1) s.

Definition prevSlide (s : State) : State := showSlide (currentSlide s - 1) s.

(** [if (autoplayInterval)]: [null] and 0 are falsy. *)
Definition truthy (handle : option nat) : bool :=
  match handle with
  | Some id => negb (id =? 0)
  | None => false
  end.

(** [clearInterval(handle)] *)
Definition clearInterval (handle : option nat) (alive : list nat) : list nat :=
  match handle with
  | Some id => filter (λ other, other ≠ id) alive
  | None => alive
  end.

Definition stopAutoplay (s : State) : State :=
  if truthy (autoplayInterval s)
  then mkState (slides s) (dots s) (currentSlide s)
               (slideActive s) (slideHidden s) (dotActive s) (dotSelected s)
               None (clearInterval (autoplayInterval s) (intervals s))
               (timerIds s) (touchStartX s) (touchEndX s)
  else s.

(** [autoplayInterval = setInterval(nextSlide, autoplayDelay)] after
    [stopAutoplay()]; the browser hands out a fresh positive id. *)
Definition startAutoplay (s : State) : State :=
  let s := stopAutoplay s in
  let id := S (timerIds s) in
  mkState (slides s) (dots s) (currentSlide s)
          (slideActive s) (slideHidden s) (dotActive s) (dotSelected s)
          (Some id) (intervals s ++ [id]) id
          (touchStartX s) (touchEndX s).

Definition handleSwipe (s : State) : State :=
  let diff := (touchStartX s - touchEndX s)%Z in
  if (50 <? Z.abs diff)%Z
  then if (0 <? diff)%Z then nextSlide s else prevSlide s
  else s.

Definition setTouchStartX (x : Z) (s : State) : State :=
  mkState (slides s) (dots s) (currentSlide s)
          (slideActive s) (slideHidden s) (dotActive s) (dotSelected s)
          (autoplayInterval s) (intervals s) (timerIds s) x (touchEndX s).

Definition setTouchEndX (x : Z) (s : State) : State :=
  mkState (slides s) (dots s) (currentSlide s)
          (slideActive s) (slideHidden s) (dotActive s) (dotSelected s)
          (autoplayInterval s) (intervals s) (timerIds s) (touchStartX s) x.

(** What can happen to the carousel once it is set up. *)
Inductive Event :=
| PrevClick
| NextClick
| DotClick (i : nat)
| MouseEnter
| MouseLeave
| KeyDown (key : string)
| TouchStart (screenX : Z)
| TouchEnd (screenX : Z)
| IntervalFires (id : nat).

Definition handle (ev : Event) (s : State) : State :=
  match ev with
  | PrevClick => startAutoplay (prevSlide (stopAutoplay s))
  | NextClick => startAutoplay (nextSlide (stopAutoplay s))
  | DotClick i =>
    (* a listener per dot that exists *)
    if i <? dots s
    then startAutoplay (showSlide (Z.of_nat i) (stopAutoplay s))
    else s
  | MouseEnter => stopAutoplay s
  | MouseLeave => startAutoplay s
  | KeyDown key =>
    if String.eqb key "ArrowLeft"
    then startAutoplay (prevSlide (stopAutoplay s))
    else if String.eqb key "ArrowRight"
    then startAutoplay (nextSlide (stopAutoplay s))
    else s
  | TouchStart x => stopAutoplay (setTouchStartX x s)
  | TouchEnd x => startAutoplay (handleSwipe (setTouchEndX x s))
  | IntervalFires id =>
    (* only an interval that is alive fires *)
    if bool_decide (id ∈ intervals s) then nextSlide s else s
  end.

(** [initTestimonials] for a carousel element with [slideCount] slides and
    [dotCount] dots, in a page that has handed out [timerIds0] timer ids:
    nothing is set up without slides; otherwise [showSlide(0)] and
    [startAutoplay()].  The classes that the markup gave to the slides and
    dots are overwritten by [showSlide(0)]. *)
Definition initTestimonials (slideCount dotCount timerIds0 : nat)
  : option State :=
  if slideCount =? 0 then None
  else Some (startAutoplay
               (showSlide 0
                  (mkState slideCount dotCount 0 [] [] [] [] None []
                           timerIds0 0 0))).

End Carousel.

(** The carousel is consistent: the current slide exists, the classes and
    attributes mark it and no other slide or dot, and the intervals alive
    are the one that the closure remembers, if it remembers one. *)
Definition carousel_consistent (s : Carousel.State) : Prop :=
  0 < Carousel.slides s
  ∧ (0 ≤ Carousel.currentSlide s < Z.of_nat (Carousel.slides s))%Z
  ∧ Carousel.slideActive s
    = Carousel.marks (Carousel.slides s) (Carousel.currentSlide s)
  ∧ Carousel.slideHidden s
    = negb <$> Carousel.marks (Carousel.slides s) (Carousel.currentSlide s)
  ∧ Carousel.dotActive s
    = Carousel.marks (Carousel.dots s) (Carousel.currentSlide s)
  ∧ Carousel.dotSelected s
    = Carousel.marks (Carousel.dots s) (Carousel.currentSlide s)
  ∧ Carousel.intervals s
    = match Carousel.autoplayInterval s with
      | Some id => [id]
      | None => []
      end
  ∧ (∀ id, Carousel.autoplayInterval s = Some id →
           0 < id ∧ id ≤ Carousel.timerIds s).

(** * The portfolio gallery (PortfolioManager)

    The module keeps its DOM references and its state in variables of one
    closure; [State] holds those variables together with the part of the
    page that the module reads or writes.  A card is a node of the page: its
    [node] number is its identity (what [===] and [indexOf] compare), its
    dataset and the text of its children are not changed by the module. *)

Module Portfolio.

Record Item := mkItem {
  node : nat;
  category : option string;
  dataTitle : option string;
  cardTitle : option string;
  dataDescription : option string;
  dataFullImage : option string;
  imgSrc : option string
}.

(** What the module changes on a card: the class [portfolio-card--hidden]
    and [style.display]. *)
Record Card := mkCard {
  item : Item;
  hiddenClass : bool;
  display : string
}.

Record Button := mkButton {
  dataFilter : string;
  activeClass : bool;
  ariaPressed : option bool
}.

Record Image := mkImage {
  src : string;
  alt : string
}.

(** The elements that [focus()] is called on or that have the focus: the
    close button, a card, or some other element of the page. *)
Inductive Target :=
| CloseButton
| CardNode (n : nat)
| OtherElement (n : nat).

#[global] Instance Target_eq_dec : EqDecision Target.
Proof. solve_decision. Defined.

(** [lightbox] is the element with whether it carries [lightbox--open];
    [lightboxPrev] and [lightboxNext] are the elements with their
    [style.display]; [None] and [false] stand for [null].  [focusCalls]
    logs the calls of [focus()], [timeouts] the pending hide callbacks (each
    with the position of its card), [listening] whether [init] has added
    its listeners. *)
Record State := mkState {
  filterButtons : option (list Button);
  portfolioItems : option (list Card);
  lightbox : option bool;
  lightboxImage : option Image;
  lightboxTitle : option string;
  lightboxDescription : option string;
  lightboxClose : bool;
  lightboxPrev : option string;
  lightboxNext : option string;
  currentFilter : string;
  currentIndex : Z;
  filteredItems : list Item;
  isLightboxOpen : bool;
  bodyOverflow : string;
  focusCalls : list Target;
  timeouts : list nat;
  listening : bool
}.

Definition set_filterButtons (v : option (list Button)) (s : State) : State :=
  mkState v (portfolioItems s) (lightbox s) (lightboxImage s)
          (lightboxTitle s) (lightboxDescription s) (lightboxClose s)
          (lightboxPrev s) (lightboxNext s) (currentFilter s)
          (currentIndex s) (filteredItems s) (isLightboxOpen s)
          (bodyOverflow s) (focusCalls s) (timeouts s) (listening s).

Definition set_portfolioItems (v : option (list Card)) (s : State) : State :=
  mkState (filterButtons s) v (lightbox s) (lightboxImage s)
          (lightboxTitle s) (lightboxDescription s) (lightboxClose s)
          (lightboxPrev s) (lightboxNext s) (currentFilter s)
          (currentIndex s) (filteredItems s) (isLightboxOpen s)
          (bodyOverflow s) (focusCalls s) (timeouts s) (listening s).

Definition set_lightbox (v : option bool) (s : State) : State :=
  mkState (filterButtons s) (portfolioItems s) v (lightboxImage s)
          (lightboxTitle s) (lightboxDescription s) (lightboxClose s)
          (lightboxPrev s) (lightboxNext s) (currentFilter s)
          (currentIndex s) (filteredItems s) (isLightboxOpen s)
          (bodyOverflow s) (focusCalls s) (timeouts s) (listening s).

Definition set_lightboxImage (v : option Image) (s : State) : State :=
  mkState (filterButtons s) (portfolioItems s) (lightbox s) v
          (lightboxTitle s) (lightboxDescription s) (lightboxClose s)
          (lightboxPrev s) (lightboxNext s) (currentFilter s)
          (currentIndex s) (filteredItems s) (isLightboxOpen s)
          (bodyOverflow s) (focusCalls s) (timeouts s) (listening s).

Definition set_lightboxTitle (v : option string) (s : State) : State :=
  mkState (filterButtons s) (portfolioItems s) (lightbox s)
          (lightboxImage s) v (lightboxDescription s) (lightboxClose s)
          (lightboxPrev s) (lightboxNext s) (currentFilter s)
          (currentIndex s) (filteredItems s) (isLightboxOpen s)
          (bodyOverflow s) (focusCalls s) (timeouts s) (listening s).

Definition set_lightboxDescription (v : option string) (s : State) : State :=
  mkState (filterButtons s) (portfolioItems s) (lightbox s)
          (lightboxImage s) (lightboxTitle s) v (lightboxClose s)
          (lightboxPrev s) (lightboxNext s) (currentFilter s)
          (currentIndex s) (filteredItems s) (isLightboxOpen s)
          (bodyOverflow s) (focusCalls s) (timeouts s) (listening s).

Definition set_lightboxClose (v : bool) (s : State) : State :=
  mkState (filterButtons s) (portfolioItems s) (lightbox s)
          (lightboxImage s) (lightboxTitle s) (lightboxDescription s) v
          (lightboxPrev s) (lightboxNext s) (currentFilter s)
          (currentIndex s) (filteredItems s) (isLightboxOpen s)
          (bodyOverflow s) (focusCalls s) (timeouts s) (listening s).

Definition set_lightboxPrev (v : option string) (s : State) : State :=
  mkState (filterButtons s) (portfolioItems s) (lightbox s)
          (lightboxImage s) (lightboxTitle s) (lightboxDescription s)
          (lightboxClose s) v (lightboxNext s) (currentFilter s)
          (currentIndex s) (filteredItems s) (isLightboxOpen s)
          (bodyOverflow s) (focusCalls s) (timeouts s) (listening s).

Definition set_lightboxNext (v : option string) (s : State) : State :=
  mkState (filterButtons s) (portfolioItems s) (lightbox s)
          (lightboxImage s) (lightboxTitle s) (lightboxDescription s)
          (lightboxClose s) (lightboxPrev s) v (currentFilter s)
          (currentIndex s) (filteredItems s) (isLightboxOpen s)
          (bodyOverflow s) (focusCalls s) (timeouts s) (listening s).

Definition set_currentFilter (v : string) (s : State) : State :=
  mkState (filterButtons s) (portfolioItems s) (lightbox s)
          (lightboxImage s) (lightboxTitle s) (lightboxDescription s)
          (lightboxClose s) (lightboxPrev s) (lightboxNext s) v
          (currentIndex s) (filteredItems s) (isLightboxOpen s)
          (bodyOverflow s) (focusCalls s) (timeouts s) (listening s).

Definition set_currentIndex (v : Z) (s : State) : State :=
  mkState (filterButtons s) (portfolioItems s) (lightbox s)
          (lightboxImage s) (lightboxTitle s) (lightboxDescription s)
          (lightboxClose s) (lightboxPrev s) (lightboxNext s)
          (currentFilter s) v (filteredItems s) (isLightboxOpen s)
          (bodyOverflow s) (focusCalls s) (timeouts s) (listening s).

Definition set_filteredItems (v : list Item) (s : State) : State :=
  mkState (filterButtons s) (portfolioItems s) (lightbox s)
          (lightboxImage s) (lightboxTitle s) (lightboxDescription s)
          (lightboxClose s) (lightboxPrev s) (lightboxNext s)
          (currentFilter s) (currentIndex s) v (isLightboxOpen s)
          (bodyOverflow s) (focusCalls s) (timeouts s) (listening s).

Definition set_isLightboxOpen (v : bool) (s : State) : State :=
  mkState (filterButtons s) (portfolioItems s) (lightbox s)
          (lightboxImage s) (lightboxTitle s) (lightboxDescription s)
          (lightboxClose s) (lightboxPrev s) (lightboxNext s)
          (currentFilter s) (currentIndex s) (filteredItems s) v
          (bodyOverflow s) (focusCalls s) (timeouts s) (listening s).

Definition set_bodyOverflow (v : string) (s : State) : State :=
  mkState (filterButtons s) (portfolioItems s) (lightbox s)
          (lightboxImage s) (lightboxTitle s) (lightboxDescription s)
          (lightboxClose s) (lightboxPrev s) (lightboxNext s)
          (currentFilter s) (currentIndex s) (filteredItems s)
          (isLightboxOpen s) v (focusCalls s) (timeouts s) (listening s).

Definition set_focusCalls (v : list Target) (s : State) : State :=
  mkState (filterButtons s) (portfolioItems s) (lightbox s)
          (lightboxImage s) (lightboxTitle s) (lightboxDescription s)
          (lightboxClose s) (lightboxPrev s) (lightboxNext s)
          (currentFilter s) (currentIndex s) (filteredItems s)
          (isLightboxOpen s) (bodyOverflow s) v (timeouts s) (listening s).

Definition set_timeouts (v : list nat) (s : State) : State :=
  mkState (filterButtons s) (portfolioItems s) (lightbox s)
          (lightboxImage s) (lightboxTitle s) (lightboxDescription s)
          (lightboxClose s) (lightboxPrev s) (lightboxNext s)
          (currentFilter s) (currentIndex s) (filteredItems s)
          (isLightboxOpen s) (bodyOverflow s) (focusCalls s) v (listening s).

Definition set_listening (v : bool) (s : State) : State :=
  mkState (filterButtons s) (portfolioItems s) (lightbox s)
          (lightboxImage s) (lightboxTitle s) (lightboxDescription s)
          (lightboxClose s) (lightboxPrev s) (lightboxNext s)
          (currentFilter s) (currentIndex s) (filteredItems s)
          (isLightboxOpen s) (bodyOverflow s) (focusCalls s) (timeouts s) v.

(** A handler returns or throws; what it did before it threw stays done. *)
Inductive Outcome :=
| Returned (s : State)
| Threw (s : State).

Definition state_of (o : Outcome) : State :=
  match o with
  | Returned s => s
  | Threw s => s
  end.

Definition and_then (o : Outcome) (k : State → Outcome) : Outcome :=
  match o with
  | Returned s => k s
  | Threw s => Threw s
  end.

(** [a || b] on a string that may be undefined: the empty string is falsy. *)
Definition orElse (a : option string) (b : string) : string :=
  match a with
  | Some v => if String.eqb v "" then b else v
  | None => b
  end.

Definition title (it : Item) : string :=
  orElse (dataTitle it) (orElse (cardTitle it) "").

Definition description (it : Item) : string :=
  orElse (dataDescription it) "".

Definition fullSrc (it : Item) : string :=
  orElse (dataFullImage it) (orElse (imgSrc it) "").

(** [category === 'all' || item.dataset.category === category] *)
Definition matches (filter : string) (it : Item) : bool :=
  String.eqb filter "all" || bool_decide (category it = Some filter).

(** [filteredItems.indexOf(item)] *)
Definition indexOf (items : list Item) (it : Item) : Z :=
  match list_find (λ other, node other = node it) items with
  | Some (i, _) => Z.of_nat i
  | None => (-1)%Z
  end.

(** [filteredItems[index]], undefined outside the array. *)
Definition nth_item (items : list Item) (index : Z) : option Item :=
  if (index <? 0)%Z then None else items !! Z.to_nat index.

Definition focus (t : Target) (s : State) : State :=
  set_focusCalls (focusCalls s ++ [t]) s.

(** The body of the loop over the cards in [filterItems], card by card. *)
Fixpoint showOrHide (category : string) (i : nat) (cards : list Card)
         (pending : list nat) : list Card * list nat :=
  match cards with
  | [] => ([], pending)
  | c :: rest =>
      if matches category (item c) then
        let (rest', pending') := showOrHide category (S i) rest pending in
        (mkCard (item c) false "" :: rest', pending')
      else
        let (rest', pending') :=
          showOrHide category (S i) rest (pending ++ [i]) in
        (mkCard (item c) true (display c) :: rest', pending')
  end.

Definition updateFilteredItems (s : State) : Outcome :=
  match portfolioItems s with
  | None => Threw s
  | Some cards =>
      Returned
        (set_filteredItems
           (filter (λ it, matches (currentFilter s) it) (item <$> cards)) s)
  end.

Definition filterItems (category : string) (s : State) : Outcome :=
  let s := set_currentFilter category s in
  match filterButtons s with
  | None => Threw s
  | Some buttons =>
      let s :=
        set_filterButtons
          (Some ((λ btn,
                    let isActive := String.eqb (dataFilter btn) category in
                    mkButton (dataFilter btn) isActive (Some isActive))
                   <$> buttons)) s in
      match portfolioItems s with
      | None => Threw s
      | Some cards =>
          let (cards', pending) :=
            showOrHide category 0 cards (timeouts s) in
          let s := set_timeouts pending (set_portfolioItems (Some cards') s) in
          updateFilteredItems s
      end
  end.

(** The callback of [setTimeout] in [filterItems], for the card at [i]. *)
Definition hideIfStillHidden (i : nat) (s : State) : State :=
  match portfolioItems s with
  | Some cards =>
      match cards !! i with
      | Some c =>
          if hiddenClass c
          then set_portfolioItems
                 (Some (<[i := mkCard (item c) true "none"]> cards)) s
          else s
      | None => s
      end
  | None => s
  end.

Definition updateNavButtons (s : State) : State :=
  match lightboxPrev s, lightboxNext s with
  | Some _, Some _ =>
      let showNav := 1 <? length (filteredItems s) in
      let s := set_lightboxPrev (Some (if showNav then "" else "none")) s in
      set_lightboxNext (Some (if showNav then "" else "none")) s
  | _, _ => s
  end.

(** [item] is [None] for [undefined], on which [item.querySelector]
    throws. *)
Definition updateLightboxContent (item : option Item) (s : State) : Outcome :=
  match item with
  | None => Threw s
  | Some it =>
      let s := match lightboxImage s with
               | Some _ => set_lightboxImage
                             (Some (mkImage (fullSrc it) (title it))) s
               | None => s
               end in
      let s := match lightboxTitle s with
               | Some _ => set_lightboxTitle (Some (title it)) s
               | None => s
               end in
      let s := match lightboxDescription s with
               | Some _ => set_lightboxDescription (Some (description it)) s
               | None => s
               end in
      Returned (updateNavButtons s)
  end.

Definition openLightbox (it : Item) (s : State) : Outcome :=
  match lightbox s with
  | None => Returned s
  | Some _ =>
      let s := set_currentIndex (indexOf (filteredItems s) it) s in
      and_then (updateLightboxContent (Some it) s) (λ s,
        let s := set_lightbox (Some true) s in
        let s := set_isLightboxOpen true s in
        let s := set_bodyOverflow "hidden" s in
        if lightboxClose s then Returned (focus CloseButton s) else Threw s)
  end.

Definition closeLightbox (s : State) : State :=
  match lightbox s with
  | None => s
  | Some _ =>
      let s := set_lightbox (Some false) s in
      let s := set_isLightboxOpen false s in
      let s := set_bodyOverflow "" s in
      match nth_item (filteredItems s) (currentIndex s) with
      | Some it => focus (CardNode (node it)) s
      | None => s
      end
  end.

Definition navigateLightbox (direction : Z) (s : State) : Outcome :=
  let s := set_currentIndex (currentIndex s + direction) s in
  let s := if (currentIndex s <? 0)%Z
           then set_currentIndex (Z.of_nat (length (filteredItems s)) - 1) s
           else s in
  let s := if (Z.of_nat (length (filteredItems s)) <=? currentIndex s)%Z
           then set_currentIndex 0 s
           else s in
  updateLightboxContent (nth_item (filteredItems s) (currentIndex s)) s.

(** [trapFocus(e)]: [focusable] is what [lightbox.querySelectorAll] finds,
    [active] is [document.activeElement]. *)
Definition trapFocus (shiftKey : bool) (focusable : list Target)
           (active : option Target) (s : State) : Outcome :=
  match lightbox s with
  | None => Threw s
  | Some _ =>
      match head focusable, last focusable with
      | Some firstElement, Some lastElement =>
          if shiftKey && bool_decide (active = Some firstElement)
          then Returned (focus lastElement s)
          else if negb shiftKey && bool_decide (active = Some lastElement)
               then Returned (focus firstElement s)
               else Returned s
      | _, _ => Returned s
      end
  end.

Definition handleKeydown (key : string) (shiftKey : bool)
           (focusable : list Target) (active : option Target)
           (s : State) : Outcome :=
  if negb (isLightboxOpen s) then Returned s
  else if String.eqb key "Escape" then Returned (closeLightbox s)
  else if String.eqb key "ArrowLeft" then navigateLightbox (-1) s
  else if String.eqb key "ArrowRight" then navigateLightbox 1 s
  else if String.eqb key "Tab" then trapFocus shiftKey focusable active s
  else Returned s.

(** What [init] finds in the document. *)
Record Page := mkPage {
  pageButtons : list Button;
  pageCards : list Card;
  pageLightbox : option bool;
  pageImage : option Image;
  pageTitle : option string;
  pageDescription : option string;
  pageClose : bool;
  pagePrev : option string;
  pageNext : option string;
  pageOverflow : string
}.

(** The variables as the module declares them. *)
Definition initial (page : Page) : State :=
  mkState None None None None None None false None None
          "all" 0 [] false (pageOverflow page) [] [] false.

(** [document.querySelector] after [createLightbox]: the element of the
    page if it has one, else the one of the lightbox just inserted, if one
    was inserted. *)
Definition query {A} (page : Page) (own : option A) (inserted : A) : option A :=
  match own with
  | Some e => Some e
  | None => match pageLightbox page with
            | None => Some inserted
            | Some _ => None
            end
  end.

Definition init (page : Page) (s : State) : Outcome :=
  let s := set_filterButtons (Some (pageButtons page)) s in
  let s := set_portfolioItems (Some (pageCards page)) s in
  if length (pageCards page) =? 0 then Returned s
  else
    let s := set_lightbox (query page (pageLightbox page) false) s in
    let s := set_lightboxImage (query page (pageImage page) (mkImage "" "")) s in
    let s := set_lightboxTitle (query page (pageTitle page) "") s in
    let s := set_lightboxDescription
               (query page (pageDescription page) "") s in
    let s := set_lightboxClose
               (pageClose page || bool_decide (pageLightbox page = None)) s in
    let s := set_lightboxPrev (query page (pagePrev page) "") s in
    let s := set_lightboxNext (query page (pageNext page) "") s in
    let s := set_listening true s in
    updateFilteredItems s.

(** What happens on the page once [init] has run: clicks on a filter
    button, on a card, on the controls of the lightbox, on the lightbox
    itself ([onBackdrop] when the target is the lightbox element), Enter or
    space on a card, a key pressed anywhere in the document (with what the
    handler reads from the event and the document), and a pending hide
    callback firing. *)
Inductive Event :=
| FilterClick (i : nat)
| ItemClick (i : nat)
| ItemKeydown (i : nat) (key : string)
| CloseClick
| PrevClick
| NextClick
| LightboxClick (onBackdrop : bool)
| DocumentKeydown (key : string) (shiftKey : bool)
                  (focusable : list Target) (active : option Target)
| TimeoutFires (k : nat).

Definition handle (ev : Event) (s : State) : Outcome :=
  match ev with
  | TimeoutFires k =>
      match timeouts s !! k with
      | Some i => Returned (hideIfStillHidden i
                              (set_timeouts (delete k (timeouts s)) s))
      | None => Returned s
      end
  | FilterClick i =>
      match listening s, filterButtons s ≫= (.!! i) with
      | true, Some btn => filterItems (dataFilter btn) s
      | _, _ => Returned s
      end
  | ItemClick i =>
      match listening s, portfolioItems s ≫= (.!! i) with
      | true, Some c => openLightbox (item c) s
      | _, _ => Returned s
      end
  | ItemKeydown i key =>
      match listening s, portfolioItems s ≫= (.!! i) with
      | true, Some c =>
          if String.eqb key "Enter" || String.eqb key " "
          then openLightbox (item c) s
          else Returned s
      | _, _ => Returned s
      end
  | CloseClick =>
      if listening s && lightboxClose s
      then Returned (closeLightbox s) else Returned s
  | PrevClick =>
      match listening s, lightboxPrev s with
      | true, Some _ => navigateLightbox (-1) s
      | _, _ => Returned s
      end
  | NextClick =>
      match listening s, lightboxNext s with
      | true, Some _ => navigateLightbox 1 s
      | _, _ => Returned s
      end
  | LightboxClick onBackdrop =>
      match listening s, lightbox s with
      | true, Some _ =>
          if onBackdrop then Returned (closeLightbox s) else Returned s
      | _, _ => Returned s
      end
  | DocumentKeydown key shiftKey focusable active =>
      if listening s then handleKeydown key shiftKey focusable active s
      else Returned s
  end.

Definition run (evs : list Event) (s : State) : State :=
  foldl (λ s ev, state_of (handle ev s)) s evs.

(** The lightbox shows [it] in each of its parts that exist. *)
Definition showing (s : State) (it : Item) : Prop :=
  (∀ img, lightboxImage s = Some img → img = mkImage (fullSrc it) (title it))
  ∧ (∀ t, lightboxTitle s = Some t → t = title it)
  ∧ (∀ d, lightboxDescription s = Some d → d = description it).

(** What [init] leaves when it got past its early return and the page has
    a close button or got the lightbox of [createLightbox]. *)
Definition ready (s : State) : Prop :=
  listening s = true
  ∧ is_Some (filterButtons s)
  ∧ is_Some (portfolioItems s)
  ∧ is_Some (lightbox s)
  ∧ lightboxClose s = true.

(** [s'] differs from [s] at most in what the lightbox displays: its
    image, title, description and whether its arrows are shown. *)
Definition same_but_content (s s' : State) : Prop :=
  filterButtons s' = filterButtons s
  ∧ portfolioItems s' = portfolioItems s
  ∧ lightbox s' = lightbox s
  ∧ lightboxClose s' = lightboxClose s
  ∧ (is_Some (lightboxPrev s') ↔ is_Some (lightboxPrev s))
  ∧ (is_Some (lightboxNext s') ↔ is_Some (lightboxNext s))
  ∧ currentFilter s' = currentFilter s
  ∧ currentIndex s' = currentIndex s
  ∧ filteredItems s' = filteredItems s
  ∧ isLightboxOpen s' = isLightboxOpen s
  ∧ bodyOverflow s' = bodyOverflow s
  ∧ focusCalls s' = focusCalls s
  ∧ timeouts s' = timeouts s
  ∧ listening s' = listening s.

(** The handlers that page through the lightbox. *)
Definition pages (ev : Event) (s : State) : Prop :=
  match ev with
  | PrevClick => is_Some (lightboxPrev s)
  | NextClick => is_Some (lightboxNext s)
  | DocumentKeydown key _ _ _ =>
      isLightboxOpen s = true ∧ (key = "ArrowLeft" ∨ key = "ArrowRight")
  | _ => False
  end.

(** The cards agree with the filter: a card of the current category is
    shown, any other carries the hidden class and is either out of the
    layout or has its hide callback pending; and the lightbox pages through
    the cards of the current category. *)
Definition filtered (s : State) : Prop :=
  ∃ cards,
    portfolioItems s = Some cards
    ∧ filteredItems s
      = filter (λ it, matches (currentFilter s) it) (item <$> cards)
    ∧ ∀ i c, cards !! i = Some c →
        if matches (currentFilter s) (item c)
        then hiddenClass c = false ∧ display c = ""
        else hiddenClass c = true ∧ (display c = "none" ∨ i ∈ timeouts s).

End Portfolio.

(** ** A gallery

    Three cards, two of weddings and one corporate event, and three filter
    buttons, the last for a category without a card.  The page has no
    lightbox of its own. *)

Definition garden_wedding : Portfolio.Item :=
  Portfolio.mkItem 0 (Some "wedding") (Some "Garden wedding") None
                   (Some "June, 120 guests") (Some "/img/garden-full.jpg")
                   (Some "/img/garden.jpg").

Definition product_launch : Portfolio.Item :=
  Portfolio.mkItem 1 (Some "corporate") None (Some "Product launch") None None
                   (Some "/img/launch.jpg").

Definition beach_wedding : Portfolio.Item :=
  Portfolio.mkItem 2 (Some "wedding") (Some "") (Some "Beach wedding") None
                   None None.

Definition gallery_page : Portfolio.Page :=
  Portfolio.mkPage
    [Portfolio.mkButton "all" true None;
     Portfolio.mkButton "wedding" false None;
     Portfolio.mkButton "gala" false None]
    [Portfolio.mkCard garden_wedding false "";
     Portfolio.mkCard product_launch false "";
     Portfolio.mkCard beach_wedding false ""]
    None None None None false None None "scroll".

Definition gallery : Portfolio.State :=
  Portfolio.state_of (Portfolio.init gallery_page (Portfolio.initial gallery_page)).

(** * The accordions (initAccordions)

    One accordion with its items, none nested in another.  An item may lack
    its header or its content; the header carries [aria-expanded] or not. *)

Module Accordion.

Record Item := mkItem {
  header : option (option string);
  content : bool;
  open : bool
}.

Record State := mkState {
  dataSingle : option string;
  items : list Item
}.

(** A boolean as [setAttribute] writes it. *)
Definition attr (b : bool) : string := if b then "true" else "false".

(** [header.setAttribute('aria-expanded', v)] on the header of an item;
    with [?.] nothing happens on an item without header. *)
Definition setExpanded (v : string) (it : Item) : Item :=
  mkItem ((λ _, Some v) <$> header it) (content it) (open it).

Definition setOpen (b : bool) (it : Item) : Item :=
  mkItem (header it) (content it) b.

(** [if (!header || !content) return]: only the other items get the click
    listener and their initial attribute. *)
Definition wired (it : Item) : bool :=
  match header it with
  | Some _ => content it
  | None => false
  end.

Definition initAccordions (s : State) : State :=
  mkState (dataSingle s)
          ((λ it, if wired it then setExpanded (attr (open it)) it else it)
             <$> items s).

(** A click on the header of the item at [i]. *)
Definition click (i : nat) (s : State) : State :=
  match items s !! i with
  | Some it =>
      if wired it then
        let isOpen := open it in
        let others :=
          if bool_decide (dataSingle s = Some "true")
          then (λ otherItem, setExpanded "false" (setOpen false otherItem))
                 <$> items s
          else items s in
        mkState (dataSingle s)
                (alter (λ it, setExpanded (attr (negb isOpen))
                                          (setOpen (negb isOpen) it))
                       i others)
      else s
  | None => s
  end.

Definition clicks (headers : list nat) (s : State) : State :=
  foldl (λ s i, click i s) s headers.

End Accordion.

(** ** An accordion

    Questions of which one at a time is meant to be open; the page marks
    all three as open, the second header says otherwise, and the third
    item has no header. *)

Definition faq : Accordion.State :=
  Accordion.mkState
    (Some "true")
    [Accordion.mkItem (Some None) true true;
     Accordion.mkItem (Some (Some "false")) true true;
     Accordion.mkItem None true true].

(** * Properties *)

(** ** Strings *)

Lemma substring_all (s : string) :
  String.substring 0 (String.length s) s = s.
Proof. induction s as [|c s IH]; simpl; [done | by rewrite IH]. Qed.

Lemma length_append (a b : string) :
  String.length (a +:+ b) = String.length a + String.length b.
Proof.
  induction a as [|c a IH]; [done|].
  change (S (String.length (a +:+ b)) = S (String.length a + String.length b)).
  by rewrite IH.
Qed.

Lemma substring_skip_app (a b : string) (k m : nat) :
  String.substring (String.length a + k) m (a +:+ b) = String.substring k m b.
Proof. induction a as [|c a IH]; simpl; done. Qed.

Lemma substring_split (s : string) (n : nat) :
  n ≤ String.length s →
  s = String.substring 0 n s +:+ String.substring n (String.length s - n) s.
Proof.
  revert n. induction s as [|c s IH]; intros [|n] Hn; simpl in *; try done.
  - by rewrite substring_all.
  - change (String c s =
            String c (String.substring 0 n s +:+
                      String.substring n (String.length s - n) s)).
    f_equal. apply IH. lia.
Qed.

Lemma endsWith_app_shorter (a b c : string) :
  String.length c ≤ String.length b →
  endsWith (a +:+ b) c = endsWith b c.
Proof.
  intros Hle. unfold endsWith. rewrite length_append.
  replace (String.length a + String.length b - String.length c)
    with (String.length a + (String.length b - String.length c)) by lia.
  rewrite substring_skip_app.
  destruct (Nat.leb_spec (String.length c) (String.length b)); [|lia].
  destruct (Nat.leb_spec (String.length c)
                         (String.length a + String.length b)); [done | lia].
Qed.

Lemma endsWith_app (a b : string) : endsWith (a +:+ b) b = true.
Proof.
  rewrite endsWith_app_shorter by done. unfold endsWith.
  rewrite Nat.leb_refl, Nat.sub_diag, substring_all. apply String.eqb_refl.
Qed.

Lemma endsWith_inv (s b : string) :
  endsWith s b = true → ∃ a, s = a +:+ b.
Proof.
  unfold endsWith.
  destruct (Nat.leb_spec (String.length b) (String.length s)) as [Hle|]; [|done].
  intros Heq%String.eqb_eq.
  exists (String.substring 0 (String.length s - String.length b) s).
  rewrite (substring_split s (String.length s - String.length b)) at 1 by lia.
  replace (String.length s - (String.length s - String.length b))
    with (String.length b) by lia.
  by rewrite Heq.
Qed.

Example endsWith_glb : endsWith "/assets/3d/staff.glb" ".glb" = true.
Proof. reflexivity. Qed.

Example endsWith_longer_search : endsWith "glb" ".glb" = false.
Proof. reflexivity. Qed.

Example endsWith_query_is_not_path : endsWith "/a.glb.bak" ".glb" = false.
Proof. reflexivity. Qed.

Example match_static_woff2 :
  match_static "/fonts/a.woff" = true ∧ match_static "/fonts/a.woff2" = true
  ∧ match_static "/fonts/a.woff3" = false ∧ match_static "/a.JS" = false.
Proof. by repeat split. Qed.

Lemma endsWith_extension (path ext : string) :
  endsWith path ("." +:+ ext) = true ↔ has_extension path ext.
Proof.
  split.
  - intros [a ->]%endsWith_inv. by exists a.
  - intros [a ->]. apply endsWith_app.
Qed.

Lemma match_static_class (path : string) :
  match_static path = true ↔ static_class path.
Proof.
  unfold match_static, static_class. rewrite existsb_exists. split.
  - intros (ext & Hin & He). exists ext. split.
    + by apply list_elem_of_In.
    + by apply endsWith_extension.
  - intros (ext & Hin & He). exists ext. split.
    + by apply list_elem_of_In.
    + by apply endsWith_extension.
Qed.

Lemma model_class_endsWith (path : string) :
  endsWith path ".glb" || endsWith path ".gltf" = true ↔ model_class path.
Proof.
  unfold model_class. rewrite orb_true_iff.
  by rewrite <- !endsWith_extension.
Qed.

Lemma document_class_endsWith (path : string) :
  endsWith path ".html" || String.eqb path "/" = true ↔ document_class path.
Proof.
  unfold document_class. rewrite orb_true_iff, String.eqb_eq.
  by rewrite <- endsWith_extension.
Qed.

(** A path with one ending does not have another one: the test of the
    second ending looks at the first ending only. *)
Lemma extension_excludes (path ext ending : string) :
  has_extension path ext →
  String.length ending ≤ String.length ("." +:+ ext) →
  endsWith ("." +:+ ext) ending = false →
  endsWith path ending = false.
Proof.
  intros [a ->] Hlen Hno. by rewrite endsWith_app_shorter.
Qed.

Ltac clash :=
  match goal with
  | H1 : has_extension ?p ?e1, H2 : has_extension ?p ?e2 |- _ =>
    apply endsWith_extension in H2;
    first
      [ rewrite (extension_excludes p e1 _ H1) in H2;
        [ discriminate | simpl; lia | reflexivity ]
      | apply endsWith_extension in H2; apply endsWith_extension in H1;
        rewrite (extension_excludes p e2 _ H2) in H1;
        [ discriminate | simpl; lia | reflexivity ] ]
  end.

Lemma model_not_static (path : string) :
  model_class path → ¬ static_class path.
Proof.
  intros Hm (ext & Hin & He). unfold static_extensions in Hin.
  repeat (apply elem_of_cons in Hin as [-> | Hin]);
    [.. | by apply elem_of_nil in Hin];
    destruct Hm as [Hm | Hm]; clash.
Qed.

Lemma model_not_document (path : string) :
  model_class path → ¬ document_class path.
Proof.
  intros Hm [Hd | ->].
  - destruct Hm as [Hm | Hm]; clash.
  - destruct Hm as [Hm | Hm]; apply endsWith_extension in Hm; discriminate.
Qed.

Lemma static_not_document (path : string) :
  static_class path → ¬ document_class path.
Proof.
  intros (ext & Hin & He) [Hd | ->]; unfold static_extensions in Hin;
    repeat (apply elem_of_cons in Hin as [-> | Hin]);
    try (by apply elem_of_nil in Hin);
    try clash;
    apply endsWith_extension in He; discriminate.
Qed.

(** ** The strategy selector *)

Section Selector.

Variable net : nat → URL → FetchOutcome.
Variable self_origin : string.

Lemma onfetch_cross_origin (request : URL) (w : World) :
  origin request ≠ self_origin →
  onfetch net self_origin request w = (NotIntercepted, w).
Proof. intros Hne. unfold onfetch. by rewrite bool_decide_true. Qed.

Lemma onfetch_model (request : URL) (w : World) :
  origin request = self_origin → model_class (pathname request) →
  onfetch net self_origin request w
  = respondWith Some (cacheFirst net request (models CACHE_NAMES)) w.
Proof.
  intros Ho Hm%model_class_endsWith. unfold onfetch.
  rewrite bool_decide_false by (by intros []). by rewrite Hm.
Qed.

Lemma onfetch_static (request : URL) (w : World) :
  origin request = self_origin →
  ¬ model_class (pathname request) → static_class (pathname request) →
  onfetch net self_origin request w
  = respondWith id (staleWhileRevalidate net request (static CACHE_NAMES)) w.
Proof.
  intros Ho Hm Hs%match_static_class. unfold onfetch.
  rewrite bool_decide_false by (by intros []).
  rewrite <- model_class_endsWith in Hm. apply not_true_is_false in Hm.
  by rewrite Hm, Hs.
Qed.

Lemma onfetch_document (request : URL) (w : World) :
  origin request = self_origin →
  ¬ model_class (pathname request) → ¬ static_class (pathname request) →
  document_class (pathname request) →
  onfetch net self_origin request w
  = respondWith Some (networkFirst net request (runtime CACHE_NAMES)) w.
Proof.
  intros Ho Hm Hs Hd%document_class_endsWith. unfold onfetch.
  rewrite bool_decide_false by (by intros []).
  rewrite <- model_class_endsWith in Hm. apply not_true_is_false in Hm.
  rewrite <- match_static_class in Hs. apply not_true_is_false in Hs.
  by rewrite Hm, Hs, Hd.
Qed.

Lemma onfetch_other (request : URL) (w : World) :
  ¬ model_class (pathname request) → ¬ static_class (pathname request) →
  ¬ document_class (pathname request) →
  onfetch net self_origin request w = (NotIntercepted, w).
Proof.
  intros Hm Hs Hd. unfold onfetch.
  rewrite <- model_class_endsWith in Hm. apply not_true_is_false in Hm.
  rewrite <- match_static_class in Hs. apply not_true_is_false in Hs.
  rewrite <- document_class_endsWith in Hd. apply not_true_is_false in Hd.
  rewrite Hm, Hs, Hd. by case_bool_decide.
Qed.

(** C9: the fetch listener sorts every request by the ending of its path,
    the model endings first, then the static endings, then markup or the
    root path; the three classes exclude one another, so a request gets at
    most one strategy; a request in none of the classes, and every request
    to another origin whatever its ending, is left alone: the listener
    answers nothing and changes nothing. *)
Theorem C9_selector_classifies (request : URL) (w : World) :
  let path := pathname request in
  (origin request ≠ self_origin →
     onfetch net self_origin request w = (NotIntercepted, w))
  ∧ (origin request = self_origin → model_class path →
     onfetch net self_origin request w
     = respondWith Some (cacheFirst net request (models CACHE_NAMES)) w)
  ∧ (origin request = self_origin → ¬ model_class path → static_class path →
     onfetch net self_origin request w
     = respondWith id (staleWhileRevalidate net request (static CACHE_NAMES)) w)
  ∧ (origin request = self_origin →
     ¬ model_class path → ¬ static_class path → document_class path →
     onfetch net self_origin request w
     = respondWith Some (networkFirst net request (runtime CACHE_NAMES)) w)
  ∧ (¬ model_class path → ¬ static_class path → ¬ document_class path →
     onfetch net self_origin request w = (NotIntercepted, w))
  ∧ ¬ (model_class path ∧ static_class path)
  ∧ ¬ (model_class path ∧ document_class path)
  ∧ ¬ (static_class path ∧ document_class path).
Proof.
  intros path. subst path. repeat split.
  - apply onfetch_cross_origin.
  - apply onfetch_model.
  - apply onfetch_static.
  - apply onfetch_document.
  - apply onfetch_other.
  - intros [Hm Hs]. by apply (model_not_static _ Hm).
  - intros [Hm Hd]. by apply (model_not_document _ Hm).
  - intros [Hs Hd]. by apply (static_not_document _ Hs).
Qed.

End Selector.

(** ** The world and the primitives *)

Lemma world_eta (w : World) :
  mkWorld (storage w) (trace w) (tasks w)
          (skipWaiting_called w) (clients_claimed w) = w.
Proof. by destruct w. Qed.

Lemma fetches_app (t1 t2 : list TraceEvent) :
  fetches (t1 ++ t2) = fetches t1 ++ fetches t2.
Proof.
  induction t1 as [|[u|c u] t1 IH]; simpl; [done | by rewrite IH | done].
Qed.

Lemma caches_open_present (cacheName : string) (w : World) :
  is_Some (storage w !! cacheName) →
  caches_open cacheName w = (Resolved cacheName, w).
Proof.
  intros [p Hp]. unfold caches_open, with_storage. rewrite Hp.
  by rewrite world_eta.
Qed.

Lemma caches_open_storage (cacheName : string) (w : World) :
  is_Some (storage (caches_open cacheName w).2 !! cacheName).
Proof.
  unfold caches_open, with_storage. simpl.
  destruct (storage w !! cacheName) eqn:E; [by rewrite E|].
  rewrite lookup_insert_eq. by eexists.
Qed.

Lemma cached_in_open (cacheName c : string) (request : URL) (w : World) :
  cached_in c request (caches_open cacheName w).2 = cached_in c request w.
Proof.
  unfold cached_in, caches_open, with_storage. simpl.
  destruct (storage w !! cacheName) eqn:E; [done|].
  destruct (decide (cacheName = c)) as [->|Hne].
  - by rewrite lookup_insert_eq, E.
  - by rewrite lookup_insert_ne.
Qed.

Lemma cached_in_is_Some (c : string) (request : URL) (w : World) (r : Response) :
  cached_in c request w = Some r → is_Some (storage w !! c).
Proof. unfold cached_in. destruct (storage w !! c); [by eexists | done]. Qed.

Lemma cached_in_log (c : string) (request : URL) (e : TraceEvent) (w : World) :
  cached_in c request (log e w) = cached_in c request w.
Proof. done. Qed.

Lemma cached_in_with_tasks (c : string) (request : URL) f (w : World) :
  cached_in c request (with_tasks f w) = cached_in c request w.
Proof. done. Qed.

Lemma storable_ok (r : Response) :
  storable r = true ↔ ok r = true ∧ partial_content r = false.
Proof.
  unfold storable. rewrite andb_true_iff, negb_true_iff. done.
Qed.

Lemma storable_of_ok (r : Response) :
  ok r = true → storable r = negb (partial_content r).
Proof. unfold storable. by intros ->. Qed.

Lemma cache_put_taken (c : string) (request : URL) (r : Response) (w : World) :
  partial_content r = false →
  cache_put c request r w
  = (Resolved (),
     log (EvPut c request)
         (with_storage (alter (λ p, <[request := r]> p) c) w)).
Proof. intros Hr. unfold cache_put. by rewrite Hr. Qed.

Lemma cache_put_refused (c : string) (request : URL) (r : Response)
      (w : World) :
  partial_content r = true →
  cache_put c request r w = (Rejected "TypeError", w).
Proof. intros Hr. unfold cache_put. by rewrite Hr. Qed.

(** A write that the cache takes and that completes on an existing
    partition is what the next lookup finds. *)
Lemma cached_in_put (c : string) (request : URL) (r : Response) (w : World) :
  partial_content r = false →
  is_Some (storage w !! c) →
  cached_in c request (cache_put c request r w).2 = Some r.
Proof.
  intros Hr [p Hp]. rewrite cache_put_taken by done.
  unfold cached_in, log, with_storage. simpl.
  rewrite lookup_alter_eq, Hp. simpl. by rewrite lookup_insert_eq.
Qed.

(** ** The three strategies *)

Section Strategies.

Variable net : nat → URL → FetchOutcome.

(** The youngest pending task completes. *)
Lemma complete_last (t : Task) (ts : list Task) (w : World) :
  tasks w = ts ++ [t] →
  complete net (length ts) w = run_task net t (with_tasks (λ _, ts) w).
Proof.
  intros Hts. unfold complete. rewrite Hts, list_lookup_middle by done.
  f_equal. unfold with_tasks. by rewrite Hts, delete_middle, app_nil_r.
Qed.

Lemma caches_open_eq (cacheName : string) (w : World) :
  caches_open cacheName w = (Resolved cacheName, (caches_open cacheName w).2).
Proof. done. Qed.

Lemma caches_open_trace (cacheName : string) (w : World) :
  trace (caches_open cacheName w).2 = trace w.
Proof. done. Qed.

Lemma caches_open_tasks (cacheName : string) (w : World) :
  tasks (caches_open cacheName w).2 = tasks w.
Proof. done. Qed.

Lemma cache_match_eq (cache : string) (request : URL) (w : World) :
  cache_match cache request w = (Resolved (cached_in cache request w), w).
Proof. done. Qed.

(** *** cacheFirst *)

Lemma cacheFirst_hit (request : URL) (cacheName : string) (w : World)
      (cached : Response) :
  cached_in cacheName request w = Some cached →
  cacheFirst net request cacheName w = (Resolved cached, w).
Proof.
  intros Hhit. unfold cacheFirst, bind.
  rewrite caches_open_present by (by eapply cached_in_is_Some).
  by rewrite cache_match_eq, Hhit.
Qed.

Lemma cacheFirst_miss (request : URL) (cacheName : string) (w : World) :
  cached_in cacheName request w = None →
  cacheFirst net request cacheName w =
  let w1 := log (EvFetch request) (caches_open cacheName w).2 in
  match net (next_ticket w) request with
  | NetResponse r =>
    (Resolved r,
     if ok r
     then with_tasks (λ ts, ts ++ [TPut cacheName request r]) w1
     else w1)
  | NetError e => (Rejected e, w1)
  end.
Proof.
  intros Hmiss. unfold cacheFirst, bind.
  rewrite caches_open_eq, cache_match_eq, cached_in_open, Hmiss.
  unfold fetch, bind, fetch_start, fetch_settle, next_ticket.
  rewrite caches_open_trace.
  destruct (net _ request) as [r|e]; [|done].
  by destruct (ok r).
Qed.

Lemma repeat_cacheFirst_hit (n : nat) (request : URL) (cacheName : string)
      (w : World) (cached : Response) :
  cached_in cacheName request w = Some cached →
  repeat_cacheFirst net n request cacheName w = w.
Proof.
  intros Hhit. induction n as [|n IH]; [done|].
  simpl. by rewrite (cacheFirst_hit _ _ _ _ Hhit).
Qed.

Lemma fetch_count_log_fetch (request : URL) (w : World) :
  fetch_count request (log (EvFetch request) w) = fetch_count request w + 1.
Proof.
  unfold fetch_count, log. simpl.
  rewrite fetches_app, filter_app, length_app. simpl.
  by rewrite filter_cons_True by done.
Qed.

Lemma fetch_count_log_put (request : URL) (c : string) (u : URL) (w : World) :
  fetch_count request (log (EvPut c u) w) = fetch_count request w.
Proof.
  unfold fetch_count, log. simpl. rewrite fetches_app. simpl.
  by rewrite app_nil_r.
Qed.

(** C1: a model request that finds its response in the model partition
    gets that response from cacheFirst and leaves the world as it was: no
    fetch is started, however many times the request is repeated.  So when
    a miss has fetched an ok response that the cache takes and the write
    of it has completed, any number of further requests are all served
    that response and the network-call counter of the resource stays at
    the one call of the miss.  A partial response (status 206) is ok but
    never gets cached: its write is refused, the partition still has no
    entry when the write has completed, and the next request goes to the
    network again. *)
Theorem C1_cacheFirst_hit_stays_off_network (request : URL) (w : World) :
  (∀ cached,
     cached_in (models CACHE_NAMES) request w = Some cached →
     cacheFirst net request (models CACHE_NAMES) w = (Resolved cached, w)
     ∧ ∀ n, repeat_cacheFirst net n request (models CACHE_NAMES) w = w)
  ∧ (∀ r,
     cached_in (models CACHE_NAMES) request w = None →
     net (next_ticket w) request = NetResponse r →
     storable r = true →
     let w1 := complete net (length (tasks w))
                 (cacheFirst net request (models CACHE_NAMES) w).2 in
     fetch_count request w1 = fetch_count request w + 1
     ∧ ∀ n,
         let wn := repeat_cacheFirst net n request (models CACHE_NAMES) w1 in
         cacheFirst net request (models CACHE_NAMES) wn = (Resolved r, wn)
         ∧ fetch_count request wn = fetch_count request w + 1)
  ∧ (∀ r,
     cached_in (models CACHE_NAMES) request w = None →
     net (next_ticket w) request = NetResponse r →
     ok r = true →
     partial_content r = true →
     let w1 := complete net (length (tasks w))
                 (cacheFirst net request (models CACHE_NAMES) w).2 in
     cached_in (models CACHE_NAMES) request w1 = None
     ∧ tasks w1 = tasks w
     ∧ fetch_count request (cacheFirst net request (models CACHE_NAMES) w1).2
       = fetch_count request w + 2).
Proof.
  split; [|split].
  - intros cached Hhit. split.
    + by apply cacheFirst_hit.
    + intros n. by eapply repeat_cacheFirst_hit.
  - intros r Hmiss Hnet [Hok Hfull]%storable_ok w1.
    assert (Hw1 : cached_in (models CACHE_NAMES) request w1 = Some r
                  ∧ fetch_count request w1 = fetch_count request w + 1).
    { subst w1. rewrite (cacheFirst_miss _ _ _ Hmiss), Hnet, Hok. simpl.
      erewrite complete_last by done.
      simpl. split.
      - apply cached_in_put; [done|]. simpl. apply caches_open_storage.
      - rewrite cache_put_taken by done. simpl.
        rewrite fetch_count_log_put.
        apply (fetch_count_log_fetch request
                 (caches_open (models CACHE_NAMES) w).2). }
    destruct Hw1 as [Hhit Hcount]. split; [done|].
    intros n wn. subst wn.
    rewrite (repeat_cacheFirst_hit _ _ _ _ _ Hhit).
    split; [by apply cacheFirst_hit | done].
  - intros r Hmiss Hnet Hok Hpartial w1.
    assert (Hw1 : w1 = with_tasks (λ _, tasks w)
                         (log (EvFetch request)
                              (caches_open (models CACHE_NAMES) w).2)).
    { subst w1. rewrite (cacheFirst_miss _ _ _ Hmiss), Hnet, Hok. simpl.
      erewrite complete_last by done.
      simpl. by rewrite cache_put_refused by done. }
    assert (Hnone : cached_in (models CACHE_NAMES) request w1 = None).
    { rewrite Hw1, cached_in_with_tasks, cached_in_log, cached_in_open.
      done. }
    split; [done|]. split; [by rewrite Hw1|].
    rewrite (cacheFirst_miss _ _ _ Hnone). cbv zeta.
    assert (Hcount : fetch_count request
                       (log (EvFetch request)
                            (caches_open (models CACHE_NAMES) w1).2)
                     = fetch_count request w + 2).
    { rewrite fetch_count_log_fetch.
      change (fetch_count request (caches_open (models CACHE_NAMES) w1).2)
        with (fetch_count request w1).
      rewrite Hw1.
      change (fetch_count request (with_tasks ?f ?x))
        with (fetch_count request x).
      rewrite fetch_count_log_fetch.
      change (fetch_count request (caches_open (models CACHE_NAMES) w).2)
        with (fetch_count request w).
      lia. }
    destruct (net (next_ticket w1) request) as [r2|e]; [destruct (ok r2)|];
      exact Hcount.
Qed.

(** C4 (as amended): on a miss cacheFirst fetches.  An ok response is
    returned with the write of its copy started but not awaited: at the
    return the partition still has no entry for the request and the write
    is a pending task.  Once that task completes the entry is there,
    unless the response is a partial one (status 206): the cache refuses
    it and the partition still has no entry.  A response that is not ok is
    returned and nothing is written.  When the fetch is rejected, the
    rejection reaches the caller with the same error and nothing is
    written. *)
Theorem C4_cacheFirst_miss_write_detached (request : URL) (w : World) :
  cached_in (models CACHE_NAMES) request w = None →
  let res := (cacheFirst net request (models CACHE_NAMES) w).1 in
  let w' := (cacheFirst net request (models CACHE_NAMES) w).2 in
  fetches (trace w') = fetches (trace w) ++ [request]
  ∧ cached_in (models CACHE_NAMES) request w' = None
  ∧ match net (next_ticket w) request with
    | NetResponse r =>
      res = Resolved r
      ∧ if ok r
        then tasks w' = tasks w ++ [TPut (models CACHE_NAMES) request r]
             ∧ cached_in (models CACHE_NAMES) request
                         (complete net (length (tasks w)) w')
               = if partial_content r then None else Some r
        else tasks w' = tasks w
    | NetError e => res = Rejected e ∧ tasks w' = tasks w
    end.
Proof.
  intros Hmiss res w'. subst res w'.
  rewrite (cacheFirst_miss _ _ _ Hmiss).
  pose proof (cached_in_open (models CACHE_NAMES) (models CACHE_NAMES)
                             request w) as Hopen.
  rewrite Hmiss in Hopen.
  destruct (net (next_ticket w) request) as [r|e]; simpl.
  - destruct (ok r); simpl.
    + rewrite fetches_app. repeat split; try done.
      erewrite complete_last by done. simpl.
      destruct (partial_content r) eqn:Hpartial.
      * by rewrite cache_put_refused by done.
      * apply cached_in_put; [done|].
        exact (caches_open_storage (models CACHE_NAMES) w).
    + rewrite fetches_app. by repeat split.
  - rewrite fetches_app. by repeat split.
Qed.

(** *** networkFirst *)

Lemma networkFirst_eq (request : URL) (cacheName : string) (w : World) :
  networkFirst net request cacheName w =
  let w1 := log (EvFetch request) (caches_open cacheName w).2 in
  match net (next_ticket w) request with
  | NetResponse r =>
    (Resolved r,
     if ok r
     then with_tasks (λ ts, ts ++ [TPut cacheName request r]) w1
     else w1)
  | NetError e =>
    (match cached_in cacheName request w with
     | Some cached => Resolved cached
     | None => Rejected e
     end, w1)
  end.
Proof.
  unfold networkFirst, bind, try_catch. rewrite caches_open_eq.
  unfold fetch, bind, fetch_start, fetch_settle, next_ticket.
  rewrite caches_open_trace.
  destruct (net _ request) as [r|e].
  - by destruct (ok r).
  - rewrite cache_match_eq, cached_in_log, cached_in_open.
    by destruct (cached_in cacheName request w).
Qed.


(** *** staleWhileRevalidate *)

Lemma staleWhileRevalidate_hit (request : URL) (cacheName : string)
      (w : World) (cached : Response) :
  cached_in cacheName request w = Some cached →
  staleWhileRevalidate net request cacheName w =
  (Resolved (Some cached),
   with_tasks (λ ts, ts ++ [TRevalidate (next_ticket w) cacheName request
                                        (Some cached)])
              (log (EvFetch request) w)).
Proof.
  intros Hhit. unfold staleWhileRevalidate, bind.
  rewrite caches_open_present by (by eapply cached_in_is_Some).
  by rewrite cache_match_eq, Hhit.
Qed.

Lemma fetchPromise_eq (cache : string) (request : URL)
      (cachedResponse : option Response) (ticket : nat) (w : World) :
  fetchPromise net cache request cachedResponse ticket w =
  match net ticket request with
  | NetResponse r =>
    (Resolved (Some r),
     if ok r then with_tasks (λ ts, ts ++ [TPut cache request r]) w else w)
  | NetError _ => (Resolved cachedResponse, w)
  end.
Proof.
  unfold fetchPromise, try_catch, bind, fetch_settle.
  destruct (net ticket request) as [r|e]; [|done].
  by destruct (ok r).
Qed.

Lemma staleWhileRevalidate_miss (request : URL) (cacheName : string)
      (w : World) :
  cached_in cacheName request w = None →
  staleWhileRevalidate net request cacheName w =
  fetchPromise net cacheName request None (next_ticket w)
               (log (EvFetch request) (caches_open cacheName w).2).
Proof.
  intros Hmiss. unfold staleWhileRevalidate, bind.
  by rewrite caches_open_eq, cache_match_eq, cached_in_open, Hmiss.
Qed.

(** C2 (what the code does): on a miss whose fetch is rejected,
    staleWhileRevalidate does not pass the rejection on: its promise is
    fulfilled with the value the lookup had before the fetch, which is
    [undefined].  The cache is not looked up again: in whatever world the
    fetch settles, one whose partition has got an entry for the request
    in the meantime included, the promise is fulfilled with [undefined]. *)
Theorem C2_swr_miss_rejection_resolves_undefined
        (request : URL) (w : World) (e : string) :
  cached_in (static CACHE_NAMES) request w = None →
  net (next_ticket w) request = NetError e →
  (staleWhileRevalidate net request (static CACHE_NAMES) w).1 = Resolved None
  ∧ ∀ w2, (fetchPromise net (static CACHE_NAMES) request None
                        (next_ticket w) w2).1 = Resolved None.
Proof.
  intros Hmiss Hnet. split.
  - by rewrite (staleWhileRevalidate_miss _ _ _ Hmiss), fetchPromise_eq, Hnet.
  - intros w2. by rewrite fetchPromise_eq, Hnet.
Qed.

Lemma complete_none (i : nat) (w : World) :
  tasks w !! i = None → complete net i w = w.
Proof. intros Hi. unfold complete. by rewrite Hi. Qed.

(** C8 (as amended): with a cached entry staleWhileRevalidate starts the
    fetch and returns the cached response without looking at the outcome
    of the fetch, which is left to a pending task: the answer is the same
    on every network.  When that fetch brings an ok response that the
    cache takes, the partition holds the fresh response once the task and
    the write it starts have completed; this is so too when the request
    had no cached entry and was answered by the network.  When the fetch
    is rejected, when the response is not ok, and when it is ok but
    partial (status 206, which the cache refuses), the storage is as it
    was after the task has completed, and after the write that an ok
    response starts has. *)
Theorem C8_swr_serves_cached_and_revalidates (request : URL) (w : World) :
  let res := (staleWhileRevalidate net request (static CACHE_NAMES) w).1 in
  let w' := (staleWhileRevalidate net request (static CACHE_NAMES) w).2 in
  let k := length (tasks w) in
  (∀ cached,
     cached_in (static CACHE_NAMES) request w = Some cached →
     res = Resolved (Some cached)
     ∧ storage w' = storage w
     ∧ trace w' = trace w ++ [EvFetch request]
     ∧ tasks w' = tasks w ++ [TRevalidate (next_ticket w) (static CACHE_NAMES)
                                          request (Some cached)]
     ∧ match net (next_ticket w) request with
       | NetResponse r =>
         if storable r
         then cached_in (static CACHE_NAMES) request
                        (complete net k (complete net k w')) = Some r
         else storage (complete net k w') = storage w
              ∧ storage (complete net k (complete net k w')) = storage w
       | NetError _ => storage (complete net k w') = storage w
       end)
  ∧ (∀ r,
     cached_in (static CACHE_NAMES) request w = None →
     net (next_ticket w) request = NetResponse r →
     storable r = true →
     res = Resolved (Some r)
     ∧ cached_in (static CACHE_NAMES) request (complete net k w') = Some r).
Proof.
  cbv zeta. split.
  - intros cached Hhit.
    rewrite (staleWhileRevalidate_hit _ _ _ _ Hhit). cbn [fst snd].
    repeat split; try done.
    rewrite (complete_last
               (TRevalidate (next_ticket w) (static CACHE_NAMES) request
                            (Some cached))
               (tasks w)
               (with_tasks (λ ts, ts ++ [TRevalidate (next_ticket w)
                                           (static CACHE_NAMES) request
                                           (Some cached)])
                           (log (EvFetch request) w))) by done.
    cbn [run_task]. rewrite fetchPromise_eq.
    destruct (net (next_ticket w) request) as [r|e]; [|done].
    destruct (ok r) eqn:Hok.
    + rewrite (storable_of_ok _ Hok). cbn [fst snd].
      erewrite complete_last by done. cbn [run_task].
      destruct (partial_content r) eqn:Hpartial; cbn [negb].
      * split; [done|]. by rewrite cache_put_refused by done.
      * apply cached_in_put; [done|]. by eapply cached_in_is_Some.
    + assert (Hno : storable r = false) by (unfold storable; by rewrite Hok).
      rewrite Hno. cbn [snd]. split; [done|].
      by rewrite complete_none by apply lookup_ge_None_2, reflexivity.
  - intros r Hmiss Hnet [Hok Hfull]%storable_ok.
    rewrite (staleWhileRevalidate_miss _ _ _ Hmiss), fetchPromise_eq.
    rewrite Hnet, Hok. cbn [fst snd]. split; [done|].
    erewrite complete_last by done. cbn [run_task].
    apply cached_in_put; [done|].
    exact (caches_open_storage (static CACHE_NAMES) w).
Qed.

End Strategies.

(** ** Pending work always completes *)

Section Pending.

Variable net : nat → URL → FetchOutcome.

Lemma cache_put_tasks (c : string) (u : URL) (r : Response) (w : World) :
  tasks (cache_put c u r w).2 = tasks w.
Proof. unfold cache_put. by destruct (partial_content r). Qed.

Lemma preloadWithFetch_settle_tasks (ticket : nat) (url : URL) (cache : string)
      (w : World) :
  tasks (preloadWithFetch_settle net ticket url cache w).2 = tasks w.
Proof.
  unfold preloadWithFetch_settle, try_catch, bind, fetch_settle.
  destruct (net ticket url) as [r|e]; [|done]. destruct (ok r); [|done].
  unfold cache_put. by destruct (partial_content r).
Qed.

Lemma preloadAllModels_callback_eq (cache : string) (url : URL) (w : World) :
  preloadAllModels_callback cache url w = (Resolved (), looked_up cache url w).
Proof.
  unfold preloadAllModels_callback, looked_up, bind. rewrite cache_match_eq.
  by destruct (cached_in cache url w).
Qed.

Lemma ensureAllCached_round_eq (cache : string) (url : URL) (rest : list URL)
      (w : World) :
  ensureAllCached_round cache url rest w
  = (Resolved (), (ensureAllCached_next cache rest (looked_up cache url w)).2).
Proof.
  unfold ensureAllCached_round, looked_up. unfold bind at 1 2.
  rewrite cache_match_eq.
  destruct (cached_in cache url w); by destruct rest.
Qed.

Lemma looked_up_weight (cache : string) (url : URL) (w : World) :
  pending_weight (looked_up cache url w) ≤ pending_weight w + 1.
Proof.
  unfold looked_up, pending_weight.
  destruct (cached_in cache url w); [lia|]. cbn [tasks with_tasks log].
  rewrite fmap_app, sum_list_with_app. simpl. lia.
Qed.

Lemma ensureAllCached_next_weight (cache : string) (urls : list URL) (w : World) :
  pending_weight (ensureAllCached_next cache urls w).2
  = pending_weight w + 2 * length urls.
Proof.
  unfold pending_weight. destruct urls as [|u rest]; [simpl; lia|].
  cbn [ensureAllCached_next spawn snd tasks with_tasks].
  rewrite fmap_app, sum_list_with_app. simpl. lia.
Qed.

Lemma pending_weight_complete (w : World) :
  tasks w ≠ [] →
  pending_weight (complete net 0 w) < pending_weight w.
Proof.
  unfold complete.
  destruct (tasks w) as [|t ts] eqn:Hts; [done|]. intros _.
  change ((t :: ts) !! 0) with (Some t).
  assert (Hrest : tasks (with_tasks (delete 0) w) = ts).
  { unfold with_tasks. simpl. by rewrite Hts. }
  assert (Hw0 : pending_weight (with_tasks (delete 0) w)
                = sum_list (task_weight <$> ts)).
  { unfold pending_weight. by rewrite Hrest. }
  destruct t as [c u r|ticket c u cr|ticket c u|c u|c u rest];
    [| | |cbn [run_task];
          rewrite preloadAllModels_callback_eq; cbn [snd];
          pose proof (looked_up_weight c u (with_tasks (delete 0) w));
          unfold pending_weight at 2; rewrite Hts, fmap_cons;
          cbn [task_weight sum_list_with id]; lia
         |cbn [run_task];
          rewrite ensureAllCached_round_eq; cbn [snd];
          rewrite ensureAllCached_next_weight;
          pose proof (looked_up_weight c u (with_tasks (delete 0) w));
          unfold pending_weight at 2; rewrite Hts, fmap_cons;
          cbn [task_weight sum_list_with id]; lia];
    unfold pending_weight; rewrite Hts, fmap_cons;
    cbn [run_task task_weight sum_list_with id].
  - rewrite cache_put_tasks, Hrest. lia.
  - rewrite fetchPromise_eq.
    destruct (net ticket u) as [r|e]; [destruct (ok r)|]; cbn [snd].
    + change (tasks (with_tasks ?f ?x)) with (f (tasks x)). cbv beta.
      rewrite Hrest, fmap_app, sum_list_with_app. simpl. lia.
    + rewrite Hrest. lia.
    + rewrite Hrest. lia.
  - rewrite preloadWithFetch_settle_tasks, Hrest. lia.
Qed.

Lemma settle_done (fuel : nat) (w : World) :
  pending_weight w ≤ fuel → tasks (settle net fuel w) = [].
Proof.
  revert w. induction fuel as [|fuel IH]; intros w Hw.
  - simpl. unfold pending_weight in Hw.
    destruct (tasks w) as [|[] ts]; [done|simpl in Hw; lia..].
  - simpl. apply IH.
    destruct (tasks w) as [|t ts] eqn:Hts.
    + unfold complete. rewrite Hts. simpl. unfold pending_weight.
      rewrite Hts. simpl. lia.
    + assert (tasks w ≠ []) as Hne by (by rewrite Hts).
      pose proof (pending_weight_complete w Hne). lia.
Qed.

(** Letting the pending tasks complete, and the writes they start, leaves
    no task pending. *)
Lemma settle_all_done (w : World) : tasks (settle_all net w) = [].
Proof. apply settle_done. unfold pending_weight. lia. Qed.

End Pending.

(** ** Lifecycle *)

Lemma for_each_caches_delete (names : list string) (w : World) :
  (for_each names (λ name, caches_delete name) w).1 = Resolved ()
  ∧ (∀ n, storage (for_each names (λ name, caches_delete name) w).2 !! n
          = if decide (n ∈ names) then None else storage w !! n)
  ∧ trace (for_each names (λ name, caches_delete name) w).2 = trace w
  ∧ tasks (for_each names (λ name, caches_delete name) w).2 = tasks w.
Proof.
  revert w. induction names as [|name names IH]; intros w.
  - by repeat split.
  - change (for_each (name :: names) (λ name, caches_delete name) w)
      with (for_each names (λ name, caches_delete name)
                     (with_storage (delete name) w)).
    destruct (IH (with_storage (delete name) w)) as (Hres & Hst & Htr & Hts).
    repeat split; try done.
    intros n. rewrite Hst. simpl.
    destruct (decide (n = name)) as [->|Hne].
    + rewrite lookup_delete_eq.
      rewrite (decide_True (P := name ∈ name :: names))
        by (apply elem_of_cons; by left).
      by case_decide.
    + rewrite lookup_delete_ne by done.
      destruct (decide (n ∈ names)) as [Hin|Hin].
      * by rewrite decide_True by (apply elem_of_cons; by right).
      * rewrite decide_False; [done|].
        by intros [?|?]%elem_of_cons.
Qed.

Lemma elem_of_caches_keys (name : string) (w : World) :
  name ∈ (map_to_list (storage w)).*1 ↔ is_Some (storage w !! name).
Proof.
  rewrite list_elem_of_fmap. split.
  - intros ([n p] & -> & Hin). apply elem_of_map_to_list in Hin. by eexists.
  - intros [p Hp]. exists (name, p). split; [done|].
    by apply elem_of_map_to_list.
Qed.

(** C6: when the activate handler has completed, a partition name that is
    not one of the three names of the current version is no longer in the
    storage, the partitions of the current version are as they were, and
    the worker has claimed the open pages. *)
Theorem C6_activate_keeps_only_current_partitions (w : World) :
  let w' := (activate w).2 in
  (activate w).1 = Resolved ()
  ∧ (∀ name, name ∉ Object_values CACHE_NAMES → storage w' !! name = None)
  ∧ (∀ name, name ∈ Object_values CACHE_NAMES →
             storage w' !! name = storage w !! name)
  ∧ clients_claimed w' = true.
Proof.
  cbv zeta. unfold activate, bind, caches_keys.
  set (old := filter (λ name, name ∉ Object_values CACHE_NAMES)
                     (map_to_list (storage w)).*1).
  destruct (for_each_caches_delete old w) as (Hres & Hst & _ & _).
  destruct (for_each old (λ name, caches_delete name) w) as [[[]|e] w1];
    simpl in Hres; [|done].
  simpl in *. repeat split; try done.
  - intros name Hname. rewrite Hst. case_decide as Hin; [done|].
    destruct (storage w !! name) as [p|] eqn:E; [|done].
    exfalso. apply Hin. unfold old. apply list_elem_of_filter. split; [done|].
    apply elem_of_caches_keys. by eexists.
  - intros name Hname. rewrite Hst. case_decide as Hin; [|done].
    unfold old in Hin. by apply list_elem_of_filter in Hin as [Hnot _].
Qed.

Section Install.

Variable net : nat → URL → FetchOutcome.
Variable self_origin : string.
Variable base_path : string.

Local Abbreviation resolve := (resolve self_origin base_path).
Local Abbreviation precached := (precached net self_origin base_path).
Local Abbreviation model_trace := (model_trace net self_origin base_path).

(** The body of the model loop of install. *)
Local Abbreviation model_body cache :=
  (λ model : string,
     try_catch
       (let* response := fetch net (resolve model) in
        if ok response
        then cache_put cache (resolve model) response
        else ret ())
       (λ error, ret ())).

Lemma model_body_eq (cache model : string) (w : World) :
  model_body cache model w = (Resolved (), precached cache model w).
Proof.
  unfold try_catch, bind, fetch, bind, fetch_start, fetch_settle, precached.
  fold (next_ticket w).
  destruct (net (next_ticket w) (resolve model)) as [r|e]; [|done].
  destruct (ok r); [|done]. unfold cache_put.
  by destruct (partial_content r).
Qed.

Lemma model_loop_eq (cache : string) (assets : list string) (w : World) :
  for_each assets (model_body cache) w
  = (Resolved (), foldl (λ w model, precached cache model w) w assets).
Proof.
  revert w. induction assets as [|model rest IH]; intros w; [done|].
  cbn [for_each foldl]. unfold bind at 1. by rewrite model_body_eq, IH.
Qed.

Lemma next_ticket_log_fetch (u : URL) (w : World) :
  next_ticket (log (EvFetch u) w) = S (next_ticket w).
Proof.
  unfold next_ticket, log. simpl. rewrite fetches_app, length_app. simpl. lia.
Qed.

Lemma trace_put (c : string) (u : URL) (r : Response) (w : World) :
  trace (cache_put c u r w).2
  = trace w ++ (if partial_content r then [] else [EvPut c u]).
Proof.
  unfold cache_put. destruct (partial_content r); [|done].
  by rewrite app_nil_r.
Qed.

Lemma next_ticket_put (c : string) (u : URL) (r : Response) (w : World) :
  next_ticket (cache_put c u r w).2 = next_ticket w.
Proof.
  unfold next_ticket. rewrite trace_put, fetches_app.
  destruct (partial_content r); simpl; by rewrite app_nil_r.
Qed.

Lemma cache_put_flags (c : string) (u : URL) (r : Response) (w : World) :
  skipWaiting_called (cache_put c u r w).2 = skipWaiting_called w
  ∧ clients_claimed (cache_put c u r w).2 = clients_claimed w.
Proof. unfold cache_put. by destruct (partial_content r). Qed.

Lemma next_ticket_precached (cache model : string) (w : World) :
  next_ticket (precached cache model w) = S (next_ticket w).
Proof.
  unfold precached. cbv zeta.
  destruct (net _ _) as [r|e]; [destruct (ok r)|];
    rewrite ?next_ticket_put; apply next_ticket_log_fetch.
Qed.

Lemma trace_precached (cache model : string) (w : World) :
  trace (precached cache model w)
  = trace w ++ model_trace cache (next_ticket w) [model].
Proof.
  unfold precached. cbn [model_trace]. unfold fetched_storable, storable.
  cbv zeta.
  destruct (net _ _) as [r|e]; [destruct (ok r)|]; simpl; try done.
  rewrite trace_put. simpl.
  destruct (partial_content r); simpl; by rewrite <- app_assoc.
Qed.

Lemma model_trace_cons (cache : string) (n : nat) (model : string)
      (rest : list string) :
  model_trace cache n (model :: rest)
  = model_trace cache n [model] ++ model_trace cache (S n) rest.
Proof. simpl. by rewrite app_nil_r. Qed.

Lemma trace_model_loop (cache : string) (assets : list string) (w : World) :
  trace (foldl (λ w model, precached cache model w) w assets)
  = trace w ++ model_trace cache (next_ticket w) assets.
Proof.
  revert w. induction assets as [|model rest IH]; intros w.
  - simpl. by rewrite app_nil_r.
  - cbn [foldl]. rewrite IH, trace_precached, next_ticket_precached.
    rewrite (model_trace_cons _ _ model rest). by rewrite app_assoc.
Qed.

Lemma cached_in_put_other (c c' : string) (u u' : URL) (r : Response)
      (w : World) :
  c ≠ c' ∨ u ≠ u' →
  cached_in c' u' (cache_put c u r w).2 = cached_in c' u' w.
Proof.
  intros Hne. unfold cache_put. destruct (partial_content r); [done|].
  unfold cached_in, log, with_storage. simpl.
  destruct (decide (c = c')) as [->|Hc].
  - rewrite lookup_alter_eq. destruct (storage w !! c') as [p|]; [|done].
    simpl. rewrite lookup_insert_ne; [done|]. by destruct Hne.
  - by rewrite lookup_alter_ne.
Qed.

Lemma storage_put_is_Some (c c' : string) (u : URL) (r : Response) (w : World) :
  is_Some (storage (cache_put c u r w).2 !! c') ↔ is_Some (storage w !! c').
Proof.
  unfold cache_put. destruct (partial_content r); [done|].
  unfold log, with_storage. simpl.
  destruct (decide (c = c')) as [->|Hc].
  - rewrite lookup_alter_eq. by rewrite fmap_is_Some.
  - by rewrite lookup_alter_ne.
Qed.

Lemma storage_precached_is_Some (cache model c : string) (w : World) :
  is_Some (storage (precached cache model w) !! c) ↔ is_Some (storage w !! c).
Proof.
  unfold precached. cbv zeta.
  destruct (net _ _) as [r|e]; [destruct (ok r)|]; try done.
  by rewrite storage_put_is_Some.
Qed.

Lemma cached_in_precached (cache model : string) (w : World) :
  is_Some (storage w !! cache) →
  cached_in cache (resolve model) (precached cache model w)
  = after_precache net (next_ticket w) (resolve model)
                   (cached_in cache (resolve model) w).
Proof.
  intros Hp. unfold precached, after_precache, storable. cbv zeta.
  destruct (net _ _) as [r|e]; [destruct (ok r)|]; try done.
  destruct (partial_content r) eqn:Hpartial; cbn [andb negb].
  - by rewrite cache_put_refused by done.
  - by apply cached_in_put.
Qed.

Lemma cached_in_precached_other (cache model c : string) (u : URL) (w : World) :
  c ≠ cache ∨ u ≠ resolve model →
  cached_in c u (precached cache model w) = cached_in c u w.
Proof.
  intros Hne. unfold precached. cbv zeta.
  destruct (net _ _) as [r|e]; [destruct (ok r)|]; try done.
  rewrite cached_in_put_other; [done|].
  destruct Hne; [left | right]; done.
Qed.

Lemma model_loop_frame (cache : string) (assets : list string) (w : World) :
  let w' := foldl (λ w model, precached cache model w) w assets in
  tasks w' = tasks w
  ∧ skipWaiting_called w' = skipWaiting_called w
  ∧ clients_claimed w' = clients_claimed w
  ∧ (∀ c, is_Some (storage w' !! c) ↔ is_Some (storage w !! c))
  ∧ (∀ c u, c ≠ cache ∨ u ∉ resolve <$> assets →
            cached_in c u w' = cached_in c u w).
Proof.
  revert w. induction assets as [|model rest IH]; intros w; [done|].
  cbn [foldl]. cbv zeta.
  destruct (IH (precached cache model w)) as (Hts & Hsk & Hcl & Hdom & Hother).
  rewrite Hts, Hsk, Hcl. repeat split.
  - unfold precached. cbv zeta.
    destruct (net _ _) as [r|e]; [destruct (ok r)|];
      rewrite ?cache_put_tasks; done.
  - unfold precached. cbv zeta.
    destruct (net _ _) as [r|e]; [destruct (ok r)|];
      rewrite ?(proj1 (cache_put_flags _ _ _ _)); done.
  - unfold precached. cbv zeta.
    destruct (net _ _) as [r|e]; [destruct (ok r)|];
      rewrite ?(proj2 (cache_put_flags _ _ _ _)); done.
  - by rewrite Hdom, storage_precached_is_Some.
  - by rewrite Hdom, storage_precached_is_Some.
  - intros c u Hne. rewrite Hother.
    + apply cached_in_precached_other.
      destruct Hne as [?|Hne]; [by left | right].
      intros ->. apply Hne. rewrite fmap_cons. apply elem_of_cons. by left.
    + destruct Hne as [?|Hne]; [by left | right].
      intros Hin. apply Hne. rewrite fmap_cons. apply elem_of_cons. by right.
Qed.

Lemma cached_in_model_loop (cache : string) (assets : list string) (w : World)
      (i : nat) (model : string) :
  NoDup (resolve <$> assets) →
  is_Some (storage w !! cache) →
  assets !! i = Some model →
  cached_in cache (resolve model)
            (foldl (λ w model, precached cache model w) w assets)
  = after_precache net (next_ticket w + i) (resolve model)
                   (cached_in cache (resolve model) w).
Proof.
  revert w i. induction assets as [|head rest IH]; intros w i Hnd Hp Hi;
    [done|].
  rewrite fmap_cons in Hnd. apply NoDup_cons in Hnd as [Hhead Hnd].
  cbn [foldl]. destruct i as [|i]; simpl in Hi.
  - injection Hi as ->.
    destruct (model_loop_frame cache rest (precached cache model w))
      as (_ & _ & _ & _ & Hother).
    rewrite Hother by (by right).
    rewrite Nat.add_0_r. by apply cached_in_precached.
  - rewrite (IH _ i) by (by rewrite ?storage_precached_is_Some).
    rewrite next_ticket_precached.
    replace (S (next_ticket w) + i) with (next_ticket w + S i) by lia.
    f_equal. apply cached_in_precached_other. right.
    intros Heq. apply Hhead. rewrite <- Heq.
    apply list_elem_of_fmap. exists model. split; [done|].
    by eapply list_elem_of_lookup_2.
Qed.

(** *** The bulk store of the static assets *)

Lemma trace_log_all (es : list TraceEvent) (w : World) :
  trace (log_all es w) = trace w ++ es.
Proof. done. Qed.

Lemma log_all_nil (w : World) : log_all [] w = w.
Proof. unfold log_all. rewrite app_nil_r. apply world_eta. Qed.

Lemma log_all_cons (e : TraceEvent) (es : list TraceEvent) (w : World) :
  log_all es (log e w) = log_all (e :: es) w.
Proof. unfold log_all, log. simpl. by rewrite <- app_assoc. Qed.

Lemma map_M_fetch_start (requests : list URL) (w : World) :
  map_M (λ request,
         let* ticket := fetch_start request in ret (ticket, request))
        requests w
  = (Resolved (zip (seq (next_ticket w) (length requests)) requests),
     log_all (EvFetch <$> requests) w).
Proof.
  revert w. induction requests as [|u rest IH]; intros w.
  - simpl. unfold ret. by rewrite log_all_nil.
  - cbn [map_M]. unfold bind at 1 2. unfold fetch_start at 1.
    unfold ret at 1. unfold bind at 1. rewrite IH. unfold ret.
    rewrite next_ticket_log_fetch, log_all_cons. done.
Qed.

Lemma addAll_responses_storable (started : list (nat * URL))
      (rs : list (URL * Response)) :
  addAll_responses net started = Resolved rs →
  Forall (λ entry, storable entry.2 = true) rs.
Proof.
  revert rs. induction started as [|[n u] rest IH]; intros rs Hrs.
  - injection Hrs as <-. constructor.
  - cbn [addAll_responses] in Hrs.
    destruct (net n u) as [r|e]; [|done].
    destruct (storable r) eqn:Hr; [|done].
    destruct (addAll_responses net rest) as [rs'|e]; [|done].
    injection Hrs as <-. constructor; [done | by apply IH].
Qed.

Lemma addAll_responses_ok (n : nat) (requests : list URL) :
  batch_storable net n requests = true →
  ∃ rs, addAll_responses net (zip (seq n (length requests)) requests)
        = Resolved rs
        ∧ rs.*1 = requests
        ∧ ∀ i u, requests !! i = Some u →
                 ∃ r, rs !! i = Some (u, r)
                      ∧ net (n + i) u = NetResponse r ∧ storable r = true.
Proof.
  revert n. induction requests as [|u rest IH]; intros n Hok.
  - exists []. by repeat split.
  - cbn [batch_storable] in Hok. apply andb_true_iff in Hok as [Hu Hrest].
    destruct (IH _ Hrest) as (rs & Hrs & Hkeys & Hall).
    unfold fetched_storable in Hu.
    cbn [length seq zip zip_with addAll_responses].
    destruct (net n u) as [r|e] eqn:Hnet; [|done].
    rewrite Hu, Hrs. exists ((u, r) :: rs). repeat split.
    + rewrite fmap_cons. by f_equal.
    + intros [|i] v Hv; simpl in Hv.
      * injection Hv as <-. exists r. by rewrite Nat.add_0_r.
      * destruct (Hall i v Hv) as (r' & ? & ? & ?). exists r'.
        by replace (n + S i) with (S n + i) by lia.
Qed.

Lemma batch_storable_false (n : nat) (requests : list URL) (i : nat) (u : URL) :
  requests !! i = Some u → fetched_storable net (n + i) u = false →
  batch_storable net n requests = false.
Proof.
  revert n i. induction requests as [|v rest IH]; intros n i Hi Hbad; [done|].
  cbn [batch_storable]. destruct i as [|i]; simpl in Hi.
  - injection Hi as ->. rewrite Nat.add_0_r in Hbad. by rewrite Hbad.
  - apply andb_false_iff. right. apply (IH _ i); [done|].
    by replace (S n + i) with (n + S i) by lia.
Qed.

Lemma addAll_responses_fail (n : nat) (requests : list URL) :
  batch_storable net n requests = false →
  ∃ e, addAll_responses net (zip (seq n (length requests)) requests)
       = Rejected e.
Proof.
  revert n. induction requests as [|u rest IH]; intros n Hbad; [done|].
  cbn [batch_storable] in Hbad. cbn [length seq zip zip_with addAll_responses].
  unfold fetched_storable in Hbad.
  destruct (net n u) as [r|e]; [|by eexists].
  destruct (storable r); [|by eexists].
  destruct (IH _ Hbad) as [e ->]. by eexists.
Qed.

Lemma puts_loop_eq (cache : string) (rs : list (URL * Response)) (w : World) :
  Forall (λ entry, storable entry.2 = true) rs →
  for_each rs (λ entry, cache_put cache entry.1 entry.2) w
  = (Resolved (),
     foldl (λ w entry, (cache_put cache entry.1 entry.2 w).2) w rs).
Proof.
  revert w. induction rs as [|[u r] rest IH]; intros w Hrs; [done|].
  apply Forall_cons in Hrs as [[_ Hr]%storable_ok Hrs].
  cbn [for_each foldl fst snd] in *. unfold bind at 1.
  rewrite cache_put_taken by done. by rewrite IH.
Qed.

Lemma puts_loop_frame (cache : string) (rs : list (URL * Response)) (w : World) :
  Forall (λ entry, storable entry.2 = true) rs →
  let w' := foldl (λ w entry, (cache_put cache entry.1 entry.2 w).2) w rs in
  trace w' = trace w ++ (EvPut cache <$> rs.*1)
  ∧ tasks w' = tasks w
  ∧ skipWaiting_called w' = skipWaiting_called w
  ∧ clients_claimed w' = clients_claimed w
  ∧ (∀ c, is_Some (storage w' !! c) ↔ is_Some (storage w !! c))
  ∧ (∀ c u, c ≠ cache ∨ u ∉ rs.*1 → cached_in c u w' = cached_in c u w).
Proof.
  revert w. induction rs as [|[u r] rest IH]; intros w Hrs.
  - cbv zeta. simpl. by rewrite app_nil_r.
  - apply Forall_cons in Hrs as [[_ Hr]%storable_ok Hrs].
    cbn [foldl fst snd] in *. cbv zeta.
    destruct (IH (cache_put cache u r w).2 Hrs)
      as (Htr & Hts & Hsk & Hcl & Hdom & Hother).
    destruct (cache_put_flags cache u r w) as [Hsk1 Hcl1].
    rewrite Htr, Hts, Hsk, Hcl, trace_put, Hr, cache_put_tasks, Hsk1, Hcl1.
    repeat split; try done.
    + simpl. by rewrite <- app_assoc.
    + by rewrite Hdom, storage_put_is_Some.
    + by rewrite Hdom, storage_put_is_Some.
    + intros c v Hne. rewrite Hother.
      * apply cached_in_put_other.
        destruct Hne as [?|Hne]; [by left | right].
        intros ->. apply Hne. simpl. apply elem_of_cons. by left.
      * destruct Hne as [?|Hne]; [by left | right].
        intros Hin. apply Hne. simpl. apply elem_of_cons. by right.
Qed.

Lemma cached_in_puts_loop (cache : string) (rs : list (URL * Response))
      (w : World) (i : nat) (u : URL) (r : Response) :
  Forall (λ entry, storable entry.2 = true) rs →
  NoDup rs.*1 →
  is_Some (storage w !! cache) →
  rs !! i = Some (u, r) →
  cached_in cache u
            (foldl (λ w entry, (cache_put cache entry.1 entry.2 w).2) w rs)
  = Some r.
Proof.
  revert w i. induction rs as [|[v r'] rest IH]; intros w i Hrs Hnd Hp Hi;
    [done|].
  apply Forall_cons in Hrs as [[_ Hr]%storable_ok Hrs].
  rewrite fmap_cons in Hnd. apply NoDup_cons in Hnd as [Hhead Hnd].
  cbn [foldl fst snd] in *. destruct i as [|i]; simpl in Hi.
  - injection Hi as -> ->.
    destruct (puts_loop_frame cache rest (cache_put cache u r w).2 Hrs)
      as (_ & _ & _ & _ & _ & Hother).
    rewrite Hother by (by right). by apply cached_in_put.
  - apply (IH _ i); [done | done | by apply storage_put_is_Some | done].
Qed.

Lemma cache_addAll_eq (cache : string) (requests : list URL) (w : World) :
  cache_addAll net cache requests w =
  match addAll_responses net
          (zip (seq (next_ticket w) (length requests)) requests) with
  | Resolved rs =>
    (Resolved (),
     foldl (λ w entry, (cache_put cache entry.1 entry.2 w).2)
           (log_all (EvFetch <$> requests) w) rs)
  | Rejected e => (Rejected e, log_all (EvFetch <$> requests) w)
  end.
Proof.
  unfold cache_addAll. unfold bind at 1. rewrite map_M_fetch_start.
  unfold bind at 1.
  destruct (addAll_responses _ _) as [rs|e] eqn:Hrs; [|done].
  rewrite puts_loop_eq; [done|]. by eapply addAll_responses_storable.
Qed.

(** *** The manifests *)

Lemma append_inj_r (a b c : string) : a +:+ b = a +:+ c → b = c.
Proof.
  induction a as [|x a IH]; [done|].
  change (String x (a +:+ b) = String x (a +:+ c) → b = c).
  intros [=]. by apply IH.
Qed.

Lemma NoDup_resolve (paths : list string) :
  NoDup ((λ path, if String.prefix "./" path
                  then String.substring 2 (String.length path - 2) path
                  else path) <$> paths) →
  NoDup (resolve <$> paths).
Proof.
  intros Hnd.
  assert (Hinj : Inj (=) (=)
                     (λ rest, mkURL self_origin (base_path +:+ rest))).
  { intros a b [=]. by eapply append_inj_r. }
  apply (NoDup_fmap_2 _) in Hnd. by rewrite <- list_fmap_compose in Hnd.
Qed.

Lemma NoDup_models : NoDup (resolve <$> MODEL_ASSETS).
Proof. apply NoDup_resolve. apply (bool_decide_unpack _). by vm_compute. Qed.

Lemma NoDup_statics : NoDup (resolve <$> STATIC_ASSETS).
Proof. apply NoDup_resolve. apply (bool_decide_unpack _). by vm_compute. Qed.

Lemma models_ne_static : models CACHE_NAMES ≠ static CACHE_NAMES.
Proof. by intros [=]. Qed.

Lemma next_ticket_model_loop (cache : string) (assets : list string) (w : World) :
  next_ticket (foldl (λ w model, precached cache model w) w assets)
  = next_ticket w + length assets.
Proof.
  revert w. induction assets as [|model rest IH]; intros w; simpl; [lia|].
  rewrite IH, next_ticket_precached. lia.
Qed.

Lemma install_eq (w : World) :
  install net self_origin base_path w =
  let w1 := (caches_open (models CACHE_NAMES) w).2 in
  let w2 := foldl (λ w model, precached (models CACHE_NAMES) model w)
                  w1 MODEL_ASSETS in
  let w3 := (caches_open (static CACHE_NAMES) w2).2 in
  match cache_addAll net (static CACHE_NAMES) (resolve <$> STATIC_ASSETS) w3 with
  | (Resolved _, w4) => skipWaiting w4
  | (Rejected e, w4) => (Rejected e, w4)
  end.
Proof.
  unfold install. unfold bind at 1. rewrite caches_open_eq.
  unfold bind at 1. rewrite model_loop_eq.
  unfold bind at 1. rewrite caches_open_eq.
  unfold bind at 1. done.
Qed.

(** C7: install fetches and stores the model assets one after the other in
    the order of the manifest, each fetch followed by its write before the
    next asset is fetched, and only then starts the bulk store of the
    static assets.  A model asset whose fetch is rejected, whose response
    is not ok, or whose write fails (a partial response, status 206, is ok
    but the cache refuses it) is skipped: a lookup of it finds what it
    found before.  Whatever happens to the model assets, install completes
    and calls skipWaiting when every static asset is fetched ok and taken
    by the cache.  When one static asset fails (its fetch is rejected, its
    response is not ok or is partial), install is rejected: skipWaiting is
    not called and no static asset is stored. *)
Theorem C7_install_models_tolerated_static_batch_fatal (w : World) :
  let n0 := next_ticket w in
  let n1 := n0 + length MODEL_ASSETS in
  let statics := resolve <$> STATIC_ASSETS in
  let res := (install net self_origin base_path w).1 in
  let w' := (install net self_origin base_path w).2 in
  trace w' = trace w
             ++ model_trace (models CACHE_NAMES) n0 MODEL_ASSETS
             ++ (EvFetch <$> statics)
             ++ (if batch_storable net n1 statics
                 then EvPut (static CACHE_NAMES) <$> statics
                 else [])
  ∧ (∀ i model,
       MODEL_ASSETS !! i = Some model →
       cached_in (models CACHE_NAMES) (resolve model) w'
       = after_precache net (n0 + i) (resolve model)
           (cached_in (models CACHE_NAMES) (resolve model) w))
  ∧ (batch_storable net n1 statics = true →
       res = Resolved ()
       ∧ skipWaiting_called w' = true
       ∧ ∀ i asset,
           STATIC_ASSETS !! i = Some asset →
           ∃ r, net (n1 + i) (resolve asset) = NetResponse r
                ∧ cached_in (static CACHE_NAMES) (resolve asset) w' = Some r)
  ∧ (∀ i asset,
       STATIC_ASSETS !! i = Some asset →
       fetched_storable net (n1 + i) (resolve asset) = false →
       (∃ e, res = Rejected e)
       ∧ skipWaiting_called w' = skipWaiting_called w
       ∧ ∀ u, cached_in (static CACHE_NAMES) u w'
              = cached_in (static CACHE_NAMES) u w).
Proof.
  cbv zeta. rewrite install_eq. cbv zeta.
  set (w1 := (caches_open (models CACHE_NAMES) w).2).
  set (w2 := foldl (λ w model, precached (models CACHE_NAMES) model w)
                   w1 MODEL_ASSETS).
  set (w3 := (caches_open (static CACHE_NAMES) w2).2).
  destruct (model_loop_frame (models CACHE_NAMES) MODEL_ASSETS w1)
    as (Hts2 & Hsk2 & Hcl2 & Hdom2 & Hother2). fold w2 in Hts2, Hsk2, Hcl2, Hdom2, Hother2.
  assert (Hn3 : next_ticket w3 = next_ticket w + length MODEL_ASSETS).
  { unfold w3, next_ticket. rewrite caches_open_trace. fold (next_ticket w2).
    unfold w2. by rewrite next_ticket_model_loop. }
  assert (Htr3 : trace w3 = trace w ++ model_trace (models CACHE_NAMES)
                                          (next_ticket w) MODEL_ASSETS).
  { unfold w3. rewrite caches_open_trace. unfold w2.
    by rewrite trace_model_loop. }
  assert (Hmodels3 : ∀ i model,
             MODEL_ASSETS !! i = Some model →
             cached_in (models CACHE_NAMES) (resolve model) w3
             = after_precache net (next_ticket w + i) (resolve model)
                 (cached_in (models CACHE_NAMES) (resolve model) w)).
  { intros i model Hi. unfold w3. rewrite cached_in_open. unfold w2.
    rewrite (cached_in_model_loop _ _ _ i)
      by first [done | apply NoDup_models | apply caches_open_storage].
    unfold w1. by rewrite cached_in_open. }
  assert (Hstatic3 : ∀ u, cached_in (static CACHE_NAMES) u w3
                          = cached_in (static CACHE_NAMES) u w).
  { intros u. unfold w3. rewrite cached_in_open.
    rewrite Hother2 by (left; by intros [=]).
    unfold w1. by rewrite cached_in_open. }
  assert (Hsk3 : skipWaiting_called w3 = skipWaiting_called w) by done.
  assert (Hsome3 : is_Some (storage w3 !! static CACHE_NAMES))
    by apply caches_open_storage.
  clearbody w3. clear Hts2 Hsk2 Hcl2 Hdom2 Hother2. clearbody w2. clear w1.
  rewrite cache_addAll_eq, Hn3. rewrite length_fmap.
  destruct (batch_storable net (next_ticket w + length MODEL_ASSETS)
                     (resolve <$> STATIC_ASSETS)) eqn:Hbatch.
  - destruct (addAll_responses_ok _ _ Hbatch) as (rs & Hrs & Hkeys & Hall).
    rewrite length_fmap in Hrs. rewrite Hrs.
    pose proof (addAll_responses_storable _ _ Hrs) as Hstorable.
    set (w3' := log_all (EvFetch <$> (resolve <$> STATIC_ASSETS)) w3).
    destruct (puts_loop_frame (static CACHE_NAMES) rs w3' Hstorable)
      as (Htr4 & Hts4 & Hsk4 & Hcl4 & Hdom4 & Hother4).
    unfold skipWaiting. cbn [fst snd trace storage skipWaiting_called].
    change (cached_in ?c ?u (mkWorld (storage ?x) _ _ _ _))
      with (cached_in c u x).
    split; [|split; [|split]].
    + rewrite Htr4, Hkeys. unfold w3'. rewrite trace_log_all, Htr3.
      by rewrite <- !app_assoc.
    + intros i model Hi. rewrite <- (Hmodels3 i model Hi).
      apply Hother4. left. by intros [=].
    + intros _. split; [done|]. split; [done|]. intros i asset Hi.
      destruct (Hall i (resolve asset)) as (r & Hr & Hnet & Hok).
      { by rewrite list_lookup_fmap, Hi. }
      exists r. split; [done|].
      apply (cached_in_puts_loop _ _ _ i); [done | |done..].
      rewrite Hkeys. apply NoDup_statics.
    + intros i asset Hi Hbad. exfalso.
      rewrite (batch_storable_false _ _ i (resolve asset)) in Hbatch; [done| |done].
      by rewrite list_lookup_fmap, Hi.
  - destruct (addAll_responses_fail _ _ Hbatch) as [e He].
    rewrite length_fmap in He. rewrite He.
    cbn [fst snd]. split; [|split; [|split]].
    + rewrite trace_log_all, Htr3. by rewrite app_nil_r, <- app_assoc.
    + done.
    + done.
    + intros i asset Hi Hbad. split; [by eexists|]. by split.
Qed.

End Install.

(** ** Safe worlds stay safe *)

Section SafetyRules.

Variable net : nat → URL → FetchOutcome.
Variable P : string → URL → Response → Prop.

Variable self_origin : string.
Variable base_path : string.

Local Abbreviation safe := (safe net P).
Local Abbreviation keeps := (keeps net P).
Local Abbreviation brings := (brings net P).
Local Abbreviation task_safe := (task_safe net P).
Local Abbreviation resolve := (resolve self_origin base_path).

Lemma keeps_ret {A} (a : A) (Q : A → Prop) : Q a → keeps (ret a) Q.
Proof. by intros Ha w Hw. Qed.

Lemma keeps_throw {A} (e : string) (Q : A → Prop) : keeps (throw e) Q.
Proof. by intros w Hw. Qed.

Lemma keeps_bind {A B} (m : M A) (k : A → M B) (Q1 : A → Prop) (Q2 : B → Prop) :
  keeps m Q1 → (∀ a, Q1 a → keeps (k a) Q2) → keeps (bind m k) Q2.
Proof.
  intros Hm Hk w Hw. unfold bind. destruct (Hm w Hw) as [Hsafe Hres].
  destruct (m w) as [[a|e] w1]; simpl in *; [|done].
  by apply Hk.
Qed.

Lemma keeps_try_catch {A} (m : M A) (h : string → M A) (Q : A → Prop) :
  keeps m Q → (∀ e, keeps (h e) Q) → keeps (try_catch m h) Q.
Proof.
  intros Hm Hh w Hw. unfold try_catch. destruct (Hm w Hw) as [Hsafe Hres].
  destruct (m w) as [[a|e] w1]; simpl in *; [done|].
  by apply Hh.
Qed.

Lemma keeps_weaken {A} (m : M A) (Q Q' : A → Prop) :
  keeps m Q → (∀ a, Q a → Q' a) → keeps m Q'.
Proof.
  intros Hm HQ w Hw. destruct (Hm w Hw) as [Hsafe Hres]. split; [done|].
  destruct (m w).1; [by apply HQ | done].
Qed.

Lemma keeps_for_each {A} (xs : list A) (body : A → M unit) :
  (∀ x, x ∈ xs → keeps (body x) (λ _, True)) →
  keeps (for_each xs body) (λ _, True).
Proof.
  induction xs as [|x xs IH]; intros Hbody; [by apply keeps_ret|].
  cbn [for_each]. eapply keeps_bind.
  - apply Hbody. apply elem_of_cons. by left.
  - intros _ _. apply IH. intros y Hy. apply Hbody. apply elem_of_cons.
    by right.
Qed.

Lemma keeps_map_M {A B} (f : A → M B) (xs : list A) (Q : B → Prop) :
  (∀ x, x ∈ xs → keeps (f x) Q) → keeps (map_M f xs) (Forall Q).
Proof.
  induction xs as [|x xs IH]; intros Hf; [by apply keeps_ret|].
  cbn [map_M]. eapply keeps_bind.
  - apply Hf. apply elem_of_cons. by left.
  - intros y Hy. eapply keeps_bind.
    + apply IH. intros z Hz. apply Hf. apply elem_of_cons. by right.
    + intros ys Hys. apply keeps_ret. by constructor.
Qed.

(** *** The primitives *)

Lemma keeps_caches_open (cacheName : string) :
  keeps (caches_open cacheName) (λ cache, cache = cacheName).
Proof.
  intros w [Hst Hts]. split; [|done]. split; [|done].
  intros c u r. rewrite cached_in_open. apply Hst.
Qed.

Lemma keeps_caches_keys : keeps caches_keys (λ _, True).
Proof. by intros w Hw. Qed.

Lemma keeps_caches_delete (cacheName : string) :
  keeps (caches_delete cacheName) (λ _, True).
Proof.
  intros w [Hst Hts]. split; [|done]. split; [|done].
  intros c u r. unfold cached_in, caches_delete, with_storage. simpl.
  destruct (decide (cacheName = c)) as [->|Hne].
  - by rewrite lookup_delete_eq.
  - rewrite lookup_delete_ne by done. apply Hst.
Qed.

Lemma keeps_cache_match (cache : string) (request : URL) :
  keeps (cache_match cache request) (λ _, True).
Proof. by intros w Hw. Qed.

Lemma keeps_cache_keys (cache : string) :
  keeps (cache_keys cache) (λ _, True).
Proof. by intros w Hw. Qed.

Lemma cached_in_put_inv (c c' : string) (u u' : URL) (r r' : Response)
      (w : World) :
  cached_in c' u' (cache_put c u r w).2 = Some r' →
  (c' = c ∧ u' = u ∧ r' = r) ∨ cached_in c' u' w = Some r'.
Proof.
  destruct (partial_content r) eqn:Hr.
  { rewrite cache_put_refused by done. by right. }
  destruct (decide (c = c' ∧ u = u')) as [[-> ->]|Hne].
  - destruct (storage w !! c') as [p|] eqn:E.
    + rewrite cached_in_put by (done || by eexists). intros [= ->]. by left.
    + rewrite cache_put_taken by done.
      unfold cached_in, log, with_storage. simpl.
      by rewrite lookup_alter_eq, E.
  - rewrite cached_in_put_other; [by right|].
    destruct (decide (c = c')) as [->|?]; [right | by left].
    intros ->. by apply Hne.
Qed.

Lemma keeps_cache_put (cache : string) (request : URL) (response : Response) :
  P cache request response →
  keeps (cache_put cache request response) (λ _, True).
Proof.
  intros HP w [Hst Hts]. split; [|by destruct (cache_put _ _ _ _).1].
  split; [|by rewrite cache_put_tasks].
  intros c u r [(-> & -> & ->)|Hold]%cached_in_put_inv; [done|].
  by apply Hst.
Qed.

Lemma keeps_cache_put_detached (cache : string) (request : URL)
      (response : Response) :
  P cache request response →
  keeps (cache_put_detached cache request response) (λ _, True).
Proof.
  intros HP w [Hst Hts]. split; [|done]. split; [done|].
  unfold cache_put_detached, with_tasks. simpl.
  apply Forall_app. split; [done|]. by constructor.
Qed.

Lemma keeps_spawn (t : Task) : task_safe t → keeps (spawn t) (λ _, True).
Proof.
  intros Ht w [Hst Hts]. split; [|done]. split; [done|].
  unfold spawn, with_tasks. simpl.
  apply Forall_app. split; [done|]. by constructor.
Qed.

Lemma keeps_fetch_start (request : URL) :
  keeps (fetch_start request) (λ _, True).
Proof. by intros w Hw. Qed.

Lemma keeps_fetch_settle (ticket : nat) (request : URL) :
  keeps (fetch_settle net ticket request)
        (λ r, net ticket request = NetResponse r).
Proof.
  intros w Hw. unfold fetch_settle.
  by destruct (net ticket request) as [r|e].
Qed.

Lemma keeps_fetch (request : URL) :
  keeps (fetch net request) (λ r, ∃ n, net n request = NetResponse r).
Proof.
  unfold fetch. eapply keeps_bind; [apply keeps_fetch_start|].
  intros ticket _. eapply keeps_weaken; [apply keeps_fetch_settle|].
  intros r Hr. by exists ticket.
Qed.

Lemma keeps_skipWaiting : keeps skipWaiting (λ _, True).
Proof. by intros w Hw. Qed.

Lemma keeps_clients_claim : keeps clients_claim (λ _, True).
Proof. by intros w Hw. Qed.

(** *** The strategies and the listeners *)

Lemma keeps_store_detached (cache : string) (request : URL) (r : Response) :
  brings cache request → (∃ n, net n request = NetResponse r) →
  keeps (if ok r then cache_put_detached cache request r else ret ())
        (λ _, True).
Proof.
  intros Hb [n Hn]. destruct (ok r) eqn:Hok; [|by apply keeps_ret].
  apply keeps_cache_put_detached. by eapply Hb.
Qed.

Lemma keeps_store (cache : string) (request : URL) (r : Response) :
  brings cache request → (∃ n, net n request = NetResponse r) →
  keeps (if ok r then cache_put cache request r else ret ()) (λ _, True).
Proof.
  intros Hb [n Hn]. destruct (ok r) eqn:Hok; [|by apply keeps_ret].
  apply keeps_cache_put. by eapply Hb.
Qed.

Lemma keeps_cacheFirst (request : URL) (cacheName : string) :
  brings cacheName request →
  keeps (cacheFirst net request cacheName) (λ _, True).
Proof.
  intros Hb. unfold cacheFirst.
  eapply keeps_bind; [apply keeps_caches_open|]. intros cache ->.
  eapply keeps_bind; [apply keeps_cache_match|].
  intros [cached|] _; [by apply keeps_ret|].
  eapply keeps_bind; [apply keeps_fetch|]. intros r Hr.
  eapply keeps_bind; [by apply keeps_store_detached|].
  intros _ _. by apply keeps_ret.
Qed.

Lemma keeps_fetchPromise (cache : string) (request : URL)
      (cachedResponse : option Response) (ticket : nat) :
  brings cache request →
  keeps (fetchPromise net cache request cachedResponse ticket) (λ _, True).
Proof.
  intros Hb. unfold fetchPromise. apply keeps_try_catch.
  - eapply keeps_bind; [apply keeps_fetch_settle|]. intros r Hr.
    eapply keeps_bind; [apply keeps_store_detached; [done | by exists ticket]|].
    intros _ _. by apply keeps_ret.
  - intros _. by apply keeps_ret.
Qed.

Lemma keeps_staleWhileRevalidate (request : URL) (cacheName : string) :
  brings cacheName request →
  keeps (staleWhileRevalidate net request cacheName) (λ _, True).
Proof.
  intros Hb. unfold staleWhileRevalidate.
  eapply keeps_bind; [apply keeps_caches_open|]. intros cache ->.
  eapply keeps_bind; [apply keeps_cache_match|]. intros cachedResponse _.
  eapply keeps_bind; [apply keeps_fetch_start|]. intros ticket _.
  destruct cachedResponse as [cached|].
  - eapply keeps_bind; [by apply keeps_spawn|].
    intros _ _. by apply keeps_ret.
  - by apply keeps_fetchPromise.
Qed.

Lemma keeps_networkFirst (request : URL) (cacheName : string) :
  brings cacheName request →
  keeps (networkFirst net request cacheName) (λ _, True).
Proof.
  intros Hb. unfold networkFirst.
  eapply keeps_bind; [apply keeps_caches_open|]. intros cache ->.
  apply keeps_try_catch.
  - eapply keeps_bind; [apply keeps_fetch|]. intros r Hr.
    eapply keeps_bind; [by apply keeps_store_detached|].
    intros _ _. by apply keeps_ret.
  - intros error. eapply keeps_bind; [apply keeps_cache_match|].
    intros [cached|] _; [by apply keeps_ret | apply keeps_throw].
Qed.

Lemma respondWith_world {A} (wrap : A → option Response) (m : M A) (w : World) :
  (respondWith wrap m w).2 = (m w).2.
Proof. unfold respondWith. by destruct (m w) as [[a|e] w1]. Qed.

Lemma safe_onfetch (request : URL) (w : World) :
  fetch_safe net self_origin P request → safe w →
  safe (onfetch net self_origin request w).2.
Proof.
  intros Hfs Hw. unfold onfetch.
  case_bool_decide as Ho; [done|].
  assert (Ho' : origin request = self_origin).
  { destruct (decide (origin request = self_origin)); [done|]. by destruct Ho. }
  destruct (Hfs Ho') as (Hm & Hs & Hd).
  destruct (endsWith (pathname request) ".glb"
            || endsWith (pathname request) ".gltf") eqn:Em.
  { rewrite respondWith_world. apply keeps_cacheFirst; [|done].
    apply Hm. by apply model_class_endsWith. }
  destruct (match_static (pathname request)) eqn:Es.
  { rewrite respondWith_world. apply keeps_staleWhileRevalidate; [|done].
    apply Hs. by apply match_static_class. }
  destruct (endsWith (pathname request) ".html"
            || String.eqb (pathname request) "/") eqn:Ed; [|done].
  rewrite respondWith_world. apply keeps_networkFirst; [|done].
  apply Hd. by apply document_class_endsWith.
Qed.

(** *** Lifecycle, control channel, preloader *)

Lemma addAll_responses_safe (cache : string) (started : list (nat * URL))
      (rs : list (URL * Response)) :
  Forall (λ tu, brings cache tu.2) started →
  addAll_responses net started = Resolved rs →
  Forall (λ entry, P cache entry.1 entry.2) rs.
Proof.
  revert rs. induction started as [|[n u] rest IH]; intros rs Hall Hrs.
  - injection Hrs as <-. constructor.
  - apply Forall_cons in Hall as [Hu Hall]. cbn [addAll_responses] in Hrs.
    destruct (net n u) as [r|e] eqn:Hnet; [|done].
    destruct (storable r) eqn:Hr; [|done].
    apply storable_ok in Hr as [Hok _].
    destruct (addAll_responses net rest) as [rs'|e]; [|done].
    injection Hrs as <-. constructor.
    + by eapply Hu.
    + by apply IH.
Qed.

Lemma keeps_cache_addAll (cache : string) (requests : list URL) :
  (∀ u, u ∈ requests → brings cache u) →
  keeps (cache_addAll net cache requests) (λ _, True).
Proof.
  intros Hb. unfold cache_addAll.
  eapply keeps_bind.
  { apply (keeps_map_M _ _ (λ tu, brings cache tu.2)).
    intros u Hu. eapply keeps_bind; [apply keeps_fetch_start|].
    intros ticket _. apply keeps_ret. by apply Hb. }
  intros started Hstarted.
  eapply (keeps_bind _ _ (Forall (λ entry, P cache entry.1 entry.2))).
  { intros w Hw. split; [done|]. cbn [fst].
    destruct (addAll_responses net started) as [rs|e] eqn:Hrs; [|done].
    by eapply addAll_responses_safe. }
  intros rs Hrs. apply keeps_for_each.
  intros entry Hentry. apply keeps_cache_put.
  rewrite Forall_forall in Hrs. by apply Hrs.
Qed.

Lemma keeps_install :
  manifests_safe net self_origin base_path P →
  keeps (install net self_origin base_path) (λ _, True).
Proof.
  intros (Hmodels & Hstatics & _). unfold install.
  eapply keeps_bind; [apply keeps_caches_open|]. intros modelCache ->.
  eapply keeps_bind.
  { apply keeps_for_each. intros model Hmodel. apply keeps_try_catch.
    - eapply keeps_bind; [apply keeps_fetch|]. intros r Hr.
      apply keeps_store; [by apply Hmodels | done].
    - intros _. by apply keeps_ret. }
  intros _ _.
  eapply keeps_bind; [apply keeps_caches_open|]. intros staticCache ->.
  eapply keeps_bind; [|intros _ _; apply keeps_skipWaiting].
  apply keeps_cache_addAll.
  intros u (asset & -> & Hasset)%list_elem_of_fmap. by apply Hstatics.
Qed.

Lemma keeps_activate : keeps activate (λ _, True).
Proof.
  unfold activate.
  eapply keeps_bind; [apply keeps_caches_keys|]. intros cacheNames _.
  eapply keeps_bind; [|intros _ _; apply keeps_clients_claim].
  apply keeps_for_each. intros name _. apply keeps_caches_delete.
Qed.

Lemma keeps_getCacheStatus : keeps getCacheStatus (λ _, True).
Proof.
  unfold getCacheStatus.
  eapply keeps_bind; [apply keeps_caches_open|]. intros modelCache ->.
  eapply keeps_bind; [apply keeps_cache_keys|]. intros modelKeys _.
  by apply keeps_ret.
Qed.

Lemma keeps_clearAllCaches : keeps clearAllCaches (λ _, True).
Proof.
  unfold clearAllCaches.
  eapply keeps_bind; [apply keeps_caches_keys|]. intros cacheNames _.
  apply keeps_for_each. intros name _. apply keeps_caches_delete.
Qed.

Lemma keeps_preloadModels :
  manifests_safe net self_origin base_path P →
  keeps (preloadModels net self_origin base_path) (λ _, True).
Proof.
  intros (Hmodels & _ & _). unfold preloadModels.
  eapply keeps_bind; [apply keeps_caches_open|]. intros cache ->.
  apply keeps_for_each. intros model Hmodel.
  eapply keeps_bind; [apply keeps_cache_match|].
  intros [cached|] _; [by apply keeps_ret|].
  apply keeps_try_catch.
  - eapply keeps_bind; [apply keeps_fetch|]. intros r Hr.
    apply keeps_store; [by apply Hmodels | done].
  - intros _. by apply keeps_ret.
Qed.

Lemma then_post_world {A} (m : M A) (reply : A → Reply) (w : World) :
  (then_post m reply w).2 = (m w).2.
Proof. unfold then_post. by destruct (m w) as [[a|e] w1]. Qed.

Lemma safe_onmessage (data : MessageData) (w : World) :
  manifests_safe net self_origin base_path P → safe w →
  safe (onmessage net self_origin base_path data w).2.
Proof.
  intros Hman Hw. unfold onmessage.
  destruct (String.eqb (type data) "CACHE_STATUS").
  { rewrite then_post_world. by apply keeps_getCacheStatus. }
  destruct (String.eqb (type data) "CLEAR_CACHE").
  { rewrite then_post_world. by apply keeps_clearAllCaches. }
  destruct (String.eqb (type data) "PRELOAD_MODELS"); [|done].
  rewrite then_post_world. by apply keeps_preloadModels.
Qed.

Lemma keeps_preloadWithFetch_settle (ticket : nat) (url : URL) (cache : string) :
  brings cache url →
  keeps (preloadWithFetch_settle net ticket url cache) (λ _, True).
Proof.
  intros Hb. unfold preloadWithFetch_settle. apply keeps_try_catch.
  - eapply keeps_bind; [apply keeps_fetch_settle|]. intros r Hr.
    apply keeps_store; [done | by exists ticket].
  - intros _. by apply keeps_ret.
Qed.

Lemma keeps_preloadWithFetch_start (url : URL) (cache : string) :
  brings cache url →
  keeps (preloadWithFetch_start url cache) (λ _, True).
Proof.
  intros Hb. unfold preloadWithFetch_start.
  eapply keeps_bind; [apply keeps_fetch_start|].
  intros ticket _. by apply keeps_spawn.
Qed.

Lemma keeps_preloadAllModels_callback (cache : string) (url : URL) :
  brings cache url →
  keeps (preloadAllModels_callback cache url) (λ _, True).
Proof.
  intros Hb. unfold preloadAllModels_callback.
  eapply keeps_bind; [apply keeps_cache_match|].
  intros [cached|] _; [by apply keeps_ret|].
  by apply keeps_preloadWithFetch_start.
Qed.

Lemma keeps_ensureAllCached_next (cache : string) (urls : list URL) :
  Forall (brings cache) urls →
  keeps (ensureAllCached_next cache urls) (λ _, True).
Proof.
  intros Hurls. destruct urls as [|url rest]; [by apply keeps_ret|].
  apply Forall_cons in Hurls as [Hurl Hrest]. by apply keeps_spawn.
Qed.

Lemma keeps_ensureAllCached_round (cache : string) (url : URL)
      (rest : list URL) :
  brings cache url → Forall (brings cache) rest →
  keeps (ensureAllCached_round cache url rest) (λ _, True).
Proof.
  intros Hb Hrest. unfold ensureAllCached_round.
  eapply keeps_bind; [apply keeps_cache_match|]. intros cached _.
  apply (keeps_bind _ _ (λ _, True));
    [|intros _ _; by apply keeps_ensureAllCached_next].
  destruct cached; [by apply keeps_ret|].
  by apply keeps_preloadWithFetch_start.
Qed.

Lemma keeps_preloadAllModels (caches_in_window : bool) :
  manifests_safe net self_origin base_path P →
  keeps (preloadAllModels self_origin base_path caches_in_window)
        (λ _, True).
Proof.
  intros (_ & _ & Hpage). unfold preloadAllModels.
  destruct caches_in_window; cbn [negb]; [|by apply keeps_ret].
  apply keeps_try_catch; [|intros _; by apply keeps_ret].
  eapply keeps_bind; [apply keeps_caches_open|]. intros cache ->.
  apply keeps_for_each. intros model Hmodel.
  apply keeps_spawn. by apply Hpage.
Qed.

Lemma keeps_ensureAllCached (caches_in_window : bool) :
  manifests_safe net self_origin base_path P →
  keeps (ensureAllCached self_origin base_path caches_in_window) (λ _, True).
Proof.
  intros (_ & _ & Hpage). unfold ensureAllCached.
  destruct caches_in_window; cbn [negb]; [|by apply keeps_ret].
  eapply keeps_bind; [apply keeps_caches_open|]. intros cache ->.
  apply keeps_ensureAllCached_next.
  apply Forall_fmap, Forall_forall. intros model Hmodel. by apply Hpage.
Qed.

(** *** Tasks and events *)

Lemma safe_run_task (t : Task) (w : World) :
  task_safe t → safe w → safe (run_task net t w).
Proof.
  intros Ht Hw.
  destruct t as [c u r|ticket c u cr|ticket c u|c u|c u rest]; simpl in *.
  - by apply keeps_cache_put.
  - by apply keeps_fetchPromise.
  - by apply keeps_preloadWithFetch_settle.
  - by apply keeps_preloadAllModels_callback.
  - destruct Ht as [Hu Hrest]. by apply keeps_ensureAllCached_round.
Qed.

Lemma safe_complete (i : nat) (w : World) :
  safe w → safe (complete net i w).
Proof.
  intros [Hst Hts]. unfold complete.
  destruct (tasks w !! i) as [t|] eqn:Hi; [|done].
  apply safe_run_task.
  - rewrite Forall_forall in Hts. apply Hts.
    by eapply list_elem_of_lookup_2.
  - split; [done|]. unfold with_tasks. simpl.
    apply Forall_forall. intros t' Ht'.
    rewrite Forall_forall in Hts. apply Hts.
    by eapply list_elem_of_delete_inv.
Qed.

Lemma safe_run_event (ev : Event) (w : World) :
  manifests_safe net self_origin base_path P →
  event_safe net self_origin P ev →
  safe w → safe (run_event net self_origin base_path ev w).
Proof.
  intros Hman Hev Hw. destruct ev; simpl.
  - by apply keeps_install.
  - by apply keeps_activate.
  - by apply safe_onfetch.
  - by apply safe_onmessage.
  - by apply keeps_preloadAllModels.
  - by apply keeps_ensureAllCached.
  - by apply safe_complete.
Qed.

Lemma safe_run_events (evs : list Event) (w : World) :
  manifests_safe net self_origin base_path P →
  Forall (event_safe net self_origin P) evs →
  safe w → safe (run_events net self_origin base_path evs w).
Proof.
  intros Hman. revert w. induction evs as [|ev evs IH]; intros w Hevs Hw;
    [done|].
  apply Forall_cons in Hevs as [Hev Hevs].
  cbn [run_events foldl]. apply IH; [done|]. by apply safe_run_event.
Qed.

Lemma safe_initial_world : safe initial_world.
Proof.
  split; [|constructor]. intros c u r. unfold cached_in. simpl.
  by rewrite lookup_empty.
Qed.

End SafetyRules.

(** ** What the partitions hold *)

Section Partitions.

Variable net : nat → URL → FetchOutcome.
Variable self_origin : string.
Variable base_path : string.

Local Abbreviation resolve := (resolve self_origin base_path).
Local Abbreviation run_events := (run_events net self_origin base_path).

Lemma manifests_from_ok_response :
  manifests_safe net self_origin base_path (from_ok_response net).
Proof.
  split; [|split]; intros x _ n r Hnet Hok; (split; [done | by exists n]).
Qed.

Lemma events_from_ok_response (evs : list Event) :
  Forall (event_safe net self_origin (from_ok_response net)) evs.
Proof.
  apply Forall_forall. intros [] _; try done.
  intros _. split; [|split]; intros _ n r Hnet Hok;
    (split; [done | by exists n]).
Qed.

(** C10: in every world that the events of the system can reach from the
    empty storage (installs, activations, intercepted requests, control
    messages, runs of the page-side preloader, completions of pending
    tasks, in any order), every entry of every partition is an ok response
    that the network gave for the request of the entry, and so is every
    write that is still pending.  A response that is not ok is returned by
    each strategy to its caller as it is, and the call leaves no entry and
    no pending write behind. *)
Theorem C10_only_ok_responses_are_stored (evs : list Event) :
  let w := run_events evs initial_world in
  (∀ c u r, cached_in c u w = Some r →
            ok r = true ∧ ∃ n, net n u = NetResponse r)
  ∧ (∀ c u r, TPut c u r ∈ tasks w →
              ok r = true ∧ ∃ n, net n u = NetResponse r)
  ∧ (∀ (w0 : World) request cacheName r,
       net (next_ticket w0) request = NetResponse r → ok r = false →
       let unchanged (w1 : World) :=
         tasks w1 = tasks w0
         ∧ ∀ c u, cached_in c u w1 = cached_in c u w0 in
       (cached_in cacheName request w0 = None →
        (cacheFirst net request cacheName w0).1 = Resolved r
        ∧ unchanged (cacheFirst net request cacheName w0).2)
       ∧ (cached_in cacheName request w0 = None →
          (staleWhileRevalidate net request cacheName w0).1
          = Resolved (Some r)
          ∧ unchanged (staleWhileRevalidate net request cacheName w0).2)
       ∧ ((networkFirst net request cacheName w0).1 = Resolved r
          ∧ unchanged (networkFirst net request cacheName w0).2)).
Proof.
  cbv zeta.
  destruct (safe_run_events net (from_ok_response net) self_origin base_path
              evs initial_world manifests_from_ok_response
              (events_from_ok_response evs)
              (safe_initial_world net (from_ok_response net)))
    as [Hst Hts].
  split; [exact Hst|]. split.
  - intros c u r Hin. rewrite Forall_forall in Hts. apply (Hts _ Hin).
  - intros w0 request cacheName r Hnet Hok. split; [|split].
    + intros Hmiss. rewrite (cacheFirst_miss _ _ _ _ Hmiss), Hnet, Hok.
      split; [done|]. split; [done|].
      intros c u. apply (cached_in_open cacheName).
    + intros Hmiss.
      rewrite (staleWhileRevalidate_miss _ _ _ _ Hmiss), fetchPromise_eq.
      rewrite Hnet, Hok. split; [done|]. split; [done|].
      intros c u. apply (cached_in_open cacheName).
    + rewrite networkFirst_eq, Hnet, Hok. split; [done|]. split; [done|].
      intros c u. apply (cached_in_open cacheName).
Qed.

(** *** The status report *)

Lemma page_models_in_manifest (model : string) :
  model ∈ ModelPreloader_models → model ∈ MODEL_ASSETS.
Proof.
  intros Hm. unfold ModelPreloader_models in Hm.
  repeat (apply elem_of_cons in Hm as [->|Hm]);
    [.. | by apply elem_of_nil in Hm];
    apply (bool_decide_unpack _); by vm_compute.
Qed.

Lemma manifests_in_manifest :
  manifests_safe net self_origin base_path (in_manifest self_origin base_path).
Proof.
  split; [|split].
  - intros model Hmodel n r _ _ _.
    apply list_elem_of_fmap. by exists model.
  - intros asset _ n r _ _ [=].
  - intros model Hmodel%page_models_in_manifest n r _ _ _.
    apply list_elem_of_fmap. by exists model.
Qed.

Lemma events_in_manifest (evs : list Event) :
  (∀ request, OnFetch request ∈ evs →
              origin request = self_origin →
              model_class (pathname request) →
              request ∈ resolve <$> MODEL_ASSETS) →
  Forall (event_safe net self_origin (in_manifest self_origin base_path)) evs.
Proof.
  intros Hevs. apply Forall_forall. intros [| |request| | | |] Hin; try done.
  intros Ho. split; [|split].
  - intros Hm n r _ _ _. by apply Hevs.
  - intros _ n r _ _ [=].
  - intros _ n r _ _ [=].
Qed.

Lemma status_replies_eq (w : World) :
  status_replies w
  = [StatusReply
       {| version := CACHE_VERSION;
          cachedModels :=
            href <$> match storage (caches_open (models CACHE_NAMES) w).2
                           !! models CACHE_NAMES with
                     | Some p => (map_to_list p).*1
                     | None => []
                     end;
          totalModels := length MODEL_ASSETS;
          cachedCount :=
            length match storage (caches_open (models CACHE_NAMES) w).2
                         !! models CACHE_NAMES with
                   | Some p => (map_to_list p).*1
                   | None => []
                   end |}].
Proof. done. Qed.

Lemma onmessage_status (w : World) :
  (onmessage net self_origin base_path (mkMessageData "CACHE_STATUS") w).1
  = status_replies w.
Proof. done. Qed.

(** C5 (as amended): a CACHE_STATUS message gets exactly one reply, in
    every world; its [cachedModels] has [cachedCount] elements and its
    [totalModels] is the length of the model manifest.  In the worlds
    reached from the empty storage by events among which every intercepted
    same-origin model request asks for an asset of the model manifest
    (installs, activations, messages, runs of the page-side preloader and
    completions of pending tasks are all allowed), [cachedCount] is at
    most [totalModels]. *)
Theorem C5_status_reply_counts (evs : list Event) (w0 : World) :
  (∃ status,
     (onmessage net self_origin base_path (mkMessageData "CACHE_STATUS") w0).1
     = [StatusReply status]
     ∧ length (cachedModels status) = cachedCount status
     ∧ totalModels status = length MODEL_ASSETS)
  ∧ ((∀ request, OnFetch request ∈ evs →
                 origin request = self_origin →
                 model_class (pathname request) →
                 request ∈ resolve <$> MODEL_ASSETS) →
     ∃ status,
       (onmessage net self_origin base_path (mkMessageData "CACHE_STATUS")
                  (run_events evs initial_world)).1
       = [StatusReply status]
       ∧ length (cachedModels status) = cachedCount status
       ∧ cachedCount status ≤ totalModels status).
Proof.
  split.
  - rewrite onmessage_status, status_replies_eq. eexists. split; [done|].
    cbn [cachedModels cachedCount totalModels]. by rewrite length_fmap.
  - intros Hevs. set (w := run_events evs initial_world).
    destruct (safe_run_events net (in_manifest self_origin base_path)
                self_origin base_path evs initial_world manifests_in_manifest
                (events_in_manifest evs Hevs)
                (safe_initial_world net (in_manifest self_origin base_path)))
      as [Hst _].
    fold w in Hst.
    rewrite onmessage_status, status_replies_eq. eexists. split; [done|].
    cbn [cachedModels cachedCount totalModels].
    split; [by rewrite length_fmap|].
    destruct (storage (caches_open (models CACHE_NAMES) w).2
                !! models CACHE_NAMES) as [p|] eqn:Hp; [|simpl; lia].
    rewrite <- (length_fmap resolve MODEL_ASSETS).
    apply submseteq_length, NoDup_submseteq.
    + apply NoDup_fst_map_to_list.
    + intros u ([u' r] & -> & Hin)%list_elem_of_fmap.
      apply elem_of_map_to_list in Hin. simpl.
      apply (Hst (models CACHE_NAMES) u' r); [|done].
      rewrite <- (cached_in_open (models CACHE_NAMES)).
      unfold cached_in. by rewrite Hp.
Qed.

End Partitions.

(** ** The scenarios *)


(** C4, as stated, fails: cacheFirst returns the fetched ok response while
    the partition still has no entry for the request; the write is only
    pending. *)
Lemma C4_counterexample_write_pending_at_return :
  let r := mkResponse 200 "/assets/3d/staff.glb" in
  let w' := (cacheFirst net_up staff_glb (models CACHE_NAMES) initial_world).2 in
  cached_in (models CACHE_NAMES) staff_glb initial_world = None
  ∧ net_up (next_ticket initial_world) staff_glb = NetResponse r
  ∧ ok r = true
  ∧ (cacheFirst net_up staff_glb (models CACHE_NAMES) initial_world).1
    = Resolved r
  ∧ cached_in (models CACHE_NAMES) staff_glb w' = None
  ∧ tasks w' = [TPut (models CACHE_NAMES) staff_glb r].
Proof. vm_compute. by repeat split. Qed.

(** C5, as stated, fails: after an install that cached the six assets of
    the manifest, a same-origin request for a seventh model file goes
    through cacheFirst into the model partition, and the status reply
    counts seven cached models of six. *)
Lemma C5_counterexample_more_cached_than_total :
  origin home_animation_glb = site
  ∧ endsWith (pathname home_animation_glb) ".glb" = true
  ∧ ∃ status,
      (onmessage net_up site "/" (mkMessageData "CACHE_STATUS")
                 (run_events net_up site "/" events_with_hero initial_world)).1
      = [StatusReply status]
      ∧ cachedCount status = 7
      ∧ totalModels status = 6
      ∧ ¬ (cachedCount status ≤ totalModels status).
Proof.
  split; [done|]. split; [done|].
  eexists. split; [vm_compute; reflexivity|].
  cbn [cachedCount totalModels]. repeat split; lia.
Qed.

(** The first request for a model fetches it; when its write has
    completed, every further request is served from the partition and the
    counter stays at one.  On a server that answers with partial
    responses the model is never cached and the second request fetches
    again. *)
Lemma C1_witness_staff_fetched_once :
  (let r := mkResponse 200 "/assets/3d/staff.glb" in
   let w1 := complete net_up 0
               (cacheFirst net_up staff_glb (models CACHE_NAMES)
                           initial_world).2 in
   fetch_count staff_glb w1 = 1
   ∧ ∀ n,
       let wn := repeat_cacheFirst net_up n staff_glb (models CACHE_NAMES) w1 in
       cacheFirst net_up staff_glb (models CACHE_NAMES) wn = (Resolved r, wn)
       ∧ fetch_count staff_glb wn = 1)
  ∧ (let w1 := complete net_partial 0
                 (cacheFirst net_partial staff_glb (models CACHE_NAMES)
                             initial_world).2 in
     cached_in (models CACHE_NAMES) staff_glb w1 = None
     ∧ fetch_count staff_glb
         (cacheFirst net_partial staff_glb (models CACHE_NAMES) w1).2 = 2).
Proof.
  split.
  - exact (proj1 (proj2 (C1_cacheFirst_hit_stays_off_network
                           net_up staff_glb initial_world))
                 (mkResponse 200 "/assets/3d/staff.glb")
                 eq_refl eq_refl eq_refl).
  - destruct (proj2 (proj2 (C1_cacheFirst_hit_stays_off_network
                              net_partial staff_glb initial_world))
                    (mkResponse 206 "/assets/3d/staff.glb")
                    eq_refl eq_refl eq_refl eq_refl)
      as (Hnone & _ & Hcount).
    split; [exact Hnone | exact Hcount].
Defined.

(** The network is down and nothing is cached: the promise of
    staleWhileRevalidate is fulfilled with [undefined], and it would be
    even if the fetch settled in a world that has the style sheet. *)
Lemma C2_witness_css_offline :
  (staleWhileRevalidate net_down main_css (static CACHE_NAMES)
                        initial_world).1 = Resolved None
  ∧ cached_in (static CACHE_NAMES) main_css world_with_css = Some stale_css
  ∧ (fetchPromise net_down (static CACHE_NAMES) main_css None 0
                  world_with_css).1 = Resolved None.
Proof.
  pose proof (C2_swr_miss_rejection_resolves_undefined
                net_down main_css initial_world "TypeError: Failed to fetch"
                eq_refl eq_refl) as [Hres Hlater].
  split; [exact Hres|]. split; [reflexivity|]. exact (Hlater world_with_css).
Defined.

(** A model that is not cached is fetched and returned, and its write
    completes with the pending task; a partial response is returned too,
    but there is no entry after the task has completed. *)
Lemma C4_witness_staff_miss :
  cached_in (models CACHE_NAMES) staff_glb initial_world = None
  ∧ (cacheFirst net_up staff_glb (models CACHE_NAMES) initial_world).1
    = Resolved (mkResponse 200 "/assets/3d/staff.glb")
  ∧ cached_in (models CACHE_NAMES) staff_glb
              (complete net_up 0
                 (cacheFirst net_up staff_glb (models CACHE_NAMES)
                             initial_world).2)
    = Some (mkResponse 200 "/assets/3d/staff.glb")
  ∧ (cacheFirst net_partial staff_glb (models CACHE_NAMES) initial_world).1
    = Resolved (mkResponse 206 "/assets/3d/staff.glb")
  ∧ cached_in (models CACHE_NAMES) staff_glb
              (complete net_partial 0
                 (cacheFirst net_partial staff_glb (models CACHE_NAMES)
                             initial_world).2)
    = None.
Proof.
  split; [reflexivity|].
  pose proof (C4_cacheFirst_miss_write_detached
                net_up staff_glb initial_world eq_refl) as H.
  cbv zeta in H. destruct H as (_ & _ & H).
  change (net_up (next_ticket initial_world) staff_glb)
    with (NetResponse (mkResponse 200 "/assets/3d/staff.glb")) in H.
  cbv iota beta in H. destruct H as [Hres H]. split; [exact Hres|].
  change (ok (mkResponse 200 "/assets/3d/staff.glb")) with true in H.
  cbv iota in H. split; [exact (proj2 H)|].
  pose proof (C4_cacheFirst_miss_write_detached
                net_partial staff_glb initial_world eq_refl) as H'.
  cbv zeta in H'. destruct H' as (_ & _ & H').
  change (net_partial (next_ticket initial_world) staff_glb)
    with (NetResponse (mkResponse 206 "/assets/3d/staff.glb")) in H'.
  cbv iota beta in H'. destruct H' as [Hres' H']. split; [exact Hres'|].
  change (ok (mkResponse 206 "/assets/3d/staff.glb")) with true in H'.
  cbv iota in H'. exact (proj2 H').
Defined.

(** C8, as stated, fails: the style sheet is cached and the server answers
    the background fetch with a partial response, which is ok; the fetch
    has succeeded, yet when all pending work has completed the partition
    still holds the stale copy, because the cache refuses the write. *)
Lemma C8_counterexample_partial_response_not_stored :
  let fresh := mkResponse 206 "/assets/css/main.css" in
  let w' := (staleWhileRevalidate net_partial main_css (static CACHE_NAMES)
                                  world_with_css).2 in
  cached_in (static CACHE_NAMES) main_css world_with_css = Some stale_css
  ∧ net_partial (next_ticket world_with_css) main_css = NetResponse fresh
  ∧ ok fresh = true
  ∧ (staleWhileRevalidate net_partial main_css (static CACHE_NAMES)
                          world_with_css).1 = Resolved (Some stale_css)
  ∧ tasks (settle_all net_partial w') = []
  ∧ cached_in (static CACHE_NAMES) main_css (settle_all net_partial w')
    = Some stale_css
  ∧ cached_in (static CACHE_NAMES) main_css (settle_all net_partial w')
    ≠ Some fresh.
Proof. vm_compute. by repeat split. Qed.

(** After an install and a request for a manifest asset the status reply
    counts at most as many cached models as the manifest has. *)
Lemma C5_witness_manifest_requests :
  ∃ status,
    (onmessage net_up site "/" (mkMessageData "CACHE_STATUS")
               (run_events net_up site "/" events_with_staff initial_world)).1
    = [StatusReply status]
    ∧ length (cachedModels status) = cachedCount status
    ∧ cachedCount status ≤ totalModels status.
Proof.
  apply (proj2 (C5_status_reply_counts net_up site "/" events_with_staff
                                       initial_world)).
  intros request Hin _ _. unfold events_with_staff in Hin.
  apply elem_of_cons in Hin as [Hin|Hin]; [discriminate Hin|].
  apply elem_of_cons in Hin as [Hin|Hin].
  - injection Hin as ->. apply (bool_decide_unpack _). vm_compute. exact I.
  - apply elem_of_cons in Hin as [Hin|Hin]; [discriminate Hin|].
    by apply elem_of_nil in Hin.
Defined.

(** The partition of version v0 is gone after activate, the current
    static partition stays. *)
Lemma C6_witness_old_version_deleted :
  storage (activate world_with_old_version).2 !! "penta-static-v0" = None
  ∧ storage (activate world_with_old_version).2 !! static CACHE_NAMES
    = storage world_with_old_version !! static CACHE_NAMES.
Proof.
  destruct (C6_activate_keeps_only_current_partitions world_with_old_version)
    as (_ & Hold & Hcur & _).
  split.
  - apply Hold. apply (bool_decide_unpack _). vm_compute. exact I.
  - apply Hcur. apply (bool_decide_unpack _). vm_compute. exact I.
Defined.

(** No model file can be fetched: install still completes.  The model
    files come as partial responses, which the cache refuses: install still
    completes, with no model stored.  The logo is missing: install is
    rejected. *)
Lemma C7_witness_install :
  ((install net_models_down site "/" initial_world).1 = Resolved ()
   ∧ skipWaiting_called (install net_models_down site "/" initial_world).2
     = true)
  ∧ ((install net_models_partial site "/" initial_world).1 = Resolved ()
     ∧ skipWaiting_called (install net_models_partial site "/" initial_world).2
       = true
     ∧ cached_in (models CACHE_NAMES) staff_glb
                 (install net_models_partial site "/" initial_world).2 = None)
  ∧ ((∃ e, (install net_logo_missing site "/" initial_world).1 = Rejected e)
     ∧ skipWaiting_called (install net_logo_missing site "/" initial_world).2
       = false).
Proof.
  split; [|split].
  - destruct (C7_install_models_tolerated_static_batch_fatal
                net_models_down site "/" initial_world)
      as (_ & _ & Hok & _).
    destruct (Hok eq_refl) as (Hres & Hskip & _). by split.
  - destruct (C7_install_models_tolerated_static_batch_fatal
                net_models_partial site "/" initial_world)
      as (_ & Hmodels & Hok & _).
    destruct (Hok eq_refl) as (Hres & Hskip & _).
    split; [exact Hres|]. split; [exact Hskip|].
    exact (Hmodels 3 "./assets/3d/staff.glb" eq_refl).
  - destruct (C7_install_models_tolerated_static_batch_fatal
                net_logo_missing site "/" initial_world)
      as (_ & _ & _ & Hbad).
    destruct (Hbad 3 "./assets/images/logo.png" eq_refl eq_refl)
      as (Hres & Hskip & _).
    by split.
Defined.

(** The style sheet is cached and the network is down: the cached copy is
    returned.  The style sheet is cached and the network answers in full:
    the partition holds the answer once the background fetch and its write
    have completed.  Nothing is cached and the network answers: the answer
    is stored when the write completes. *)
Lemma C8_witness_css :
  (staleWhileRevalidate net_down main_css (static CACHE_NAMES)
                        world_with_css).1 = Resolved (Some stale_css)
  ∧ cached_in (static CACHE_NAMES) main_css
              (complete net_up 0
                 (complete net_up 0
                    (staleWhileRevalidate net_up main_css (static CACHE_NAMES)
                                          world_with_css).2))
    = Some (mkResponse 200 "/assets/css/main.css")
  ∧ cached_in (static CACHE_NAMES) main_css
              (complete net_up 0
                 (staleWhileRevalidate net_up main_css (static CACHE_NAMES)
                                       initial_world).2)
    = Some (mkResponse 200 "/assets/css/main.css").
Proof.
  split; [|split].
  - exact (proj1 (proj1 (C8_swr_serves_cached_and_revalidates
                           net_down main_css world_with_css)
                        stale_css eq_refl)).
  - exact (proj2 (proj2 (proj2 (proj2
             (proj1 (C8_swr_serves_cached_and_revalidates
                       net_up main_css world_with_css)
                    stale_css eq_refl))))).
  - exact (proj2 (proj2 (C8_swr_serves_cached_and_revalidates
                           net_up main_css initial_world)
                        (mkResponse 200 "/assets/css/main.css")
                        eq_refl eq_refl eq_refl)).
Defined.

(** A model file of the site goes to cacheFirst; the same path on another
    origin is not intercepted. *)
Lemma C9_witness_routes :
  onfetch net_up site staff_glb initial_world
  = respondWith Some (cacheFirst net_up staff_glb (models CACHE_NAMES))
                initial_world
  ∧ onfetch net_up site (mkURL "https://cdn.example" "/assets/3d/staff.glb")
            initial_world
    = (NotIntercepted, initial_world).
Proof.
  split.
  - apply (proj1 (proj2 (C9_selector_classifies net_up site staff_glb
                                                initial_world))).
    + reflexivity.
    + left. by exists "/assets/3d/staff".
  - apply (proj1 (C9_selector_classifies
                    net_up site
                    (mkURL "https://cdn.example" "/assets/3d/staff.glb")
                    initial_world)).
    discriminate.
Defined.

(** After an install on a working network the entry of the main style
    sheet is an ok response of the network. *)
Lemma C10_witness_installed_entry :
  ok (mkResponse 200 "/assets/css/main.css") = true
  ∧ ∃ n, net_up n main_css = NetResponse (mkResponse 200 "/assets/css/main.css").
Proof.
  apply (proj1 (C10_only_ok_responses_are_stored net_up site "/" [OnInstall])
               (static CACHE_NAMES) main_css).
  vm_compute. reflexivity.
Defined.

(** ** The control channel *)

Section ControlChannel.

Variable net : nat → URL → FetchOutcome.
Variable self_origin : string.
Variable base_path : string.

Local Abbreviation resolve := (resolve self_origin base_path).
Local Abbreviation precached := (precached net self_origin base_path).
Local Abbreviation preload_step := (preload_step net self_origin base_path).

Lemma filter_ext_elem {A} (P Q : A → Prop) `{∀ x, Decision (P x)}
      `{∀ x, Decision (Q x)} (l : list A) :
  (∀ x, x ∈ l → P x ↔ Q x) → filter P l = filter Q l.
Proof.
  induction l as [|x l IH]; intros Hext; [done|].
  assert (Hx : P x ↔ Q x) by (apply Hext, elem_of_cons; by left).
  assert (Hl : filter P l = filter Q l).
  { apply IH. intros y Hy. apply Hext, elem_of_cons. by right. }
  destruct (decide (P x)) as [HP|HP].
  - rewrite !filter_cons_True by tauto. by rewrite Hl.
  - rewrite !filter_cons_False by tauto. done.
Qed.

Lemma preload_body_eq (cache model : string) (w : World) :
  (let* cached := cache_match cache (resolve model) in
   match cached with
   | Some _ => ret ()
   | None =>
     try_catch
       (let* response := fetch net (resolve model) in
        if ok response
        then cache_put cache (resolve model) response
        else ret ())
       (λ error, ret ())
   end) w
  = (Resolved (), preload_step cache model w).
Proof.
  unfold bind at 1. rewrite cache_match_eq. unfold preload_step.
  destruct (cached_in cache (resolve model) w) as [r|]; [done|].
  apply model_body_eq.
Qed.

Lemma preload_loop_eq (cache : string) (assets : list string) (w : World) :
  for_each assets (λ model,
    let* cached := cache_match cache (resolve model) in
    match cached with
    | Some _ => ret ()
    | None =>
      try_catch
        (let* response := fetch net (resolve model) in
         if ok response
         then cache_put cache (resolve model) response
         else ret ())
        (λ error, ret ())
    end) w
  = (Resolved (), foldl (λ w model, preload_step cache model w) w assets).
Proof.
  revert w. induction assets as [|model rest IH]; intros w; [done|].
  cbn [for_each foldl]. unfold bind at 1.
  by rewrite preload_body_eq, IH.
Qed.

Lemma preloadModels_eq (w : World) :
  preloadModels net self_origin base_path w
  = (Resolved (),
     foldl (λ w model, preload_step (models CACHE_NAMES) model w)
           (caches_open (models CACHE_NAMES) w).2 MODEL_ASSETS).
Proof.
  unfold preloadModels. unfold bind at 1. rewrite caches_open_eq.
  apply preload_loop_eq.
Qed.

(** What one round changes. *)
Lemma preload_step_frame (cache model : string) (w : World) :
  let w' := preload_step cache model w in
  tasks w' = tasks w
  ∧ skipWaiting_called w' = skipWaiting_called w
  ∧ clients_claimed w' = clients_claimed w
  ∧ (∀ c, is_Some (storage w' !! c) ↔ is_Some (storage w !! c))
  ∧ (∀ c u, c ≠ cache ∨ u ≠ resolve model →
            cached_in c u w' = cached_in c u w)
  ∧ fetches (trace w')
    = fetches (trace w) ++ uncached cache w [resolve model].
Proof.
  cbv zeta. unfold preload_step, uncached.
  destruct (cached_in cache (resolve model) w) as [r|] eqn:Hc.
  - rewrite filter_cons_False by (by rewrite Hc). rewrite filter_nil.
    rewrite app_nil_r. by repeat split.
  - rewrite filter_cons_True by done. rewrite filter_nil.
    destruct (model_loop_frame net self_origin base_path cache [model] w)
      as (Hts & Hsk & Hcl & Hdom & Hother).
    cbn [foldl] in *. split; [done|]. split; [done|]. split; [done|].
    split; [done|]. split.
    + intros c u Hne. apply cached_in_precached_other. done.
    + rewrite trace_precached, fetches_app. f_equal.
      cbn [model_trace]. simpl. by destruct (fetched_storable _ _ _).
Qed.

Lemma uncached_cons (cache : string) (w : World) (u : URL) (rest : list URL) :
  uncached cache w (u :: rest) = uncached cache w [u] ++ uncached cache w rest.
Proof.
  unfold uncached. destruct (decide (cached_in cache u w = None)).
  - by rewrite !filter_cons_True by done.
  - by rewrite !filter_cons_False by done.
Qed.

Lemma preload_loop_frame (cache : string) (assets : list string) (w : World) :
  NoDup (resolve <$> assets) →
  let w' := foldl (λ w model, preload_step cache model w) w assets in
  tasks w' = tasks w
  ∧ skipWaiting_called w' = skipWaiting_called w
  ∧ clients_claimed w' = clients_claimed w
  ∧ (∀ c, is_Some (storage w' !! c) ↔ is_Some (storage w !! c))
  ∧ (∀ c u, c ≠ cache ∨ u ∉ resolve <$> assets →
            cached_in c u w' = cached_in c u w)
  ∧ fetches (trace w')
    = fetches (trace w) ++ uncached cache w (resolve <$> assets).
Proof.
  revert w. induction assets as [|model rest IH]; intros w Hnd.
  { cbv zeta. simpl. rewrite app_nil_r. by repeat split. }
  rewrite fmap_cons in Hnd. apply NoDup_cons in Hnd as [Hhead Hnd].
  cbn [foldl]. cbv zeta.
  destruct (preload_step_frame cache model w)
    as (Hts1 & Hsk1 & Hcl1 & Hdom1 & Hother1 & Hf1).
  destruct (IH (preload_step cache model w) Hnd)
    as (Hts & Hsk & Hcl & Hdom & Hother & Hf).
  rewrite Hts, Hsk, Hcl. split; [done|]. split; [done|]. split; [done|].
  split; [|split].
  - intros c. etrans; [apply Hdom | apply Hdom1].
  - intros c u Hne. rewrite Hother.
    + apply Hother1. destruct Hne as [?|Hne]; [by left | right].
      intros ->. apply Hne. rewrite fmap_cons. apply elem_of_cons. by left.
    + destruct Hne as [?|Hne]; [by left | right].
      intros Hin. apply Hne. rewrite fmap_cons. apply elem_of_cons. by right.
  - rewrite fmap_cons,
            (uncached_cons cache w (resolve model) (resolve <$> rest)).
    rewrite Hf, Hf1, <- app_assoc. do 2 f_equal.
    apply filter_ext_elem. intros u Hu.
    rewrite Hother1; [done|]. right. by intros ->.
Qed.

Lemma preload_loop_entry (cache : string) (assets : list string) (w : World)
      (model : string) :
  NoDup (resolve <$> assets) →
  is_Some (storage w !! cache) →
  model ∈ assets →
  let w' := foldl (λ w model, preload_step cache model w) w assets in
  match cached_in cache (resolve model) w with
  | Some r => cached_in cache (resolve model) w' = Some r
  | None => ∃ t, cached_in cache (resolve model) w'
                 = after_precache net t (resolve model) None
  end.
Proof.
  revert w. induction assets as [|head rest IH]; intros w Hnd Hp Hin.
  { by apply elem_of_nil in Hin. }
  cbv zeta. cbn [foldl].
  rewrite fmap_cons in Hnd. apply NoDup_cons in Hnd as [Hhead Hnd].
  destruct (preload_step_frame cache head w)
    as (_ & _ & _ & Hdom1 & Hother1 & _).
  destruct (decide (resolve model = resolve head)) as [Heq|Hne].
  - destruct (preload_loop_frame cache rest (preload_step cache head w) Hnd)
      as (_ & _ & _ & _ & Hother & _).
    rewrite Hother by (right; by rewrite Heq). rewrite Heq.
    unfold preload_step.
    destruct (cached_in cache (resolve head) w) as [r|] eqn:Hc; [done|].
    exists (next_ticket w). rewrite cached_in_precached by done.
    by rewrite Hc.
  - apply elem_of_cons in Hin as [->|Hin]; [done|].
    specialize (IH (preload_step cache head w) Hnd (proj2 (Hdom1 cache) Hp) Hin).
    cbv zeta in IH. rewrite Hother1 in IH by (by right). exact IH.
Qed.

Lemma after_precache_ok (t : nat) (u : URL) :
  fetched_storable net t u = true → is_Some (after_precache net t u None).
Proof.
  unfold fetched_storable, after_precache.
  destruct (net t u) as [r|e]; [|done]. intros ->. by eexists.
Qed.

Lemma preload_loop_all_cached (cache : string) (assets : list string)
      (w : World) :
  (∀ model, model ∈ assets → is_Some (cached_in cache (resolve model) w)) →
  foldl (λ w model, preload_step cache model w) w assets = w.
Proof.
  induction assets as [|model rest IH]; intros Hall; [done|].
  cbn [foldl]. unfold preload_step at 2.
  destruct (Hall model) as [r ->]; [apply elem_of_cons; by left|].
  apply IH. intros m Hm. apply Hall, elem_of_cons. by right.
Qed.

Lemma clearAllCaches_eq (w : World) :
  (clearAllCaches w).1 = Resolved ()
  ∧ (∀ name, storage (clearAllCaches w).2 !! name = None)
  ∧ trace (clearAllCaches w).2 = trace w
  ∧ tasks (clearAllCaches w).2 = tasks w.
Proof.
  unfold clearAllCaches, bind, caches_keys.
  destruct (for_each_caches_delete (map_to_list (storage w)).*1 w)
    as (Hres & Hst & Htr & Hts).
  split; [done|]. split; [|done].
  intros name. rewrite Hst. case_decide as Hin; [done|].
  destruct (storage w !! name) as [p|] eqn:E; [|done].
  exfalso. apply Hin, elem_of_caches_keys. by eexists.
Qed.

(** X1: every message of one of the three kinds gets exactly one reply on
    its port, whatever the state of the caches and of the network (a clear
    or a preload cannot fail towards the page); a message of any other
    kind gets no reply and changes nothing. *)
Theorem X1_onmessage_one_reply_per_known_kind (data : MessageData) (w : World) :
  let replies := (onmessage net self_origin base_path data w).1 in
  (type data = "CACHE_STATUS" →
     ∃ status, replies = [StatusReply status]
               ∧ version status = CACHE_VERSION)
  ∧ (type data = "CLEAR_CACHE" → replies = [SuccessReply true])
  ∧ (type data = "PRELOAD_MODELS" → replies = [SuccessReply true])
  ∧ (type data ≠ "CACHE_STATUS" → type data ≠ "CLEAR_CACHE" →
     type data ≠ "PRELOAD_MODELS" →
     onmessage net self_origin base_path data w = ([], w)).
Proof.
  cbv zeta. unfold onmessage. split; [|split; [|split]].
  - intros ->. cbn [String.eqb Ascii.eqb Bool.eqb]. by eexists.
  - intros ->. simpl. unfold then_post.
    destruct (clearAllCaches_eq w) as (Hres & _).
    destruct (clearAllCaches w) as [[[]|e] w1]; simpl in *; done.
  - intros ->. simpl. unfold then_post. rewrite preloadModels_eq. done.
  - intros H1%String.eqb_neq H2%String.eqb_neq H3%String.eqb_neq.
    by rewrite H1, H2, H3.
Qed.

(** X2: a CLEAR_CACHE message deletes every partition, of the current
    version or not, and a CACHE_STATUS message sent after it is answered
    with no cached model and a count of zero. *)
Theorem X2_clear_cache_then_status_is_empty (w : World) :
  let w1 := (onmessage net self_origin base_path
                       (mkMessageData "CLEAR_CACHE") w).2 in
  (∀ name, storage w1 !! name = None)
  ∧ (onmessage net self_origin base_path (mkMessageData "CACHE_STATUS") w1).1
    = [StatusReply {| version := CACHE_VERSION;
                      cachedModels := [];
                      totalModels := length MODEL_ASSETS;
                      cachedCount := 0 |}].
Proof.
  cbv zeta.
  change (onmessage net self_origin base_path (mkMessageData "CLEAR_CACHE") w).2
    with (then_post clearAllCaches (λ _, SuccessReply true) w).2.
  rewrite then_post_world.
  destruct (clearAllCaches_eq w) as (_ & Hst & _).
  split; [done|].
  rewrite onmessage_status, status_replies_eq.
  unfold caches_open, with_storage. cbn [snd storage].
  rewrite Hst, lookup_insert_eq. by rewrite map_to_list_empty.
Qed.

(** X3: a forced preload never fetches an asset that is in the model
    partition: it fetches the assets of the manifest that have no entry,
    each once and in manifest order, leaves the entries it found as they
    are, and an asset it fetched is stored when its response was ok and
    not partial (the cache refuses a partial response, and the refusal is
    caught) and stays absent otherwise.  It touches no other entry, is
    done with its writes when it returns, and never fails, whatever the
    network does. *)
Theorem X3_preloadModels_fetches_only_missing (w : World) :
  let w' := (preloadModels net self_origin base_path w).2 in
  (preloadModels net self_origin base_path w).1 = Resolved ()
  ∧ tasks w' = tasks w
  ∧ fetches (trace w')
    = fetches (trace w)
      ++ uncached (models CACHE_NAMES) w (resolve <$> MODEL_ASSETS)
  ∧ (∀ model r,
       model ∈ MODEL_ASSETS →
       cached_in (models CACHE_NAMES) (resolve model) w = Some r →
       cached_in (models CACHE_NAMES) (resolve model) w' = Some r)
  ∧ (∀ model,
       model ∈ MODEL_ASSETS →
       cached_in (models CACHE_NAMES) (resolve model) w = None →
       ∃ t, cached_in (models CACHE_NAMES) (resolve model) w'
            = after_precache net t (resolve model) None)
  ∧ (∀ c u,
       c ≠ models CACHE_NAMES ∨ u ∉ resolve <$> MODEL_ASSETS →
       cached_in c u w' = cached_in c u w).
Proof.
  cbv zeta. rewrite preloadModels_eq. cbn [fst snd].
  set (w1 := (caches_open (models CACHE_NAMES) w).2).
  assert (Hopen : ∀ c u, cached_in c u w1 = cached_in c u w)
    by (intros; apply cached_in_open).
  assert (Hp : is_Some (storage w1 !! models CACHE_NAMES))
    by apply caches_open_storage.
  assert (Hunc : uncached (models CACHE_NAMES) w1 (resolve <$> MODEL_ASSETS)
                 = uncached (models CACHE_NAMES) w (resolve <$> MODEL_ASSETS)).
  { apply filter_ext_elem. intros u _. by rewrite Hopen. }
  destruct (preload_loop_frame (models CACHE_NAMES) MODEL_ASSETS w1
              (NoDup_models self_origin base_path))
    as (Hts & _ & _ & _ & Hother & Hf).
  split; [done|]. split; [done|]. split; [by rewrite Hf, Hunc|].
  split; [|split].
  - intros model r Hin Hc.
    pose proof (preload_loop_entry (models CACHE_NAMES) MODEL_ASSETS w1 model
                  (NoDup_models self_origin base_path) Hp Hin) as He.
    cbv zeta in He. by rewrite Hopen, Hc in He.
  - intros model Hin Hc.
    pose proof (preload_loop_entry (models CACHE_NAMES) MODEL_ASSETS w1 model
                  (NoDup_models self_origin base_path) Hp Hin) as He.
    cbv zeta in He. by rewrite Hopen, Hc in He.
  - intros c u Hne. rewrite Hother by done. apply Hopen.
Qed.

(** X4: when every asset of the manifest is in the model partition, a
    forced preload starts no fetch and leaves the world as it is; and on a
    network that answers every asset of the manifest with an ok response
    that is not partial, one forced preload brings the partition into that
    state, so that a second one costs nothing. *)
Theorem X4_preloadModels_complete_then_idle (w : World) :
  ((∀ model, model ∈ MODEL_ASSETS →
             is_Some (cached_in (models CACHE_NAMES) (resolve model) w)) →
   preloadModels net self_origin base_path w = (Resolved (), w))
  ∧ ((∀ t model, model ∈ MODEL_ASSETS →
                 fetched_storable net t (resolve model) = true) →
     let w1 := (preloadModels net self_origin base_path w).2 in
     (∀ model, model ∈ MODEL_ASSETS →
               is_Some (cached_in (models CACHE_NAMES) (resolve model) w1))
     ∧ preloadModels net self_origin base_path w1 = (Resolved (), w1)).
Proof.
  assert (Hidle : ∀ w0,
             (∀ model, model ∈ MODEL_ASSETS →
                is_Some (cached_in (models CACHE_NAMES) (resolve model) w0)) →
             preloadModels net self_origin base_path w0 = (Resolved (), w0)).
  { intros w0 Hall. rewrite preloadModels_eq.
    destruct (Hall "./assets/3d/staff.glb") as [r Hr].
    { apply (bool_decide_unpack _). by vm_compute. }
    rewrite caches_open_present by (by eapply cached_in_is_Some).
    cbn [snd]. by rewrite preload_loop_all_cached. }
  split; [apply Hidle|].
  intros Hnet. cbv zeta.
  assert (Hall : ∀ model, model ∈ MODEL_ASSETS →
            is_Some (cached_in (models CACHE_NAMES) (resolve model)
                               (preloadModels net self_origin base_path w).2)).
  { intros model Hin. rewrite preloadModels_eq. cbn [snd].
    pose proof (preload_loop_entry (models CACHE_NAMES) MODEL_ASSETS
                  (caches_open (models CACHE_NAMES) w).2 model
                  (NoDup_models self_origin base_path)
                  (caches_open_storage _ _) Hin) as He.
    cbv zeta in He.
    destruct (cached_in (models CACHE_NAMES) (resolve model)
                        (caches_open (models CACHE_NAMES) w).2) as [r|].
    - rewrite He. by eexists.
    - destruct He as [t ->]. apply after_precache_ok. by apply Hnet. }
  split; [done|]. by apply Hidle.
Qed.

End ControlChannel.

(** ** Serving requests *)

Section Serving.

Variable net : nat → URL → FetchOutcome.
Variable self_origin : string.

Lemma open_names (cacheName name : string) (w : World) :
  is_Some (storage (caches_open cacheName w).2 !! name) →
  is_Some (storage w !! name) ∨ name = cacheName.
Proof.
  unfold caches_open, with_storage. simpl.
  destruct (storage w !! cacheName) eqn:E; [by left|].
  destruct (decide (cacheName = name)) as [->|Hne]; [by right|].
  rewrite lookup_insert_ne by done. by left.
Qed.

Lemma quiet_nothing (request : URL) (c : string) (w : World) :
  answers_quietly request c w (log (EvFetch request) (caches_open c w).2).
Proof.
  split; [|split].
  - intros c' u. apply (cached_in_open c).
  - exists []. rewrite app_nil_r. split; [done|]. split; [simpl; lia|].
    intros t Ht. by apply elem_of_nil in Ht.
  - intros name. apply open_names.
Qed.

Lemma quiet_one (request : URL) (c : string) (w : World) (t : Task) :
  task_request t = request → task_cache t = c → task_later t = [] →
  answers_quietly request c w
    (with_tasks (λ ts, ts ++ [t]) (log (EvFetch request) (caches_open c w).2)).
Proof.
  intros Hreq Hcache Hlater. split; [|split].
  - intros c' u. apply (cached_in_open c).
  - exists [t]. split; [done|]. split; [simpl; lia|].
    intros t' ->%list_elem_of_singleton. done.
  - intros name. apply open_names.
Qed.

Lemma quiet_same (request : URL) (c : string) (w : World) :
  answers_quietly request c w w.
Proof.
  split; [done|]. split; [|by left].
  exists []. rewrite app_nil_r. split; [done|]. split; [simpl; lia|].
  intros t Ht. by apply elem_of_nil in Ht.
Qed.

Lemma quiet_one_present (request : URL) (c : string) (w : World) (t : Task) :
  task_request t = request → task_cache t = c → task_later t = [] →
  answers_quietly request c w
    (with_tasks (λ ts, ts ++ [t]) (log (EvFetch request) w)).
Proof.
  intros Hreq Hcache Hlater. split; [done|]. split; [|by left].
  exists [t]. split; [done|]. split; [simpl; lia|].
  intros t' ->%list_elem_of_singleton. done.
Qed.

Lemma fetches_log_fetch (u : URL) (w : World) :
  fetches (trace (log (EvFetch u) w)) = fetches (trace w) ++ [u].
Proof. unfold log. simpl. by rewrite fetches_app. Qed.

Ltac fetch_logged :=
  repeat (change (trace (with_tasks ?f ?x)) with (trace x));
  rewrite fetches_log_fetch, ?caches_open_trace.

Lemma cacheFirst_quiet (request : URL) (c : string) (w : World) :
  answers_quietly request c w (cacheFirst net request c w).2
  ∧ fetches (trace (cacheFirst net request c w).2)
    = fetches (trace w) ++ uncached c w [request].
Proof.
  unfold uncached.
  destruct (cached_in c request w) as [r|] eqn:Hc.
  - rewrite (cacheFirst_hit _ _ _ _ _ Hc).
    rewrite filter_cons_False by (by rewrite Hc).
    rewrite filter_nil, app_nil_r. split; [apply quiet_same | done].
  - rewrite (cacheFirst_miss _ _ _ _ Hc).
    rewrite filter_cons_True by done. rewrite filter_nil.
    destruct (net (next_ticket w) request) as [r|e]; [destruct (ok r)|];
      cbn [snd]; (split; [|by fetch_logged]);
      first [by apply quiet_one | apply quiet_nothing].
Qed.

Lemma staleWhileRevalidate_quiet (request : URL) (c : string) (w : World) :
  answers_quietly request c w (staleWhileRevalidate net request c w).2
  ∧ fetches (trace (staleWhileRevalidate net request c w).2)
    = fetches (trace w) ++ [request].
Proof.
  destruct (cached_in c request w) as [r|] eqn:Hc.
  - rewrite (staleWhileRevalidate_hit _ _ _ _ _ Hc). cbn [snd].
    split; [by apply quiet_one_present | by fetch_logged].
  - rewrite (staleWhileRevalidate_miss _ _ _ _ Hc), fetchPromise_eq.
    destruct (net (next_ticket w) request) as [r|e]; [destruct (ok r)|];
      cbn [snd]; (split; [|by fetch_logged]);
      first [by apply quiet_one | apply quiet_nothing].
Qed.

Lemma networkFirst_quiet (request : URL) (c : string) (w : World) :
  answers_quietly request c w (networkFirst net request c w).2
  ∧ fetches (trace (networkFirst net request c w).2)
    = fetches (trace w) ++ [request].
Proof.
  rewrite networkFirst_eq.
  destruct (net (next_ticket w) request) as [r|e]; [destruct (ok r)|];
    cbn [snd]; (split; [|by fetch_logged]);
    first [by apply quiet_one | apply quiet_nothing].
Qed.

(** X5: a document fetched while the network answers with an ok response
    that the cache takes is returned live and, once the write that
    networkFirst started has completed, is what the next request gets when
    the network is down; when the network answers again, its answer is
    returned, not the stored copy. *)
Theorem X5_networkFirst_online_then_offline
        (request : URL) (cacheName : string) (w : World) (r : Response) :
  net (next_ticket w) request = NetResponse r →
  storable r = true →
  let w1 := complete net (length (tasks w))
                     (networkFirst net request cacheName w).2 in
  (networkFirst net request cacheName w).1 = Resolved r
  ∧ cached_in cacheName request w1 = Some r
  ∧ (∀ e, net (next_ticket w1) request = NetError e →
          (networkFirst net request cacheName w1).1 = Resolved r)
  ∧ (∀ r2, net (next_ticket w1) request = NetResponse r2 →
           (networkFirst net request cacheName w1).1 = Resolved r2).
Proof.
  intros Hnet [Hok Hfull]%storable_ok. cbv zeta.
  rewrite (networkFirst_eq net request cacheName w).
  rewrite Hnet, Hok. cbn [fst snd].
  erewrite complete_last by done. cbn [run_task].
  set (w1 := (cache_put cacheName request r _).2).
  assert (Hc : cached_in cacheName request w1 = Some r).
  { apply cached_in_put; [done|]. exact (caches_open_storage cacheName w). }
  split; [done|]. split; [done|]. split.
  - intros e He. by rewrite networkFirst_eq, He, Hc.
  - intros r2 Hr2. by rewrite networkFirst_eq, Hr2.
Qed.

(** X6: a static asset that is cached is answered from the cache now and,
    when the background fetch brought an ok response that the cache takes
    and that fetch and its write have completed, with the fresh response
    on the next request, whatever the network does then. *)
Theorem X6_staleWhileRevalidate_fresh_next_time
        (request : URL) (cacheName : string) (w : World)
        (stale fresh : Response) :
  cached_in cacheName request w = Some stale →
  net (next_ticket w) request = NetResponse fresh →
  storable fresh = true →
  let k := length (tasks w) in
  let w2 := complete net k (complete net k
              (staleWhileRevalidate net request cacheName w).2) in
  (staleWhileRevalidate net request cacheName w).1 = Resolved (Some stale)
  ∧ (staleWhileRevalidate net request cacheName w2).1 = Resolved (Some fresh).
Proof.
  intros Hhit Hnet [Hok Hfull]%storable_ok. cbv zeta.
  rewrite (staleWhileRevalidate_hit _ _ _ _ _ Hhit). cbn [fst snd].
  split; [done|].
  rewrite (complete_last net
             (TRevalidate (next_ticket w) cacheName request (Some stale))
             (tasks w)
             (with_tasks (λ ts, ts ++ [TRevalidate (next_ticket w) cacheName
                                         request (Some stale)])
                         (log (EvFetch request) w))) by done.
  cbn [run_task]. rewrite fetchPromise_eq, Hnet, Hok. cbn [snd].
  erewrite complete_last by done. cbn [run_task].
  set (w2 := (cache_put cacheName request fresh _).2).
  assert (Hc : cached_in cacheName request w2 = Some fresh).
  { apply cached_in_put; [done|]. by eapply cached_in_is_Some. }
  by rewrite (staleWhileRevalidate_hit _ _ _ _ _ Hc).
Qed.

(** X7: what an intercepted request costs on the network.  A model request
    starts a fetch only when the model partition has no entry for it; a
    static or a document request starts exactly one fetch, cached or not;
    a request that is not intercepted starts none on the worker's side. *)
Theorem X7_onfetch_network_usage (request : URL) (w : World) :
  let path := pathname request in
  let after := fetches (trace (onfetch net self_origin request w).2) in
  (origin request ≠ self_origin → after = fetches (trace w))
  ∧ (origin request = self_origin → model_class path →
     after = fetches (trace w) ++ uncached (models CACHE_NAMES) w [request])
  ∧ (origin request = self_origin → ¬ model_class path →
     static_class path ∨ document_class path →
     after = fetches (trace w) ++ [request])
  ∧ (¬ model_class path → ¬ static_class path → ¬ document_class path →
     after = fetches (trace w)).
Proof.
  cbv zeta. split; [|split; [|split]].
  - intros Ho. by rewrite onfetch_cross_origin.
  - intros Ho Hm. rewrite onfetch_model, respondWith_world by done.
    apply cacheFirst_quiet.
  - intros Ho Hm [Hs|Hd].
    + rewrite onfetch_static, respondWith_world by done.
      apply staleWhileRevalidate_quiet.
    + assert (Hs : ¬ static_class (pathname request)).
      { intros Hs. by apply (static_not_document _ Hs). }
      rewrite onfetch_document, respondWith_world by done.
      apply networkFirst_quiet.
  - intros Hm Hs Hd. by rewrite onfetch_other.
Qed.

(** X8: when the fetch listener returns, no lookup in any partition has
    changed (a strategy never awaits a write and never deletes), at most
    one piece of work is pending more than before, which can only write
    the entry of this request in one of the three current partitions, and
    no partition outside the three current names has been created. *)
Theorem X8_onfetch_answers_quietly (request : URL) (w : World) :
  ∃ c, c ∈ Object_values CACHE_NAMES
       ∧ answers_quietly request c w (onfetch net self_origin request w).2.
Proof.
  unfold onfetch. case_bool_decide.
  { exists (models CACHE_NAMES). split; [|apply quiet_same].
    apply elem_of_cons. by left. }
  destruct (endsWith (pathname request) ".glb"
            || endsWith (pathname request) ".gltf").
  { exists (models CACHE_NAMES). rewrite respondWith_world.
    split; [apply elem_of_cons; by left | apply cacheFirst_quiet]. }
  destruct (match_static (pathname request)).
  { exists (static CACHE_NAMES). rewrite respondWith_world.
    split; [|apply staleWhileRevalidate_quiet].
    apply elem_of_cons. right. apply elem_of_cons. by left. }
  destruct (endsWith (pathname request) ".html"
            || String.eqb (pathname request) "/").
  { exists (runtime CACHE_NAMES). rewrite respondWith_world.
    split; [|apply networkFirst_quiet].
    do 2 (apply elem_of_cons; right). apply elem_of_cons. by left. }
  exists (models CACHE_NAMES). split; [|apply quiet_same].
  apply elem_of_cons. by left.
Qed.

End Serving.

(** ** After install *)

Section AfterInstall.

Variable net : nat → URL → FetchOutcome.
Variable self_origin : string.
Variable base_path : string.

Local Abbreviation resolve := (resolve self_origin base_path).
Local Abbreviation precached := (precached net self_origin base_path).
Local Abbreviation storable_models := (storable_models net self_origin base_path).
Local Abbreviation install := (install net self_origin base_path).

Lemma install_models_partition (w : World) (u : URL) :
  cached_in (models CACHE_NAMES) u (install w).2
  = cached_in (models CACHE_NAMES) u
      (foldl (λ w model, precached (models CACHE_NAMES) model w)
             (caches_open (models CACHE_NAMES) w).2 MODEL_ASSETS).
Proof.
  rewrite install_eq. cbv zeta. rewrite cache_addAll_eq.
  destruct (addAll_responses _ _) as [rs|e] eqn:Hrs; cbn [snd].
  - unfold skipWaiting. cbn [snd].
    change (cached_in ?c ?v (mkWorld (storage ?x) _ _ _ _))
      with (cached_in c v x).
    destruct (puts_loop_frame (static CACHE_NAMES) rs
                (log_all (EvFetch <$> (resolve <$> STATIC_ASSETS))
                   (caches_open (static CACHE_NAMES)
                      (foldl (λ w model, precached (models CACHE_NAMES) model w)
                             (caches_open (models CACHE_NAMES) w).2
                             MODEL_ASSETS)).2)
                (addAll_responses_storable _ _ _ Hrs))
      as (_ & _ & _ & _ & _ & Hother).
    rewrite Hother by (left; by intros [=]).
    apply (cached_in_open (static CACHE_NAMES)).
  - apply (cached_in_open (static CACHE_NAMES)).
Qed.

Lemma install_model_entry (w : World) (i : nat) (model : string) :
  MODEL_ASSETS !! i = Some model →
  cached_in (models CACHE_NAMES) (resolve model) (install w).2
  = after_precache net (next_ticket w + i) (resolve model)
      (cached_in (models CACHE_NAMES) (resolve model) w).
Proof.
  intros Hi. rewrite install_models_partition.
  rewrite (cached_in_model_loop _ _ _ _ _ _ i model)
    by first [done | apply NoDup_models | apply caches_open_storage].
  by rewrite cached_in_open.
Qed.

Lemma install_model_other (w : World) (u : URL) :
  u ∉ resolve <$> MODEL_ASSETS →
  cached_in (models CACHE_NAMES) u (install w).2
  = cached_in (models CACHE_NAMES) u w.
Proof.
  intros Hu. rewrite install_models_partition.
  destruct (model_loop_frame net self_origin base_path (models CACHE_NAMES)
              MODEL_ASSETS (caches_open (models CACHE_NAMES) w).2)
    as (_ & _ & _ & _ & Hother).
  rewrite Hother by (by right). apply cached_in_open.
Qed.

Lemma open_keeps (cacheName name : string) (w : World) :
  is_Some (storage w !! name) →
  is_Some (storage (caches_open cacheName w).2 !! name).
Proof.
  intros Hn. unfold caches_open, with_storage. simpl.
  destruct (storage w !! cacheName) eqn:E; [done|].
  destruct (decide (cacheName = name)) as [->|Hne].
  - rewrite E in Hn. by destruct Hn.
  - by rewrite lookup_insert_ne.
Qed.

Lemma install_models_present (w : World) :
  is_Some (storage (install w).2 !! models CACHE_NAMES).
Proof.
  rewrite install_eq. cbv zeta. rewrite cache_addAll_eq.
  set (w2 := foldl (λ w model, precached (models CACHE_NAMES) model w)
                   (caches_open (models CACHE_NAMES) w).2 MODEL_ASSETS).
  assert (H2 : is_Some (storage w2 !! models CACHE_NAMES)).
  { destruct (model_loop_frame net self_origin base_path (models CACHE_NAMES)
                MODEL_ASSETS (caches_open (models CACHE_NAMES) w).2)
      as (_ & _ & _ & Hdom & _).
    apply Hdom, caches_open_storage. }
  assert (H3 : is_Some (storage (caches_open (static CACHE_NAMES) w2).2
                          !! models CACHE_NAMES)).
  { by apply open_keeps. }
  destruct (addAll_responses _ _) as [rs|e] eqn:Hrs; cbn [snd]; [|done].
  unfold skipWaiting. cbn [snd storage].
  destruct (puts_loop_frame (static CACHE_NAMES) rs
              (log_all (EvFetch <$> (resolve <$> STATIC_ASSETS))
                       (caches_open (static CACHE_NAMES) w2).2)
              (addAll_responses_storable _ _ _ Hrs))
    as (_ & _ & _ & _ & Hdom & _).
  by apply Hdom.
Qed.

Lemma storable_models_sublist (n : nat) (assets : list string) :
  storable_models n assets `sublist_of` resolve <$> assets.
Proof.
  revert n. induction assets as [|model rest IH]; intros n; [done|].
  rewrite fmap_cons.
  change (storable_models n (model :: rest))
    with ((if fetched_storable net n (resolve model) then [resolve model] else [])
          ++ storable_models (S n) rest).
  destruct (fetched_storable net n (resolve model)).
  - cbn [app]. apply sublist_skip, IH.
  - cbn [app]. apply sublist_cons, IH.
Qed.

Lemma elem_of_storable_models (n : nat) (assets : list string) (u : URL) :
  u ∈ storable_models n assets
  ↔ ∃ i model, assets !! i = Some model ∧ resolve model = u
               ∧ fetched_storable net (n + i) u = true.
Proof.
  revert n. induction assets as [|model rest IH]; intros n.
  { split; [by intros ?%elem_of_nil | by intros (i & m & ? & _)]. }
  change (storable_models n (model :: rest))
    with ((if fetched_storable net n (resolve model) then [resolve model] else [])
          ++ storable_models (S n) rest).
  rewrite elem_of_app, IH. split.
  - intros [Hhead|(i & m & Hi & Hm & Hok)].
    + destruct (fetched_storable net n (resolve model)) eqn:Hok;
        [|by apply elem_of_nil in Hhead].
      apply list_elem_of_singleton in Hhead as ->.
      exists 0, model. by rewrite Nat.add_0_r.
    + exists (S i), m. by replace (n + S i) with (S n + i) by lia.
  - intros ([|i] & m & Hi & Hm & Hok); simpl in Hi.
    + injection Hi as ->. left. rewrite Nat.add_0_r, <- Hm in Hok.
      rewrite Hok, Hm. by apply list_elem_of_singleton.
    + right. exists i, m. by replace (S n + i) with (n + S i) by lia.
Qed.

Lemma after_precache_is_Some (t : nat) (u : URL) :
  is_Some (after_precache net t u None) ↔ fetched_storable net t u = true.
Proof.
  unfold fetched_storable, after_precache.
  destruct (net t u) as [r|e]; [destruct (storable r)|].
  - split; [done | by eexists].
  - split; [by intros [] | done].
  - split; [by intros [] | done].
Qed.

Lemma install_models_keys (w : World) (u : URL) :
  (∀ v, cached_in (models CACHE_NAMES) v w = None) →
  is_Some (cached_in (models CACHE_NAMES) u (install w).2)
  ↔ u ∈ storable_models (next_ticket w) MODEL_ASSETS.
Proof.
  intros Hempty. rewrite elem_of_storable_models.
  destruct (decide (u ∈ resolve <$> MODEL_ASSETS)) as [Hin|Hout].
  - apply list_elem_of_lookup in Hin as [i Hi].
    rewrite list_lookup_fmap in Hi.
    destruct (MODEL_ASSETS !! i) as [model|] eqn:Hm; [|done].
    injection Hi as <-.
    rewrite (install_model_entry w i model Hm), Hempty, after_precache_is_Some.
    split.
    + intros Hok. by exists i, model.
    + intros (j & m & Hj & Heq & Hok).
      assert (i = j) as ->; [|done].
      eapply (NoDup_lookup (resolve <$> MODEL_ASSETS));
        [apply NoDup_models | by rewrite list_lookup_fmap, Hm
        | by rewrite list_lookup_fmap, Hj, <- Heq].
  - rewrite install_model_other, Hempty by done. split; [by intros []|].
    intros (j & m & Hj & Heq & _). exfalso. apply Hout.
    apply list_elem_of_fmap. exists m. split; [done|].
    by eapply list_elem_of_lookup_2.
Qed.

(** X9: when the model partition is empty before install, the status
    reported after install counts exactly the model assets whose fetch
    brought an ok response that the cache takes (an ok response that is
    not partial), lists exactly those in some order, and the count is at
    most the length of the manifest; this is so whether or not the static
    batch let install complete. *)
Theorem X9_status_after_install_counts_stored_models (w : World) :
  (∀ u, cached_in (models CACHE_NAMES) u w = None) →
  ∃ status,
    (onmessage net self_origin base_path (mkMessageData "CACHE_STATUS")
               (install w).2).1 = [StatusReply status]
    ∧ cachedCount status = length (storable_models (next_ticket w) MODEL_ASSETS)
    ∧ cachedModels status ≡ₚ href <$> storable_models (next_ticket w) MODEL_ASSETS
    ∧ cachedCount status ≤ totalModels status.
Proof.
  intros Hempty. rewrite onmessage_status, status_replies_eq.
  eexists. split; [done|]. cbn [cachedModels cachedCount totalModels].
  rewrite caches_open_present by apply install_models_present.
  cbn [snd]. destruct (install_models_present w) as [p Hp]. rewrite Hp.
  assert (Hperm : (map_to_list p).*1
                  ≡ₚ storable_models (next_ticket w) MODEL_ASSETS).
  { apply NoDup_Permutation.
    - apply NoDup_fst_map_to_list.
    - eapply sublist_NoDup; [apply NoDup_models | apply storable_models_sublist].
    - intros u. rewrite <- (install_models_keys w u Hempty).
      unfold cached_in. rewrite Hp. simpl.
      rewrite list_elem_of_fmap. split.
      + intros ([v r] & -> & Hin). apply elem_of_map_to_list in Hin.
        by eexists.
      + intros [r Hr]. exists (u, r). split; [done|].
        by apply elem_of_map_to_list. }
  split; [by rewrite Hperm|]. split; [by rewrite Hperm|].
  rewrite Hperm, <- (length_fmap resolve MODEL_ASSETS).
  apply sublist_length, storable_models_sublist.
Qed.

Lemma activate_world (w : World) :
  (∀ name, storage (activate w).2 !! name
           = if decide (name ∈ Object_values CACHE_NAMES)
             then storage w !! name else None)
  ∧ trace (activate w).2 = trace w
  ∧ tasks (activate w).2 = tasks w.
Proof.
  unfold activate, bind, caches_keys.
  set (old := filter (λ name, name ∉ Object_values CACHE_NAMES)
                     (map_to_list (storage w)).*1).
  destruct (for_each_caches_delete old w) as (Hres & Hst & Htr & Hts).
  destruct (for_each old (λ name, caches_delete name) w) as [[[]|e] w1];
    simpl in Hres; [|done].
  cbn [fst snd] in *. unfold clients_claim. cbn [snd storage trace tasks].
  split; [|done]. intros name. rewrite Hst.
  destruct (decide (name ∈ old)) as [Hin|Hin].
  - unfold old in Hin. apply list_elem_of_filter in Hin as [Hnot _].
    by rewrite decide_False.
  - case_decide as Hcur; [done|].
    destruct (storage w !! name) as [p|] eqn:E; [|done].
    exfalso. apply Hin. unfold old. apply list_elem_of_filter. split; [done|].
    apply elem_of_caches_keys. by eexists.
Qed.

Lemma activate_current (c : string) (u : URL) (w : World) :
  c ∈ Object_values CACHE_NAMES →
  cached_in c u (activate w).2 = cached_in c u w.
Proof.
  intros Hc. unfold cached_in. destruct (activate_world w) as (Hst & _).
  by rewrite Hst, decide_True.
Qed.

Lemma manifest_model_class (model : string) :
  model ∈ MODEL_ASSETS → model_class (pathname (resolve model)).
Proof.
  intros Hin. apply model_class_endsWith. apply orb_true_iff. left.
  unfold MODEL_ASSETS in Hin.
  repeat (apply elem_of_cons in Hin as [->|Hin]);
    [.. | by apply elem_of_nil in Hin];
    simpl pathname;
    rewrite endsWith_app_shorter by (vm_compute; lia); reflexivity.
Qed.

(** X10: a model asset whose fetch brought, during install, an ok
    response that the cache takes is, after activation, served to the page
    by the fetch listener from the model partition: the answer is the
    response stored at install, no fetch is started and the world stays as
    it is. *)
Theorem X10_installed_model_is_served_from_cache
        (w : World) (i : nat) (model : string) (r : Response) :
  MODEL_ASSETS !! i = Some model →
  net (next_ticket w + i) (resolve model) = NetResponse r →
  storable r = true →
  let w2 := (activate (install w).2).2 in
  onfetch net self_origin (resolve model) w2
  = (RespondWith (Resolved (Some r)), w2).
Proof.
  intros Hi Hnet Hok. cbv zeta.
  set (w2 := (activate (install w).2).2).
  assert (Hc : cached_in (models CACHE_NAMES) (resolve model) w2 = Some r).
  { unfold w2. rewrite activate_current by (apply elem_of_cons; by left).
    rewrite (install_model_entry w i model Hi).
    unfold after_precache. by rewrite Hnet, Hok. }
  rewrite onfetch_model;
    [|done | apply manifest_model_class; by eapply list_elem_of_lookup_2].
  unfold respondWith. by rewrite (cacheFirst_hit _ _ _ _ _ Hc).
Qed.

End AfterInstall.

(** ** The page-side preloader *)

Section PagePreloader.

Variable net : nat → URL → FetchOutcome.
Variable self_origin : string.
Variable base_path : string.

Local Abbreviation resolve := (resolve self_origin base_path).
Local Abbreviation run_events := (run_events net self_origin base_path).
Local Abbreviation page_models := (resolve <$> ModelPreloader_models).

Lemma preloadWithFetch_settle_eq (ticket : nat) (url : URL) (cache : string)
      (w : World) :
  preloadWithFetch_settle net ticket url cache w
  = (Resolved (),
     match net ticket url with
     | NetResponse r => if ok r then (cache_put cache url r w).2 else w
     | NetError _ => w
     end).
Proof.
  unfold preloadWithFetch_settle, try_catch, bind, fetch_settle.
  destruct (net ticket url) as [r|e]; [|done]. destruct (ok r); [|done].
  unfold cache_put. by destruct (partial_content r).
Qed.

Lemma fetches_put_events (cache : string) (requests : list URL) :
  fetches (EvPut cache <$> requests) = [].
Proof. by induction requests. Qed.

(** What the completion of one preload changes. *)
Lemma preload_settled (ticket : nat) (url : URL) (cache : string) (w : World) :
  let w' := (preloadWithFetch_settle net ticket url cache w).2 in
  tasks w' = tasks w
  ∧ trace w' = trace w ++ (EvPut cache <$>
                             if fetched_storable net ticket url then [url] else [])
  ∧ (∀ c, is_Some (storage w' !! c) ↔ is_Some (storage w !! c))
  ∧ (∀ c u, c ≠ cache ∨ u ≠ url → cached_in c u w' = cached_in c u w)
  ∧ (is_Some (storage w !! cache) →
     cached_in cache url w'
     = after_precache net ticket url (cached_in cache url w)).
Proof.
  cbv zeta. rewrite preloadWithFetch_settle_eq. cbn [snd].
  unfold fetched_storable, after_precache.
  destruct (net ticket url) as [r|e]; [|rewrite app_nil_r; by repeat split].
  destruct (ok r) eqn:Hok.
  2:{ assert (storable r = false) as -> by (unfold storable; by rewrite Hok).
      rewrite app_nil_r. by repeat split. }
  rewrite (storable_of_ok _ Hok), cache_put_tasks, trace_put.
  split; [done|]. split; [by destruct (partial_content r)|]. split; [|split].
  - intros c. apply storage_put_is_Some.
  - intros c u Hne. apply cached_in_put_other.
    destruct Hne; [left | right]; done.
  - intros Hp. destruct (partial_content r) eqn:Hr; cbn [negb].
    + by rewrite cache_put_refused.
    + by apply cached_in_put.
Qed.

Lemma NoDup_page_models : NoDup page_models.
Proof. apply NoDup_resolve. apply (bool_decide_unpack _). by vm_compute. Qed.

Lemma uncached_sublist (cache : string) (w : World) (requests : list URL) :
  uncached cache w requests `sublist_of` requests.
Proof. apply sublist_filter. Qed.

Lemma elem_of_uncached (cache : string) (w : World) (requests : list URL)
      (u : URL) :
  u ∈ uncached cache w requests ↔ cached_in cache u w = None ∧ u ∈ requests.
Proof. unfold uncached. by rewrite list_elem_of_filter. Qed.

Lemma uncached_app (cache : string) (w : World) (l1 l2 : list URL) :
  uncached cache w (l1 ++ l2) = uncached cache w l1 ++ uncached cache w l2.
Proof. apply filter_app. Qed.

Lemma uncached_singleton (cache : string) (w : World) (u : URL) :
  uncached cache w [u]
  = match cached_in cache u w with Some _ => [] | None => [u] end.
Proof.
  unfold uncached. destruct (cached_in cache u w) eqn:Hc.
  - rewrite filter_cons_False by (by rewrite Hc). done.
  - by rewrite filter_cons_True by done.
Qed.

Lemma cached_in_storage (c : string) (u : URL) (w1 w2 : World) :
  storage w1 = storage w2 → cached_in c u w1 = cached_in c u w2.
Proof. unfold cached_in. by intros ->. Qed.

Lemma tasks_split {B} (f : Task → list B) (ts : list Task) (i : nat) (t : Task) :
  ts !! i = Some t → ts ≫= f ≡ₚ f t ++ delete i ts ≫= f.
Proof.
  intros Hi. rewrite (delete_Permutation ts i t Hi) at 1. by rewrite bind_cons.
Qed.

Lemma Forall_delete_task (Q : Task → Prop) (ts : list Task) (i : nat) :
  Forall Q ts → Forall Q (delete i ts).
Proof.
  rewrite !Forall_forall. intros H t Ht. apply H.
  by eapply list_elem_of_delete_inv.
Qed.

Section AtWork.

Variable cache : string.
Variable models : list URL.
Variable w : World.

Local Abbreviation preloading := (preloading net cache models w).
Local Abbreviation in_list_order := (in_list_order cache models w).
Local Abbreviation missing := (uncached cache w models).

(** A lookup of [u] that finds an entry. *)
Lemma preloading_found (A F : list _) (fs : list URL) (w' w'' : World)
      (u : URL) (A' : list URL) :
  preloading A F fs w' → A ≡ₚ u :: A' →
  is_Some (cached_in cache u w') →
  storage w'' = storage w' → trace w'' = trace w' →
  Forall (preloader_task cache) (tasks w'') →
  tasks w'' ≫= awaiting ≡ₚ A' →
  tasks w'' ≫= fetching ≡ₚ F →
  preloading A' F fs w''.
Proof.
  intros [] HA Hc Hst Htr Hts HA' HF.
  assert (HuA : u ∈ A) by (rewrite HA; apply elem_of_cons; by left).
  assert (Hnd : NoDup (u :: A')) by (by rewrite <- HA).
  apply NoDup_cons in Hnd as [HuA' HndA'].
  assert (Hsub : ∀ v, v ∈ A' → v ∈ A).
  { intros v Hv. rewrite HA. apply elem_of_cons. by right. }
  assert (Hu : cached_in cache u w' = cached_in cache u w).
  { apply others_kept0. right. intros Hin.
    by apply fetched_missing0 in Hin as [_ ?]. }
  split; try done.
  - by rewrite Hst.
  - by rewrite Htr.
  - intros v Hv. by apply waiting_models0, Hsub.
  - intros v. rewrite fetched_missing0. split.
    + intros [Hm Hv]. split; [done|]. intros Hin. by apply Hv, Hsub.
    + intros [Hm Hv]. split; [done|]. rewrite HA. intros [->|Hin]%elem_of_cons;
        [|done].
      apply elem_of_uncached in Hm as [Hnone _].
      rewrite Hu, Hnone in Hc. by destruct Hc.
  - intros n v Hin. rewrite (cached_in_storage _ _ _ _ Hst). by eapply started_absent0.
  - intros j v Hj Hv. rewrite (cached_in_storage _ _ _ _ Hst). by apply settled_entry0.
  - intros c v Hne. rewrite (cached_in_storage _ _ _ _ Hst). by apply others_kept0.
Qed.

(** A lookup of [u] that finds nothing: its fetch is started. *)
Lemma preloading_fetch (A F : list _) (fs : list URL) (w' w'' : World)
      (u : URL) (A' : list URL) :
  preloading A F fs w' → A ≡ₚ u :: A' →
  cached_in cache u w' = None →
  storage w'' = storage w' → trace w'' = trace w' ++ [EvFetch u] →
  Forall (preloader_task cache) (tasks w'') →
  tasks w'' ≫= awaiting ≡ₚ A' →
  tasks w'' ≫= fetching ≡ₚ F ++ [(next_ticket w', u)] →
  preloading A' (F ++ [(next_ticket w', u)]) (fs ++ [u]) w''.
Proof.
  intros [] HA Hc Hst Htr Hts HA' HF.
  assert (HuA : u ∈ A) by (rewrite HA; apply elem_of_cons; by left).
  assert (Hnd : NoDup (u :: A')) by (by rewrite <- HA).
  apply NoDup_cons in Hnd as [HuA' HndA'].
  assert (Hsub : ∀ v, v ∈ A' → v ∈ A).
  { intros v Hv. rewrite HA. apply elem_of_cons. by right. }
  assert (Hu : cached_in cache u w' = cached_in cache u w).
  { apply others_kept0. right. intros Hin.
    by apply fetched_missing0 in Hin as [_ ?]. }
  assert (Hufs : u ∉ fs).
  { intros Hin. by apply fetched_missing0 in Hin as [_ ?]. }
  assert (HuF : u ∉ F.*2).
  { intros ([n v] & Heq & Hin)%list_elem_of_fmap. simpl in Heq. subst v.
    destruct (started_ticket0 n u Hin) as (j & _ & Hj).
    apply Hufs. by eapply list_elem_of_lookup_2. }
  assert (Hnt : next_ticket w' = next_ticket w + length fs).
  { unfold next_ticket. by rewrite fetched_so_far0, length_app. }
  split.
  - by rewrite Hst.
  - done.
  - done.
  - done.
  - rewrite Htr, fetches_app, fetched_so_far0. simpl. by rewrite app_assoc.
  - done.
  - rewrite fmap_app. apply NoDup_app. split; [done|].
    split; [|apply NoDup_singleton].
    intros v Hv Hin. apply list_elem_of_singleton in Hin. by subst v.
  - apply NoDup_app. split; [done|]. split; [|apply NoDup_singleton].
    intros v Hv Hin. apply list_elem_of_singleton in Hin. by subst v.
  - intros v Hv. by apply waiting_models0, Hsub.
  - intros v. rewrite elem_of_app, list_elem_of_singleton, fetched_missing0.
    split.
    + intros [[Hm Hv]| ->].
      * split; [done|]. intros Hin. by apply Hv, Hsub.
      * split; [|done]. apply elem_of_uncached.
        split; [by rewrite <- Hu | by apply waiting_models0].
    + intros [Hm Hv]. destruct (decide (v = u)) as [->|Hne]; [by right|].
      left. split; [done|]. rewrite HA. by intros [->|?]%elem_of_cons.
  - intros n v [Hin|Hin]%elem_of_app.
    + destruct (started_ticket0 n v Hin) as (j & -> & Hj). exists j.
      split; [done|]. by apply lookup_app_l_Some.
    + apply list_elem_of_singleton in Hin. injection Hin as -> ->.
      exists (length fs). split; [done|]. by rewrite list_lookup_middle.
  - intros n v Hin. rewrite (cached_in_storage _ _ _ _ Hst).
    apply elem_of_app in Hin as [Hin|Hin]; [by eapply started_absent0|].
    apply list_elem_of_singleton in Hin. by injection Hin as -> ->.
  - intros j v Hj Hv. rewrite (cached_in_storage _ _ _ _ Hst).
    apply lookup_app_Some in Hj as [Hj|[Hlen Hj]].
    + apply settled_entry0; [done|]. intros Hin. apply Hv.
      rewrite fmap_app. apply elem_of_app. by left.
    + exfalso. apply Hv. rewrite fmap_app. apply elem_of_app. right.
      apply list_elem_of_lookup_2 in Hj. apply list_elem_of_singleton in Hj.
      subst v. by apply list_elem_of_singleton.
  - intros c v Hne. rewrite (cached_in_storage _ _ _ _ Hst).
    apply others_kept0. destruct Hne as [?|Hv]; [by left | right].
    intros Hin. apply Hv, elem_of_app. by left.
Qed.

(** The fetch of [u] with the ticket [n] completes. *)
Lemma preloading_settle (A F : list _) (fs : list URL) (w' w'' : World)
      (n : nat) (u : URL) (F' : list (nat * URL)) :
  preloading A F fs w' → F ≡ₚ (n, u) :: F' →
  (∀ c, is_Some (storage w'' !! c) ↔ is_Some (storage w' !! c)) →
  fetches (trace w'') = fetches (trace w') →
  (∀ c v, c ≠ cache ∨ v ≠ u → cached_in c v w'' = cached_in c v w') →
  cached_in cache u w'' = after_precache net n u (cached_in cache u w') →
  Forall (preloader_task cache) (tasks w'') →
  tasks w'' ≫= awaiting ≡ₚ A →
  tasks w'' ≫= fetching ≡ₚ F' →
  preloading A F' fs w''.
Proof.
  intros [] HF Hdom Htr Hother Hentry Hts HA HF'.
  assert (HinF : (n, u) ∈ F) by (rewrite HF; apply elem_of_cons; by left).
  assert (Hnd : NoDup ((n, u) :: F').*2) by (by rewrite <- HF).
  rewrite fmap_cons in Hnd. apply NoDup_cons in Hnd as [HuF' HndF'].
  simpl in HuF'.
  assert (Hsub : ∀ x, x ∈ F' → x ∈ F).
  { intros x Hx. rewrite HF. apply elem_of_cons. by right. }
  destruct (started_ticket0 n u HinF) as (j & -> & Hj).
  pose proof (started_absent0 _ _ HinF) as Hnone.
  assert (Hufs : u ∈ fs) by (by eapply list_elem_of_lookup_2).
  split; try done.
  - by apply Hdom.
  - by rewrite Htr.
  - intros n' v Hin. by apply started_ticket0, Hsub.
  - intros n' v Hin. rewrite Hother.
    + by eapply started_absent0, Hsub.
    + right. intros ->. apply HuF'. apply list_elem_of_fmap.
      by exists (n', u).
  - intros j' v Hj' Hv. destruct (decide (v = u)) as [->|Hne].
    + assert (j' = j) as ->
        by (eapply (NoDup_lookup fs); [exact fetched_once0 | exact Hj' | exact Hj]).
      by rewrite Hentry, Hnone.
    + rewrite Hother by (by right). apply settled_entry0; [done|].
      intros Hin. apply Hv. rewrite HF, fmap_cons in Hin.
      by apply elem_of_cons in Hin as [?|?].
  - intros c v Hne. destruct (decide (c = cache ∧ v = u)) as [[-> ->]|Hne2].
    + by destruct Hne.
    + rewrite Hother; [by apply others_kept0|].
      destruct (decide (c = cache)) as [->|?]; [right | by left].
      intros ->. by apply Hne2.
Qed.

Lemma ensureAllCached_next_world (urls : list URL) (w0 : World) :
  let w1 := (ensureAllCached_next cache urls w0).2 in
  storage w1 = storage w0 ∧ trace w1 = trace w0
  ∧ ∃ nxt, tasks w1 = tasks w0 ++ nxt
           ∧ nxt ≫= awaiting = urls ∧ nxt ≫= fetching = []
           ∧ Forall (preloader_task cache) nxt
           ∧ Forall (λ t, awaiting t = urls) nxt.
Proof.
  destruct urls as [|u rest]; cbv zeta; cbn [ensureAllCached_next].
  - split; [done|]. split; [done|]. exists []. by rewrite app_nil_r.
  - split; [done|]. split; [done|]. exists [TEnsure cache u rest].
    split; [done|]. cbn. rewrite app_nil_r.
    split; [done|]. split; [done|]. split; by repeat constructor.
Qed.

Lemma looked_up_world (u : URL) (w0 : World) :
  let w1 := looked_up cache u w0 in
  storage w1 = storage w0
  ∧ match cached_in cache u w0 with
    | Some _ => trace w1 = trace w0 ∧ tasks w1 = tasks w0
    | None => trace w1 = trace w0 ++ [EvFetch u]
              ∧ tasks w1 = tasks w0 ++ [TPreload (next_ticket w0) cache u]
    end.
Proof.
  cbv zeta. unfold looked_up. by destruct (cached_in cache u w0).
Qed.

(** One round of the preloader: the task at [i], which waits for the
    lookup of [u] and has [rest] to go on with, completes. *)
Lemma preloading_round (A F : list _) (fs : list URL) (w' : World)
      (i : nat) (t : Task) (u : URL) (rest : list URL) :
  preloading A F fs w' →
  tasks w' !! i = Some t → awaiting t = u :: rest → fetching t = [] →
  ∃ A' F' fs',
    preloading A' F' fs'
      (ensureAllCached_next cache rest
         (looked_up cache u (with_tasks (delete i) w'))).2.
Proof.
  intros H Hi Hta Htf.
  set (w0 := with_tasks (delete i) w').
  pose proof (Forall_delete_task _ _ i (only_preloader_tasks _ _ _ _ _ _ _ _ H))
    as Hall0.
  pose proof (tasks_split awaiting _ _ _ Hi) as HsplitA.
  pose proof (tasks_split fetching _ _ _ Hi) as HsplitF.
  rewrite Hta in HsplitA. rewrite Htf in HsplitF. cbn [app] in HsplitA, HsplitF.
  rewrite (tasks_waiting _ _ _ _ _ _ _ _ H) in HsplitA.
  rewrite (tasks_started _ _ _ _ _ _ _ _ H) in HsplitF.
  destruct (ensureAllCached_next_world rest (looked_up cache u w0))
    as (Hst2 & Htr2 & nxt & Hts2 & HnA & HnF & Hnall & _).
  destruct (looked_up_world u w0) as (Hst1 & Hlook).
  cbv zeta in *.
  set (w2 := (ensureAllCached_next cache rest (looked_up cache u w0)).2) in *.
  change (cached_in cache u w0) with (cached_in cache u w') in Hlook.
  change (tasks w0) with (delete i (tasks w')) in Hlook.
  change (trace w0) with (trace w') in Hlook.
  change (storage w0) with (storage w') in Hst1.
  change (next_ticket w0) with (next_ticket w') in Hlook.
  destruct (cached_in cache u w') as [r|] eqn:Hc; destruct Hlook as [Htr1 Hts1].
  - exists (rest ++ delete i (tasks w') ≫= awaiting), F, fs.
    eapply (preloading_found _ _ _ w' w2 u); [exact H | exact HsplitA | ..].
    + by rewrite Hc.
    + by rewrite Hst2.
    + by rewrite Htr2.
    + rewrite Hts2, Hts1. by apply Forall_app.
    + rewrite Hts2, Hts1, bind_app, HnA. apply Permutation_app_comm.
    + rewrite Hts2, Hts1, bind_app, HnF, app_nil_r. by symmetry.
  - exists (rest ++ delete i (tasks w') ≫= awaiting),
           (F ++ [(next_ticket w', u)]), (fs ++ [u]).
    eapply (preloading_fetch _ _ _ w' w2 u); [exact H | exact HsplitA | ..].
    + done.
    + by rewrite Hst2.
    + by rewrite Htr2.
    + rewrite Hts2, Hts1. apply Forall_app. split; [|done].
      apply Forall_app. split; [done|]. by repeat constructor.
    + rewrite Hts2, Hts1, !bind_app, HnA. cbn. rewrite app_nil_r.
      apply Permutation_app_comm.
    + rewrite Hts2, Hts1, !bind_app, HnF, app_nil_r. cbn.
      by rewrite <- HsplitF.
Qed.

(** Whichever pending task completes, the preloader stays at work. *)
Lemma preloading_complete (A F : list _) (fs : list URL) (w' : World)
      (i : nat) :
  preloading A F fs w' →
  ∃ A' F' fs', preloading A' F' fs' (complete net i w').
Proof.
  intros H. unfold complete.
  destruct (tasks w' !! i) as [t|] eqn:Hi; [|by eauto].
  assert (Ht : preloader_task cache t).
  { pose proof (only_preloader_tasks _ _ _ _ _ _ _ _ H) as Hall.
    rewrite Forall_forall in Hall. apply Hall.
    by eapply list_elem_of_lookup_2. }
  destruct t as [c u r|n c u cr|n c u|c u|c u rest];
    cbn [preloader_task] in Ht; try done; subst c; cbn [run_task].
  - set (w0 := with_tasks (delete i) w').
    pose proof (Forall_delete_task _ _ i
                  (only_preloader_tasks _ _ _ _ _ _ _ _ H)) as Hall0.
    pose proof (tasks_split awaiting _ _ _ Hi) as HsplitA.
    pose proof (tasks_split fetching _ _ _ Hi) as HsplitF.
    cbn [awaiting fetching app] in HsplitA, HsplitF.
    rewrite (tasks_waiting _ _ _ _ _ _ _ _ H) in HsplitA.
    rewrite (tasks_started _ _ _ _ _ _ _ _ H) in HsplitF.
    destruct (preload_settled n u cache w0)
      as (Hts & Htr & Hdom & Hother & Hentry).
    cbv zeta in *.
    exists A, (delete i (tasks w') ≫= fetching), fs.
    eapply (preloading_settle _ _ _ w' _ n u); [exact H | exact HsplitF | ..].
    + exact Hdom.
    + rewrite Htr, fetches_app, fetches_put_events. apply app_nil_r.
    + exact Hother.
    + apply Hentry. exact (partition_open _ _ _ _ _ _ _ _ H).
    + by rewrite Hts.
    + rewrite Hts. by symmetry.
    + by rewrite Hts.
  - rewrite preloadAllModels_callback_eq. cbn [snd].
    by apply (preloading_round A F fs w' i (TLookup cache u) u []).
  - rewrite ensureAllCached_round_eq. cbn [snd].
    by apply (preloading_round A F fs w' i (TEnsure cache u rest) u rest).
Qed.

Lemma preloading_schedule (order : list nat) (A F : list _) (fs : list URL)
      (w' : World) :
  preloading A F fs w' →
  ∃ A' F' fs',
    preloading A' F' fs' (run_events (TaskCompletes <$> order) w').
Proof.
  revert A F fs w'. induction order as [|i order IH]; intros A F fs w' H;
    [by eauto|].
  destruct (preloading_complete A F fs w' i H) as (A1 & F1 & fs1 & H1).
  exact (IH A1 F1 fs1 _ H1).
Qed.

(** The preloader begins: every model of its list waits for its lookup. *)
Lemma preloading_begin (w1 : World) :
  NoDup models →
  storage w1 = storage (caches_open cache w).2 → trace w1 = trace w →
  Forall (preloader_task cache) (tasks w1) →
  tasks w1 ≫= awaiting ≡ₚ models →
  tasks w1 ≫= fetching ≡ₚ [] →
  preloading models [] [] w1.
Proof.
  intros Hnd Hst Htr Hall HA HF.
  assert (Hc : ∀ c u, cached_in c u w1 = cached_in c u w).
  { intros c u. rewrite (cached_in_storage _ _ _ _ Hst). apply cached_in_open. }
  split; try done.
  - rewrite Hst. apply caches_open_storage.
  - by rewrite Htr, app_nil_r.
  - constructor.
  - constructor.
  - intros u. split; [by intros ?%elem_of_nil|].
    intros [[_ Hin]%elem_of_uncached Hout]. done.
  - intros n u Hin. by apply elem_of_nil in Hin.
  - intros n u Hin. by apply elem_of_nil in Hin.
Qed.

(** What the page can see of the preloader at work. *)
Lemma preloading_result (A F : list _) (fs : list URL) (w' : World) :
  NoDup models →
  preloading A F fs w' →
  fetches (trace w') = fetches (trace w) ++ fs
  ∧ NoDup fs
  ∧ (∀ u, u ∈ fs → u ∈ missing)
  ∧ (∀ c u, c ≠ cache ∨ u ∉ missing → cached_in c u w' = cached_in c u w)
  ∧ (tasks w' = [] →
     fs ≡ₚ missing
     ∧ ∀ j u, fs !! j = Some u →
              cached_in cache u w'
              = after_precache net (next_ticket w + j) u None).
Proof.
  intros Hnd []. split; [done|]. split; [done|]. split; [|split].
  - intros u Hu. by apply fetched_missing0 in Hu as [? _].
  - intros c u Hne. apply others_kept0.
    destruct Hne as [?|Hu]; [by left | right].
    intros Hin. by apply Hu, fetched_missing0.
  - intros Hts. rewrite Hts in tasks_waiting0, tasks_started0.
    cbn in tasks_waiting0, tasks_started0.
    apply Permutation_nil_l in tasks_waiting0, tasks_started0. subst A F.
    split.
    + apply NoDup_Permutation; [done| |].
      * eapply sublist_NoDup; [exact Hnd | apply uncached_sublist].
      * intros u. rewrite fetched_missing0. split; [by intros [? _]|].
        intros Hm. split; [done | by intros ?%elem_of_nil].
    + intros j u Hj. apply settled_entry0; [done|]. by intros ?%elem_of_nil.
Qed.

(** The loop of [ensureAllCached] keeps to the order of its list. *)
Lemma in_list_order_round (A F : list _) (fs : list URL) (w' : World)
      (i : nat) (t : Task) (u : URL) (rest : list URL) :
  preloading A F fs w' → in_list_order w' →
  tasks w' !! i = Some t → awaiting t = u :: rest →
  in_list_order
    (ensureAllCached_next cache rest
       (looked_up cache u (with_tasks (delete i) w'))).2.
Proof.
  intros H (done & waiting & Hmodels & Htr & Hts) Hi Ht.
  assert (Hw : waiting = u :: rest).
  { rewrite Forall_forall in Hts.
    destruct (Hts t) as [Hnil|Heq]; [by eapply list_elem_of_lookup_2|..];
      congruence. }
  subst waiting.
  pose proof (tasks_split awaiting _ _ _ Hi) as Hsplit. rewrite Ht in Hsplit.
  assert (Hothers : Forall (λ t', awaiting t' = []) (delete i (tasks w'))).
  { assert (Hnd : NoDup ((u :: rest) ++ delete i (tasks w') ≫= awaiting)).
    { rewrite <- Hsplit, (tasks_waiting _ _ _ _ _ _ _ _ H).
      apply (waiting_once _ _ _ _ _ _ _ _ H). }
    pose proof (Forall_delete_task _ _ i Hts) as Hts0.
    rewrite Forall_forall in Hts0. apply Forall_forall. intros t' Ht'.
    destruct (Hts0 t' Ht') as [Hnil|Heq]; [done|]. exfalso.
    apply NoDup_app in Hnd as (_ & Hdisj & _).
    apply (Hdisj u); [apply elem_of_cons; by left|].
    apply list_elem_of_bind. exists t'. rewrite Heq.
    split; [apply elem_of_cons; by left | done]. }
  assert (Hu : cached_in cache u w' = cached_in cache u w).
  { apply (others_kept _ _ _ _ _ _ _ _ H). right. intros Hin.
    apply (fetched_missing _ _ _ _ _ _ _ _ H) in Hin as [_ Hin]. apply Hin.
    rewrite <- (tasks_waiting _ _ _ _ _ _ _ _ H), Hsplit.
    apply elem_of_cons. by left. }
  set (w0 := with_tasks (delete i) w').
  destruct (ensureAllCached_next_world rest (looked_up cache u w0))
    as (Hst2 & Htr2 & nxt & Hts2 & HnA & HnF & Hnall & Hnw).
  destruct (looked_up_world u w0) as (Hst1 & Hlook).
  cbv zeta in *.
  change (cached_in cache u w0) with (cached_in cache u w') in Hlook.
  change (tasks w0) with (delete i (tasks w')) in Hlook.
  change (trace w0) with (trace w') in Hlook.
  exists (done ++ [u]), rest. split; [by rewrite <- app_assoc|].
  rewrite uncached_app, uncached_singleton, <- Hu, Htr2, Hts2.
  destruct (cached_in cache u w') as [r|]; destruct Hlook as [-> ->].
  - rewrite app_nil_r. split; [done|]. apply Forall_app. split.
    + eapply Forall_impl; [exact Hothers|]. intros t' Ht'. by left.
    + eapply Forall_impl; [exact Hnw|]. intros t' Ht'. by right.
  - rewrite fetches_app, Htr, <- app_assoc. split; [done|].
    apply Forall_app. split.
    + apply Forall_app. split; [|repeat constructor; by left].
      eapply Forall_impl; [exact Hothers|]. intros t' Ht'. by left.
    + eapply Forall_impl; [exact Hnw|]. intros t' Ht'. by right.
Qed.

Lemma in_list_order_complete (A F : list _) (fs : list URL) (w' : World)
      (i : nat) :
  preloading A F fs w' → in_list_order w' → in_list_order (complete net i w').
Proof.
  intros H Hord. unfold complete.
  destruct (tasks w' !! i) as [t|] eqn:Hi; [|done].
  destruct t as [c u r|n c u cr|n c u|c u|c u rest]; cbn [run_task].
  - pose proof (only_preloader_tasks _ _ _ _ _ _ _ _ H) as Hall.
    rewrite Forall_forall in Hall.
    by destruct (Hall _ (list_elem_of_lookup_2 _ _ _ Hi)).
  - pose proof (only_preloader_tasks _ _ _ _ _ _ _ _ H) as Hall.
    rewrite Forall_forall in Hall.
    by destruct (Hall _ (list_elem_of_lookup_2 _ _ _ Hi)).
  - destruct Hord as (done & waiting & Hmodels & Htr & Hts).
    destruct (preload_settled n u c (with_tasks (delete i) w'))
      as (Hts1 & Htr1 & _).
    cbv zeta in *. exists done, waiting. split; [done|].
    rewrite Htr1, Hts1, fetches_app, fetches_put_events, app_nil_r.
    split; [done|]. by apply Forall_delete_task.
  - rewrite preloadAllModels_callback_eq. cbn [snd].
    assert (Hc : c = cache).
    { pose proof (only_preloader_tasks _ _ _ _ _ _ _ _ H) as Hall.
      rewrite Forall_forall in Hall.
      exact (Hall _ (list_elem_of_lookup_2 _ _ _ Hi)). }
    subst c.
    by apply (in_list_order_round A F fs w' i (TLookup cache u) u []).
  - rewrite ensureAllCached_round_eq. cbn [snd].
    assert (Hc : c = cache).
    { pose proof (only_preloader_tasks _ _ _ _ _ _ _ _ H) as Hall.
      rewrite Forall_forall in Hall.
      exact (Hall _ (list_elem_of_lookup_2 _ _ _ Hi)). }
    subst c.
    by apply (in_list_order_round A F fs w' i (TEnsure cache u rest) u rest).
Qed.

Lemma in_list_order_schedule (order : list nat) (A F : list _)
      (fs : list URL) (w' : World) :
  preloading A F fs w' → in_list_order w' →
  in_list_order (run_events (TaskCompletes <$> order) w').
Proof.
  revert A F fs w'. induction order as [|i order IH]; intros A F fs w' H Hord;
    [done|].
  destruct (preloading_complete A F fs w' i H) as (A1 & F1 & fs1 & H1).
  apply (IH A1 F1 fs1 _ H1). by eapply in_list_order_complete.
Qed.

Lemma in_list_order_result (A F : list _) (fs : list URL) (w' : World) :
  NoDup models →
  preloading A F fs w' → in_list_order w' →
  fs `prefix_of` missing ∧ (tasks w' = [] → fs = missing).
Proof.
  intros Hnd H (done & waiting & Hmodels & Htr & Hts).
  destruct (preloading_result A F fs w' Hnd H) as (Htr' & _ & _ & _ & Hend).
  rewrite Htr' in Htr. apply app_inv_head in Htr. subst fs.
  assert (Hpre : uncached cache w done `prefix_of` missing).
  { rewrite Hmodels, uncached_app. by apply prefix_app_r. }
  split; [done|]. intros Hempty. destruct (Hend Hempty) as [Hperm _].
  apply prefix_length_eq; [done|]. by rewrite Hperm.
Qed.

End AtWork.

Lemma settle_run_events (fuel : nat) (w : World) :
  settle net fuel w = run_events (TaskCompletes <$> replicate fuel 0) w.
Proof.
  revert w. induction fuel as [|fuel IH]; intros w; [done|].
  cbn [settle replicate fmap list_fmap]. by rewrite IH.
Qed.

Lemma run_events_app (evs1 evs2 : list Event) (w : World) :
  run_events (evs1 ++ evs2) w = run_events evs2 (run_events evs1 w).
Proof. apply foldl_app. Qed.

(** Whatever has completed, the rest can complete. *)
Lemma can_finish (order : list nat) (w : World) :
  ∃ more, tasks (run_events (TaskCompletes <$> order ++ more) w) = [].
Proof.
  exists (replicate (pending_weight (run_events (TaskCompletes <$> order) w)) 0).
  rewrite fmap_app, run_events_app, <- settle_run_events.
  by apply settle_done.
Qed.

Lemma spawn_all {A} (f : A → Task) (xs : list A) (w : World) :
  for_each xs (λ x, spawn (f x)) w
  = (Resolved (), with_tasks (λ ts, ts ++ (f <$> xs)) w).
Proof.
  revert w. induction xs as [|x xs IH]; intros w.
  - cbn. unfold ret, with_tasks. by rewrite app_nil_r, world_eta.
  - cbn [for_each]. unfold bind at 1. unfold spawn at 1. rewrite IH.
    unfold with_tasks. cbn. by rewrite <- app_assoc.
Qed.

Lemma preloadAllModels_eq (w : World) :
  preloadAllModels self_origin base_path true w
  = (Resolved (),
     with_tasks (λ ts, ts ++ (TLookup (models CACHE_NAMES) <$> page_models))
                (caches_open (models CACHE_NAMES) w).2).
Proof.
  unfold preloadAllModels. cbn [negb].
  change "penta-3d-models-v1" with (models CACHE_NAMES).
  unfold try_catch. unfold bind at 1. rewrite caches_open_eq.
  by rewrite spawn_all, <- list_fmap_compose.
Qed.

Lemma ensureAllCached_eq (w : World) :
  ensureAllCached self_origin base_path true w
  = (Resolved (),
     (ensureAllCached_next (models CACHE_NAMES) page_models
                           (caches_open (models CACHE_NAMES) w).2).2).
Proof.
  unfold ensureAllCached. cbn [negb].
  change "penta-3d-models-v1" with (models CACHE_NAMES).
  unfold bind at 1. by rewrite caches_open_eq.
Qed.

Lemma lookups_awaiting (cache : string) (urls : list URL) :
  (TLookup cache <$> urls) ≫= awaiting = urls.
Proof. induction urls as [|u rest IH]; [done|]. cbn. by rewrite IH. Qed.

Lemma lookups_fetching (cache : string) (urls : list URL) :
  (TLookup cache <$> urls) ≫= fetching = [].
Proof. induction urls as [|u rest IH]; [done|]. cbn. by rewrite IH. Qed.

(** The preloader is at work once [preloadAllModels] has been called. *)
Lemma preloadAllModels_preloading (w : World) :
  tasks w = [] →
  preloading net (models CACHE_NAMES) page_models w page_models [] []
             (preloadAllModels self_origin base_path true w).2.
Proof.
  intros Hts. rewrite preloadAllModels_eq. cbn [snd].
  apply preloading_begin; [apply NoDup_page_models | done | done | ..];
    cbn [tasks with_tasks]; rewrite caches_open_tasks, Hts; cbn [app].
  - apply Forall_fmap, Forall_forall. by intros u _.
  - by rewrite lookups_awaiting.
  - by rewrite lookups_fetching.
Qed.

(** It is at work, and in the order of its list, once [ensureAllCached]
    has been called. *)
Lemma ensureAllCached_preloading (w : World) :
  tasks w = [] →
  let w1 := (ensureAllCached self_origin base_path true w).2 in
  preloading net (models CACHE_NAMES) page_models w page_models [] [] w1
  ∧ in_list_order (models CACHE_NAMES) page_models w w1.
Proof.
  intros Hts. cbv zeta. rewrite ensureAllCached_eq. cbn [snd].
  destruct (ensureAllCached_next_world (models CACHE_NAMES) page_models
              (caches_open (models CACHE_NAMES) w).2)
    as (Hst & Htr & nxt & Hts1 & HnA & HnF & Hnall & Hnw).
  cbv zeta in *. rewrite caches_open_tasks, Hts in Hts1. cbn [app] in Hts1.
  split.
  - apply preloading_begin; [apply NoDup_page_models | done | done | ..];
      rewrite Hts1; [done | by rewrite HnA | by rewrite HnF].
  - exists [], page_models. split; [done|]. rewrite Htr, Hts1.
    split; [by rewrite app_nil_r|].
    eapply Forall_impl; [exact Hnw|]. intros t' Ht'. by right.
Qed.

(** X11: on a browser without the Cache API [preloadAllModels] does
    nothing.  With it, when nothing is pending at the call, the call
    leaves one lookup pending for every model of its list and has fetched
    nothing yet.  From then on, in whatever order the lookups and the
    fetches complete, and while nothing else happens: every fetch is for
    a model of the list that had no entry at the call, and no model is
    fetched twice; the entries that were there stay as they are and no
    other partition is touched; what is pending can always complete; and
    when nothing is pending any more, every model that had no entry has
    been fetched exactly once and holds the response of its fetch if that
    was ok and not partial, and is absent otherwise. *)
Theorem X11_preloadAllModels_in_any_completion_order
        (w : World) (order : list nat) :
  tasks w = [] →
  let cache := models CACHE_NAMES in
  let missing := uncached cache w page_models in
  let w1 := (preloadAllModels self_origin base_path true w).2 in
  let w' := run_events (TaskCompletes <$> order) w1 in
  preloadAllModels self_origin base_path false w = (Resolved (), w)
  ∧ (preloadAllModels self_origin base_path true w).1 = Resolved ()
  ∧ trace w1 = trace w
  ∧ tasks w1 = TLookup cache <$> page_models
  ∧ (∃ fetched,
       fetches (trace w') = fetches (trace w) ++ fetched
       ∧ NoDup fetched
       ∧ (∀ u, u ∈ fetched → u ∈ missing)
       ∧ (tasks w' = [] →
          fetched ≡ₚ missing
          ∧ ∀ j u, fetched !! j = Some u →
                   cached_in cache u w'
                   = after_precache net (next_ticket w + j) u None))
  ∧ (∀ c u, c ≠ cache ∨ u ∉ missing → cached_in c u w' = cached_in c u w)
  ∧ (∃ more, tasks (run_events (TaskCompletes <$> order ++ more) w1) = []).
Proof.
  intros Hts. cbv zeta.
  pose proof (preloadAllModels_preloading w Hts) as H1.
  destruct (preloading_schedule _ _ _ order _ _ _ _ H1) as (A & F & fs & H').
  destruct (preloading_result _ _ _ A F fs _ NoDup_page_models H')
    as (Htr & Hnd & Hsub & Hkept & Hend).
  split; [done|]. rewrite preloadAllModels_eq in *. cbn [fst snd] in *.
  split; [done|]. split; [done|].
  split; [cbn [tasks with_tasks]; by rewrite caches_open_tasks, Hts|].
  split; [by exists fs|]. split; [done|]. apply can_finish.
Qed.

(** X12: on a browser without the Cache API [ensureAllCached] does
    nothing.  With it, when nothing is pending at the call, the call
    leaves the lookup of the first model of its list pending and has
    fetched nothing yet.  From then on, in whatever order the rounds of
    the loop and the fetches they started complete, and while nothing
    else happens: the fetches are started in the order of the list, one
    for each model that had no entry at the call, so that what has been
    fetched so far is the beginning of that list; the entries that were
    there stay as they are and no other partition is touched; what is
    pending can always complete; and when nothing is pending any more,
    every such model has been fetched and holds the response of its fetch
    if that was ok and not partial, and is absent otherwise. *)
Theorem X12_ensureAllCached_in_list_order (w : World) (order : list nat) :
  tasks w = [] →
  let cache := models CACHE_NAMES in
  let missing := uncached cache w page_models in
  let w1 := (ensureAllCached self_origin base_path true w).2 in
  let w' := run_events (TaskCompletes <$> order) w1 in
  ensureAllCached self_origin base_path false w = (Resolved (), w)
  ∧ (ensureAllCached self_origin base_path true w).1 = Resolved ()
  ∧ trace w1 = trace w
  ∧ (∃ first rest, page_models = first :: rest
                   ∧ tasks w1 = [TEnsure cache first rest])
  ∧ (∃ fetched,
       fetches (trace w') = fetches (trace w) ++ fetched
       ∧ fetched `prefix_of` missing
       ∧ (tasks w' = [] →
          fetched = missing
          ∧ ∀ j u, missing !! j = Some u →
                   cached_in cache u w'
                   = after_precache net (next_ticket w + j) u None))
  ∧ (∀ c u, c ≠ cache ∨ u ∉ missing → cached_in c u w' = cached_in c u w)
  ∧ (∃ more, tasks (run_events (TaskCompletes <$> order ++ more) w1) = []).
Proof.
  intros Hts. cbv zeta.
  destruct (ensureAllCached_preloading w Hts) as [H1 Hord1].
  cbv zeta in H1, Hord1.
  destruct (preloading_schedule _ _ _ order _ _ _ _ H1) as (A & F & fs & H').
  pose proof (in_list_order_schedule _ _ _ order _ _ _ _ H1 Hord1) as Hord'.
  destruct (preloading_result _ _ _ A F fs _ NoDup_page_models H')
    as (Htr & Hnd & Hsub & Hkept & Hend).
  destruct (in_list_order_result _ _ _ A F fs _ NoDup_page_models H' Hord')
    as (Hpre & Hall).
  split; [done|]. rewrite ensureAllCached_eq in *. cbn [fst snd] in *.
  split; [done|]. split; [done|]. split.
  { exists (resolve "./assets/3d/logo_3d_just_icon.glb"), (resolve <$> [
      "./assets/3d/staff.glb"; "./assets/3d/corparete_event.glb";
      "./assets/3d/technical.glb"; "./assets/3d/transfer.glb";
      "./assets/3d/decoration.glb"]).
    split; [done|]. cbn [ensureAllCached_next ModelPreloader_models fmap
                         list_fmap spawn snd tasks with_tasks].
    by rewrite caches_open_tasks, Hts. }
  split; [|split; [done | apply can_finish]].
  exists fs. split; [done|]. split; [done|]. intros Hempty.
  destruct (Hend Hempty) as [_ Hentry]. specialize (Hall Hempty). subst fs.
  by split.
Qed.

(** X13: the page and the worker share the model partition.  When
    nothing was pending at the call of [preloadAllModels] and what it
    left pending has completed, in whatever order, an asset of the
    worker's manifest whose fetches are answered with an ok response that
    is not partial is answered by the fetch listener from the partition
    when the page then requests it, without a fetch. *)
Theorem X13_page_preload_feeds_the_worker
        (w : World) (order : list nat) (model : string) :
  tasks w = [] →
  model ∈ MODEL_ASSETS →
  (∀ t, fetched_storable net t (resolve model) = true) →
  let w' := run_events (TaskCompletes <$> order)
                       (preloadAllModels self_origin base_path true w).2 in
  tasks w' = [] →
  ∃ r, onfetch net self_origin (resolve model) w'
       = (RespondWith (Resolved (Some r)), w').
Proof.
  intros Hts Hin Hnet. cbv zeta. intros Hempty.
  assert (Hpage : resolve model ∈ page_models).
  { apply list_elem_of_fmap. exists model. split; [done|].
    unfold MODEL_ASSETS in Hin.
    repeat (apply elem_of_cons in Hin as [->|Hin]);
      [.. | by apply elem_of_nil in Hin];
      apply (bool_decide_unpack _); by vm_compute. }
  pose proof (preloadAllModels_preloading w Hts) as H1.
  destruct (preloading_schedule _ _ _ order _ _ _ _ H1) as (A & F & fs & H').
  destruct (preloading_result _ _ _ A F fs _ NoDup_page_models H')
    as (_ & _ & _ & Hkept & Hend).
  destruct (Hend Hempty) as [Hperm Hentry].
  set (w' := run_events _ _) in *.
  assert (Hc : is_Some (cached_in (models CACHE_NAMES) (resolve model) w')).
  { destruct (cached_in (models CACHE_NAMES) (resolve model) w) as [r|] eqn:Hw.
    - rewrite Hkept; [by rewrite Hw|]. right.
      intros [Hnone _]%elem_of_uncached. by rewrite Hw in Hnone.
    - assert (Hfs : resolve model ∈ fs).
      { rewrite Hperm. by apply elem_of_uncached. }
      apply list_elem_of_lookup in Hfs as [j Hj].
      rewrite (Hentry j _ Hj). by apply after_precache_is_Some. }
  destruct Hc as [r Hc]. exists r.
  rewrite onfetch_model; [|done | by apply manifest_model_class].
  unfold respondWith. by rewrite (cacheFirst_hit _ _ _ _ _ Hc).
Qed.

End PagePreloader.

(** ** Further scenarios *)

(** A message of an unknown kind is dropped; a clear is acknowledged. *)
Lemma X1_witness_ping_and_clear :
  onmessage net_up site "/" (mkMessageData "PING") world_with_css
  = ([], world_with_css)
  ∧ (onmessage net_up site "/" (mkMessageData "CLEAR_CACHE") world_with_css).1
    = [SuccessReply true].
Proof.
  destruct (X1_onmessage_one_reply_per_known_kind
              net_up site "/" (mkMessageData "PING") world_with_css)
    as (_ & _ & _ & Hother).
  destruct (X1_onmessage_one_reply_per_known_kind
              net_up site "/" (mkMessageData "CLEAR_CACHE") world_with_css)
    as (_ & Hclear & _).
  split.
  - apply Hother; discriminate.
  - apply Hclear. reflexivity.
Defined.

(** A forced preload on an empty storage fetches the staff model. *)
Lemma X3_witness_preload_from_empty :
  ∃ t, cached_in (models CACHE_NAMES) staff_glb
                 (preloadModels net_up site "/" initial_world).2
       = after_precache net_up t staff_glb None.
Proof.
  destruct (X3_preloadModels_fetches_only_missing net_up site "/" initial_world)
    as (_ & _ & _ & _ & Hmissing & _).
  apply (Hmissing "./assets/3d/staff.glb").
  - apply (bool_decide_unpack _). vm_compute. exact I.
  - reflexivity.
Defined.

(** After one forced preload on a working network a second one is idle. *)
Lemma X4_witness_second_preload_idle :
  let w1 := (preloadModels net_up site "/" initial_world).2 in
  preloadModels net_up site "/" w1 = (Resolved (), w1).
Proof.
  apply (proj2 (X4_preloadModels_complete_then_idle
                  net_up site "/" initial_world)).
  intros t model _. reflexivity.
Defined.

(** The index page fetched online is what the next visit gets offline. *)
Lemma X5_witness_index_offline :
  let w1 := complete net_first_only 0
              (networkFirst net_first_only index_html (runtime CACHE_NAMES)
                            initial_world).2 in
  (networkFirst net_first_only index_html (runtime CACHE_NAMES) w1).1
  = Resolved (mkResponse 200 "/index.html").
Proof.
  apply (proj1 (proj2 (proj2 (X5_networkFirst_online_then_offline
                                net_first_only index_html (runtime CACHE_NAMES)
                                initial_world (mkResponse 200 "/index.html")
                                eq_refl eq_refl)))
               "TypeError: Failed to fetch").
  reflexivity.
Defined.

(** The stale style sheet is served now, the fresh one next time. *)
Lemma X6_witness_css_refreshed :
  let w2 := complete net_up 0 (complete net_up 0
              (staleWhileRevalidate net_up main_css (static CACHE_NAMES)
                                    world_with_css).2) in
  (staleWhileRevalidate net_up main_css (static CACHE_NAMES) world_with_css).1
  = Resolved (Some stale_css)
  ∧ (staleWhileRevalidate net_up main_css (static CACHE_NAMES) w2).1
    = Resolved (Some (mkResponse 200 "/assets/css/main.css")).
Proof.
  exact (X6_staleWhileRevalidate_fresh_next_time
           net_up main_css (static CACHE_NAMES) world_with_css stale_css
           (mkResponse 200 "/assets/css/main.css") eq_refl eq_refl eq_refl).
Defined.

(** A first request for the staff model costs one fetch; a request to
    another origin costs the worker none. *)
Lemma X7_witness_network_usage :
  fetches (trace (onfetch net_up site staff_glb initial_world).2) = [staff_glb]
  ∧ fetches (trace (onfetch net_up site
                            (mkURL "https://cdn.example" "/lib.js")
                            initial_world).2) = [].
Proof.
  destruct (X7_onfetch_network_usage net_up site staff_glb initial_world)
    as (_ & Hmodel & _).
  destruct (X7_onfetch_network_usage
              net_up site (mkURL "https://cdn.example" "/lib.js")
              initial_world) as (Hcross & _).
  split.
  - apply Hmodel; [reflexivity|]. left. by exists "/assets/3d/staff".
  - apply Hcross. discriminate.
Defined.

(** Two of the six models fail at install: the status counts four. *)
Lemma X9_witness_four_of_six :
  ∃ status,
    (onmessage net_two_models_down site "/" (mkMessageData "CACHE_STATUS")
               (install net_two_models_down site "/" initial_world).2).1
    = [StatusReply status]
    ∧ cachedCount status = 4.
Proof.
  destruct (X9_status_after_install_counts_stored_models
              net_two_models_down site "/" initial_world)
    as (status & Hreply & Hcount & _).
  - intros u. reflexivity.
  - exists status. split; [exact Hreply|]. rewrite Hcount. reflexivity.
Defined.

(** The staff model cached at install is served after activation. *)
Lemma X10_witness_staff_after_activate :
  let w2 := (activate (install net_up site "/" initial_world).2).2 in
  onfetch net_up site staff_glb w2
  = (RespondWith (Resolved (Some (mkResponse 200 "/assets/3d/staff.glb"))), w2).
Proof.
  exact (X10_installed_model_is_served_from_cache
           net_up site "/" initial_world 3 "./assets/3d/staff.glb"
           (mkResponse 200 "/assets/3d/staff.glb") eq_refl eq_refl eq_refl).
Defined.

(** The lookup of the last model of the list is answered first and its
    fetch completes before the other lookups are answered: the last model
    is the first to be fetched, and every model is stored in the end. *)
Lemma X11_witness_last_model_first :
  let w' := run_events net_up site "/"
              (TaskCompletes <$> [5; 5; 0; 0; 0; 0; 0; 0; 0; 0; 0; 0])
              (preloadAllModels site "/" true initial_world).2 in
  tasks w' = []
  ∧ head (fetches (trace w')) = Some (mkURL site "/assets/3d/decoration.glb")
  ∧ cached_in (models CACHE_NAMES) staff_glb w'
    = Some (mkResponse 200 "/assets/3d/staff.glb").
Proof.
  cbv zeta.
  destruct (X11_preloadAllModels_in_any_completion_order
              net_up site "/" initial_world
              [5; 5; 0; 0; 0; 0; 0; 0; 0; 0; 0; 0] eq_refl)
    as (_ & _ & _ & _ & (fetched & Htr & _ & _ & Hend) & _).
  assert (Hempty : tasks (run_events net_up site "/"
                            (TaskCompletes <$> [5; 5; 0; 0; 0; 0; 0; 0; 0; 0; 0; 0])
                            (preloadAllModels site "/" true initial_world).2)
                   = []) by (vm_compute; reflexivity).
  destruct (Hend Hempty) as [_ Hentry].
  split; [exact Hempty|]. split; [vm_compute; reflexivity|].
  vm_compute in Htr. subst fetched.
  exact (Hentry 2 staff_glb eq_refl).
Defined.

(** Every fetch of the idle-time loop completes before the next lookup is
    answered: the first model is written before the fetch of the second
    one starts, and the models are fetched in the order of the list. *)
Lemma X12_witness_write_before_next_fetch :
  let w' := run_events net_up site "/" (TaskCompletes <$> replicate 12 0)
              (ensureAllCached site "/" true initial_world).2 in
  tasks w' = []
  ∧ take 3 (trace w')
    = [EvFetch (mkURL site "/assets/3d/logo_3d_just_icon.glb");
       EvPut (models CACHE_NAMES) (mkURL site "/assets/3d/logo_3d_just_icon.glb");
       EvFetch staff_glb]
  ∧ cached_in (models CACHE_NAMES) staff_glb w'
    = Some (mkResponse 200 "/assets/3d/staff.glb").
Proof.
  cbv zeta.
  destruct (X12_ensureAllCached_in_list_order
              net_up site "/" initial_world (replicate 12 0) eq_refl)
    as (_ & _ & _ & _ & (fetched & _ & _ & Hend) & _).
  assert (Hempty : tasks (run_events net_up site "/"
                            (TaskCompletes <$> replicate 12 0)
                            (ensureAllCached site "/" true initial_world).2)
                   = []) by (vm_compute; reflexivity).
  destruct (Hend Hempty) as [_ Hentry].
  split; [exact Hempty|]. split; [vm_compute; reflexivity|].
  apply (Hentry 1 staff_glb). vm_compute. reflexivity.
Defined.

(** After the page-side preload has completed the worker serves the staff
    model from the partition. *)
Lemma X13_witness_worker_serves_preloaded :
  let w' := run_events net_up site "/" (TaskCompletes <$> replicate 12 0)
              (preloadAllModels site "/" true initial_world).2 in
  ∃ r, onfetch net_up site staff_glb w' = (RespondWith (Resolved (Some r)), w').
Proof.
  apply (X13_page_preload_feeds_the_worker
           net_up site "/" initial_world (replicate 12 0)
           "./assets/3d/staff.glb").
  - reflexivity.
  - apply (bool_decide_unpack _). vm_compute. exact I.
  - intros t. reflexivity.
  - vm_compute. reflexivity.
Defined.

(** ** The testimonials carousel *)

Section CarouselFacts.

Import Carousel.

Lemma marks_lookup (n : nat) (index : Z) (i : nat) :
  marks n index !! i
  = if decide (i < n) then Some (bool_decide (Z.of_nat i = index)) else None.
Proof.
  unfold marks. rewrite list_lookup_fmap. case_decide as Hi.
  - by rewrite lookup_seq_lt.
  - by rewrite lookup_seq_ge by lia.
Qed.

Lemma showSlide_consistent (index : Z) (s : State) :
  carousel_consistent s → carousel_consistent (showSlide index s).
Proof.
  intros (Hn & Hc & _ & _ & _ & _ & Hi & Hid).
  unfold carousel_consistent, showSlide. cbv zeta.
  set (first := if (index <? 0)%Z then _ else _).
  set (shown := if (Z.of_nat (slides s) <=? first)%Z then _ else _).
  assert (Hshown : (0 ≤ shown < Z.of_nat (slides s))%Z).
  { subst shown first. destruct (index <? 0)%Z eqn:E1;
      destruct (Z.of_nat (slides s) <=? _)%Z eqn:E2; lia. }
  clearbody shown. cbn. split_and!; done || lia.
Qed.

Lemma stopAutoplay_consistent (s : State) :
  carousel_consistent s →
  carousel_consistent (stopAutoplay s) ∧ intervals (stopAutoplay s) = [].
Proof.
  intros (Hn & Hc & Hsa & Hsh & Hda & Hds & Hi & Hid).
  unfold stopAutoplay.
  destruct (autoplayInterval s) as [id|] eqn:Ha; cbn [truthy].
  - destruct (Hid id eq_refl) as [Hpos _].
    destruct (Nat.eqb_spec id 0) as [->|_]; [lia|]. cbn [negb].
    assert (Hclear : clearInterval (Some id) (intervals s) = []).
    { rewrite Hi. cbn [clearInterval].
      by rewrite filter_cons_False, filter_nil by (by intros ?). }
    split; [|exact Hclear]. unfold carousel_consistent.
    cbn -[clearInterval marks]. rewrite Hclear. split_and!; done || lia.
  - split; [|by rewrite Hi]. unfold carousel_consistent. rewrite Ha.
    split_and!; done || lia.
Qed.

Lemma stopAutoplay_forgets (s : State) :
  carousel_consistent s → autoplayInterval (stopAutoplay s) = None.
Proof.
  intros (_ & _ & _ & _ & _ & _ & _ & Hid). unfold stopAutoplay.
  destruct (autoplayInterval s) as [id|] eqn:Ha; cbn [truthy];
    [|by rewrite Ha].
  destruct (Hid id eq_refl) as [Hpos _].
  by destruct (Nat.eqb_spec id 0) as [->|_]; [lia|].
Qed.

Lemma startAutoplay_consistent (s : State) :
  carousel_consistent s → carousel_consistent (startAutoplay s).
Proof.
  intros Hs. destruct (stopAutoplay_consistent s Hs) as [Hstop Hnone].
  destruct Hstop as (Hn & Hc & Hsa & Hsh & Hda & Hds & Hi & Hid).
  unfold startAutoplay, carousel_consistent. cbn.
  rewrite Hnone. split_and!; try (done || lia).
  intros id [= <-]. lia.
Qed.

Lemma setTouch_consistent (x : Z) (s : State) :
  carousel_consistent s →
  carousel_consistent (setTouchStartX x s)
  ∧ carousel_consistent (setTouchEndX x s).
Proof. intros Hs. split; exact Hs. Qed.

Lemma handleSwipe_consistent (s : State) :
  carousel_consistent s → carousel_consistent (handleSwipe s).
Proof.
  intros Hs. unfold handleSwipe. cbv zeta.
  destruct (50 <? _)%Z; [|done].
  destruct (0 <? _)%Z; by apply showSlide_consistent.
Qed.

Lemma handle_consistent (ev : Event) (s : State) :
  carousel_consistent s → carousel_consistent (handle ev s).
Proof.
  intros Hs. destruct ev as [| |i| | |key|x|x|id]; cbn [handle].
  - apply startAutoplay_consistent, showSlide_consistent.
    by apply stopAutoplay_consistent.
  - apply startAutoplay_consistent, showSlide_consistent.
    by apply stopAutoplay_consistent.
  - destruct (i <? dots s); [|done].
    apply startAutoplay_consistent, showSlide_consistent.
    by apply stopAutoplay_consistent.
  - by apply stopAutoplay_consistent.
  - by apply startAutoplay_consistent.
  - destruct (String.eqb key "ArrowLeft").
    { apply startAutoplay_consistent, showSlide_consistent.
      by apply stopAutoplay_consistent. }
    destruct (String.eqb key "ArrowRight"); [|done].
    apply startAutoplay_consistent, showSlide_consistent.
    by apply stopAutoplay_consistent.
  - apply stopAutoplay_consistent. by apply setTouch_consistent.
  - apply startAutoplay_consistent, handleSwipe_consistent.
    by apply setTouch_consistent.
  - case_bool_decide; [|done]. by apply showSlide_consistent.
Qed.

Lemma init_consistent (slideCount dotCount timerIds0 : nat) (s0 : State) :
  initTestimonials slideCount dotCount timerIds0 = Some s0 →
  carousel_consistent s0 ∧ slides s0 = slideCount ∧ dots s0 = dotCount.
Proof.
  unfold initTestimonials.
  destruct (Nat.eqb_spec slideCount 0) as [|Hn]; [done|]. intros [= <-].
  split; [|done]. unfold carousel_consistent. cbn.
  assert (Hz : (Z.of_nat slideCount <=? 0)%Z = false) by lia.
  rewrite Hz. split_and!; try done; try lia.
  intros id [= <-]. lia.
Qed.

Lemma stopAutoplay_counts (s : State) :
  slides (stopAutoplay s) = slides s ∧ dots (stopAutoplay s) = dots s.
Proof. unfold stopAutoplay. by destruct (truthy _). Qed.

Lemma startAutoplay_counts (s : State) :
  slides (startAutoplay s) = slides s ∧ dots (startAutoplay s) = dots s.
Proof. unfold startAutoplay. cbn. apply stopAutoplay_counts. Qed.

Lemma handleSwipe_counts (s : State) :
  slides (handleSwipe s) = slides s ∧ dots (handleSwipe s) = dots s.
Proof.
  unfold handleSwipe. cbv zeta.
  destruct (50 <? _)%Z; [|done]. by destruct (0 <? _)%Z.
Qed.

Lemma restart_counts (index : Z) (s : State) :
  slides (startAutoplay (showSlide index (stopAutoplay s))) = slides s
  ∧ dots (startAutoplay (showSlide index (stopAutoplay s))) = dots s.
Proof.
  destruct (startAutoplay_counts (showSlide index (stopAutoplay s)))
    as [-> ->].
  apply (stopAutoplay_counts s).
Qed.

Lemma handle_counts (ev : Event) (s : State) :
  slides (handle ev s) = slides s ∧ dots (handle ev s) = dots s.
Proof.
  destruct ev as [| |i| | |key|x|x|id]; cbn [handle].
  - apply restart_counts.
  - apply restart_counts.
  - destruct (i <? dots s); [apply restart_counts | done].
  - apply stopAutoplay_counts.
  - apply startAutoplay_counts.
  - destruct (String.eqb key "ArrowLeft"); [apply restart_counts|].
    destruct (String.eqb key "ArrowRight"); [apply restart_counts | done].
  - apply (stopAutoplay_counts (setTouchStartX x s)).
  - destruct (startAutoplay_counts (handleSwipe (setTouchEndX x s)))
      as [-> ->].
    apply (handleSwipe_counts (setTouchEndX x s)).
  - by case_bool_decide.
Qed.

(** X14: however the carousel is clicked, hovered, swiped, driven by keys
    or by its timer after [initTestimonials] has set it up, the current
    slide exists, it is the one and only slide marked active (and the only
    one not hidden), and at most one autoplay interval is alive, namely
    the one whose id the closure remembers: no timer leaks. *)
Theorem X14_carousel_stays_consistent
        (slideCount dotCount timerIds0 : nat) (s0 : State) (evs : list Event) :
  initTestimonials slideCount dotCount timerIds0 = Some s0 →
  let s := foldl (λ s ev, handle ev s) s0 evs in
  (0 ≤ currentSlide s < Z.of_nat slideCount)%Z
  ∧ (∀ i, slideActive s !! i = Some true
          ↔ i < slideCount ∧ Z.of_nat i = currentSlide s)
  ∧ (∀ i, slideHidden s !! i = Some false
          ↔ i < slideCount ∧ Z.of_nat i = currentSlide s)
  ∧ intervals s = match autoplayInterval s with
                  | Some id => [id]
                  | None => []
                  end.
Proof.
  intros Hinit. cbv zeta.
  destruct (init_consistent _ _ _ _ Hinit) as (H0 & Hn0 & _).
  assert (Hall : carousel_consistent (foldl (λ s ev, handle ev s) s0 evs)
                 ∧ slides (foldl (λ s ev, handle ev s) s0 evs) = slideCount).
  { clear Hinit. revert s0 H0 Hn0.
    induction evs as [|ev evs IH]; intros s0 H0 Hn0; [done|].
    cbn [foldl]. apply IH; [by apply handle_consistent|].
    by rewrite (proj1 (handle_counts ev s0)). }
  destruct Hall as ((Hn & Hc & Hsa & Hsh & _ & _ & Hi & _) & Hcount).
  rewrite Hcount in Hc, Hsa, Hsh.
  split; [done|]. split; [|split; [|done]].
  - intros i. rewrite Hsa, marks_lookup. case_decide as Hlt.
    + split.
      * intros [= Heq%bool_decide_eq_true]. done.
      * intros [_ Heq]. by rewrite bool_decide_true.
    + split; [done | by intros [? _]].
  - intros i. rewrite Hsh, list_lookup_fmap, marks_lookup.
    case_decide as Hlt; cbn.
    + split.
      * intros [= Heq%negb_false_iff%bool_decide_eq_true]. done.
      * intros [_ Heq]. by rewrite bool_decide_true.
    + split; [done | by intros [? _]].
Qed.

Lemma nextSlide_mod (s : State) :
  0 < slides s →
  (0 ≤ currentSlide s < Z.of_nat (slides s))%Z →
  currentSlide (nextSlide s)
  = ((currentSlide s + 1) mod Z.of_nat (slides s))%Z
  ∧ slides (nextSlide s) = slides s.
Proof.
  intros Hn Hc. split; [|done]. unfold nextSlide, showSlide. cbn.
  destruct (currentSlide s + 1 <? 0)%Z eqn:E1; [lia|].
  destruct (Z.of_nat (slides s) <=? currentSlide s + 1)%Z eqn:E2.
  - assert (currentSlide s + 1 = Z.of_nat (slides s))%Z as -> by lia.
    by rewrite Z_mod_same_full.
  - rewrite Z.mod_small; lia.
Qed.

Lemma prevSlide_mod (s : State) :
  0 < slides s →
  (0 ≤ currentSlide s < Z.of_nat (slides s))%Z →
  currentSlide (prevSlide s)
  = ((currentSlide s - 1) mod Z.of_nat (slides s))%Z
  ∧ slides (prevSlide s) = slides s.
Proof.
  intros Hn Hc. split; [|done]. unfold prevSlide, showSlide. cbn.
  destruct (currentSlide s - 1 <? 0)%Z eqn:E1.
  - assert (currentSlide s = 0)%Z as -> by lia.
    destruct (Z.of_nat (slides s) <=? Z.of_nat (slides s) - 1)%Z eqn:E2;
      [lia|].
    replace (0 - 1)%Z with (-1)%Z by lia.
    apply Z.mod_unique with (q := (-1)%Z); lia.
  - destruct (Z.of_nat (slides s) <=? currentSlide s - 1)%Z eqn:E2; [lia|].
    rewrite Z.mod_small; lia.
Qed.

Lemma iter_nextSlide (k : nat) (s : State) :
  0 < slides s →
  (0 ≤ currentSlide s < Z.of_nat (slides s))%Z →
  currentSlide (Nat.iter k nextSlide s)
  = ((currentSlide s + Z.of_nat k) mod Z.of_nat (slides s))%Z
  ∧ slides (Nat.iter k nextSlide s) = slides s.
Proof.
  intros Hn Hc. induction k as [|k [IHc IHn]].
  - cbn. split; [|done]. rewrite Z.add_0_r, Z.mod_small; lia.
  - rewrite Nat.iter_succ.
    assert (Hin : (0 ≤ currentSlide (Nat.iter k nextSlide s)
                   < Z.of_nat (slides (Nat.iter k nextSlide s)))%Z).
    { rewrite IHc, IHn. apply Z.mod_pos_bound. lia. }
    destruct (nextSlide_mod (Nat.iter k nextSlide s)) as [-> ->];
      [lia | done |].
    split; [|done]. rewrite IHc, IHn, Zplus_mod_idemp_l.
    f_equal. lia.
Qed.

Lemma iter_prevSlide (k : nat) (s : State) :
  0 < slides s →
  (0 ≤ currentSlide s < Z.of_nat (slides s))%Z →
  currentSlide (Nat.iter k prevSlide s)
  = ((currentSlide s - Z.of_nat k) mod Z.of_nat (slides s))%Z
  ∧ slides (Nat.iter k prevSlide s) = slides s.
Proof.
  intros Hn Hc. induction k as [|k [IHc IHn]].
  - cbn. split; [|done]. rewrite Z.sub_0_r, Z.mod_small; lia.
  - rewrite Nat.iter_succ.
    assert (Hin : (0 ≤ currentSlide (Nat.iter k prevSlide s)
                   < Z.of_nat (slides (Nat.iter k prevSlide s)))%Z).
    { rewrite IHc, IHn. apply Z.mod_pos_bound. lia. }
    destruct (prevSlide_mod (Nat.iter k prevSlide s)) as [-> ->];
      [lia | done |].
    split; [|done]. rewrite IHc, IHn, Zminus_mod_idemp_l.
    f_equal. lia.
Qed.

(** X15: on a carousel whose current slide exists, [nextSlide] and
    [prevSlide] undo each other, as many steps forward as there are slides
    lead back to the slide one started from, and so do as many steps back:
    the two wrap-around tests of [showSlide] make the slides a ring. *)
Theorem X15_carousel_is_a_ring (s : State) :
  0 < slides s →
  (0 ≤ currentSlide s < Z.of_nat (slides s))%Z →
  currentSlide (prevSlide (nextSlide s)) = currentSlide s
  ∧ currentSlide (nextSlide (prevSlide s)) = currentSlide s
  ∧ currentSlide (Nat.iter (slides s) nextSlide s) = currentSlide s
  ∧ currentSlide (Nat.iter (slides s) prevSlide s) = currentSlide s
  ∧ (∀ k, 0 < k < slides s →
          currentSlide (Nat.iter k nextSlide s) ≠ currentSlide s).
Proof.
  intros Hn Hc.
  destruct (nextSlide_mod s Hn Hc) as [Hnc Hnn].
  destruct (prevSlide_mod s Hn Hc) as [Hpc Hpn].
  assert (Hpos : (0 < Z.of_nat (slides s))%Z) by lia.
  split_and!.
  - destruct (prevSlide_mod (nextSlide s)) as [-> _].
    { by rewrite Hnn. }
    { rewrite Hnc, Hnn. by apply Z.mod_pos_bound. }
    rewrite Hnc, Hnn, Zminus_mod_idemp_l.
    replace (currentSlide s + 1 - 1)%Z with (currentSlide s) by lia.
    rewrite Z.mod_small; lia.
  - destruct (nextSlide_mod (prevSlide s)) as [-> _].
    { by rewrite Hpn. }
    { rewrite Hpc, Hpn. by apply Z.mod_pos_bound. }
    rewrite Hpc, Hpn, Zplus_mod_idemp_l.
    replace (currentSlide s - 1 + 1)%Z with (currentSlide s) by lia.
    rewrite Z.mod_small; lia.
  - rewrite (proj1 (iter_nextSlide (slides s) s Hn Hc)).
    rewrite <- (Z.mul_1_l (Z.of_nat (slides s))) at 1.
    rewrite Z.mod_add by lia. rewrite Z.mod_small; lia.
  - rewrite (proj1 (iter_prevSlide (slides s) s Hn Hc)).
    replace (currentSlide s - Z.of_nat (slides s))%Z
      with (currentSlide s + (-1) * Z.of_nat (slides s))%Z by lia.
    rewrite Z.mod_add by lia. rewrite Z.mod_small; lia.
  - intros k Hk. rewrite (proj1 (iter_nextSlide k s Hn Hc)).
    intros Heq.
    destruct (decide (currentSlide s + Z.of_nat k < Z.of_nat (slides s))%Z)
      as [Hlt|Hge].
    + rewrite Z.mod_small in Heq; lia.
    + assert (Hm : ((currentSlide s + Z.of_nat k) mod Z.of_nat (slides s)
                    = currentSlide s + Z.of_nat k - Z.of_nat (slides s))%Z).
      { symmetry. apply Z.mod_unique with (q := 1%Z); lia. }
      lia.
Qed.

(** Three slides, some clicks, a swipe, a stale and a live timer tick. *)
Lemma X14_witness_three_slides :
  let s := foldl (λ s ev, handle ev s)
                 (startAutoplay
                    (showSlide 0 (mkState 3 3 0 [] [] [] [] None [] 0 0 0)))
                 [NextClick; TouchStart 200; TouchEnd 100; IntervalFires 1;
                  IntervalFires 3; MouseEnter; DotClick 2; KeyDown "ArrowRight"]
  in
  (0 ≤ currentSlide s < 3)%Z
  ∧ (∀ i, slideActive s !! i = Some true ↔ i < 3 ∧ Z.of_nat i = currentSlide s)
  ∧ (∀ i, slideHidden s !! i = Some false ↔ i < 3 ∧ Z.of_nat i = currentSlide s)
  ∧ intervals s = match autoplayInterval s with
                  | Some id => [id]
                  | None => []
                  end.
Proof.
  exact (X14_carousel_stays_consistent 3 3 0 _ _ eq_refl).
Defined.

(** The last of three slides. *)
Lemma X15_witness_last_of_three :
  let s := showSlide 2 (mkState 3 3 0 [] [] [] [] None [] 0 0 0) in
  currentSlide (prevSlide (nextSlide s)) = currentSlide s
  ∧ currentSlide (nextSlide (prevSlide s)) = currentSlide s
  ∧ currentSlide (Nat.iter (slides s) nextSlide s) = currentSlide s
  ∧ currentSlide (Nat.iter (slides s) prevSlide s) = currentSlide s
  ∧ (∀ k, 0 < k < slides s →
          currentSlide (Nat.iter k nextSlide s) ≠ currentSlide s).
Proof.
  apply (X15_carousel_is_a_ring
           (showSlide 2 (mkState 3 3 0 [] [] [] [] None [] 0 0 0))).
  - cbn. lia.
  - change (0 ≤ 2 < 3)%Z. lia.
Defined.

End CarouselFacts.

(** ** The portfolio gallery *)

Section PortfolioFacts.

Import Portfolio.

Local Ltac open_state s :=
  destruct s as [fb cards lb li lt ld lc lp ln cf ci fi io bo fc tmo ls].

Local Ltac fields :=
  cbn [filterButtons portfolioItems lightbox lightboxImage lightboxTitle
       lightboxDescription lightboxClose lightboxPrev lightboxNext
       currentFilter currentIndex filteredItems isLightboxOpen bodyOverflow
       focusCalls timeouts listening set_filterButtons set_portfolioItems
       set_lightbox set_lightboxImage set_lightboxTitle
       set_lightboxDescription set_lightboxClose set_lightboxPrev
       set_lightboxNext set_currentFilter set_currentIndex
       set_filteredItems set_isLightboxOpen set_bodyOverflow set_focusCalls
       set_timeouts set_listening focus state_of and_then].

Local Ltac fields_in H :=
  cbn [filterButtons portfolioItems lightbox lightboxImage lightboxTitle
       lightboxDescription lightboxClose lightboxPrev lightboxNext
       currentFilter currentIndex filteredItems isLightboxOpen bodyOverflow
       focusCalls timeouts listening set_filterButtons set_portfolioItems
       set_lightbox set_lightboxImage set_lightboxTitle
       set_lightboxDescription set_lightboxClose set_lightboxPrev
       set_lightboxNext set_currentFilter set_currentIndex
       set_filteredItems set_isLightboxOpen set_bodyOverflow set_focusCalls
       set_timeouts set_listening focus state_of and_then] in H.

Local Ltac fields_all :=
  cbn [filterButtons portfolioItems lightbox lightboxImage lightboxTitle
       lightboxDescription lightboxClose lightboxPrev lightboxNext
       currentFilter currentIndex filteredItems isLightboxOpen bodyOverflow
       focusCalls timeouts listening set_filterButtons set_portfolioItems
       set_lightbox set_lightboxImage set_lightboxTitle
       set_lightboxDescription set_lightboxClose set_lightboxPrev
       set_lightboxNext set_currentFilter set_currentIndex
       set_filteredItems set_isLightboxOpen set_bodyOverflow set_focusCalls
       set_timeouts set_listening focus state_of and_then] in *.

Lemma updateLightboxContent_some (it : Item) (s : State) :
  ∃ s', updateLightboxContent (Some it) s = Returned s'
        ∧ showing s' it ∧ same_but_content s s'.
Proof.
  open_state s. unfold updateLightboxContent, updateNavButtons.
  destruct li, lt, ld, lp, ln; cbn;
    (eexists; split; [reflexivity|]; split;
     [ unfold showing; cbn; split_and!; intros ? [= <-]; done
     | unfold same_but_content; cbn; split_and!; done ]).
Qed.

Lemma nth_item_nil (index : Z) : nth_item [] index = None.
Proof. unfold nth_item. by destruct (index <? 0)%Z. Qed.

Lemma nth_item_in_range (items : list Item) (index : Z) :
  (0 ≤ index < Z.of_nat (length items))%Z →
  ∃ it, nth_item items index = Some it ∧ items !! Z.to_nat index = Some it.
Proof.
  intros Hin. unfold nth_item.
  destruct (index <? 0)%Z eqn:E; [lia|].
  destruct (lookup_lt_is_Some_2 items (Z.to_nat index)) as [it Hit]; [lia|].
  by exists it.
Qed.

Lemma navigateLightbox_eq (direction : Z) (s : State) :
  ∃ index,
    navigateLightbox direction s
    = updateLightboxContent (nth_item (filteredItems s) index)
                            (set_currentIndex index s)
    ∧ (filteredItems s ≠ [] →
       (0 ≤ index < Z.of_nat (length (filteredItems s)))%Z)
    ∧ ((0 ≤ currentIndex s + direction
        < Z.of_nat (length (filteredItems s)))%Z →
       index = (currentIndex s + direction)%Z).
Proof.
  open_state s. unfold navigateLightbox, set_currentIndex.
  cbn -[updateLightboxContent nth_item].
  assert (Hlen : fi ≠ [] → 0 < length fi).
  { destruct fi; [done | cbn; lia]. }
  destruct (ci + direction <? 0)%Z eqn:E1;
    cbn -[updateLightboxContent nth_item].
  - destruct (Z.of_nat (length fi) <=? Z.of_nat (length fi) - 1)%Z eqn:E2;
      cbn -[updateLightboxContent nth_item].
    + exists 0%Z. split; [reflexivity|]. split; [|lia].
      intros Hne%Hlen. lia.
    + exists (Z.of_nat (length fi) - 1)%Z. split; [reflexivity|].
      split; [|lia]. intros Hne%Hlen. lia.
  - destruct (Z.of_nat (length fi) <=? ci + direction)%Z eqn:E2;
      cbn -[updateLightboxContent nth_item].
    + exists 0%Z. split; [reflexivity|]. split; [|lia].
      intros Hne%Hlen. lia.
    + exists (ci + direction)%Z. split; [reflexivity|].
      split; [|done]. intros Hne%Hlen. lia.
Qed.

Lemma navigateLightbox_returns (direction : Z) (s : State) :
  filteredItems s ≠ [] →
  ∃ s' it,
    navigateLightbox direction s = Returned s'
    ∧ (0 ≤ currentIndex s' < Z.of_nat (length (filteredItems s)))%Z
    ∧ filteredItems s !! Z.to_nat (currentIndex s') = Some it
    ∧ showing s' it
    ∧ same_but_content (set_currentIndex (currentIndex s') s) s'
    ∧ ((0 ≤ currentIndex s + direction
        < Z.of_nat (length (filteredItems s)))%Z →
       currentIndex s' = (currentIndex s + direction)%Z).
Proof.
  intros Hne.
  destruct (navigateLightbox_eq direction s) as (index & -> & Hin & Hstep).
  specialize (Hin Hne).
  destruct (nth_item_in_range _ _ Hin) as (it & -> & Hit).
  destruct (updateLightboxContent_some it (set_currentIndex index s))
    as (s' & -> & Hshow & Hsame).
  assert (Hci : currentIndex s' = index).
  { destruct Hsame as (_ & _ & _ & _ & _ & _ & _ & -> & _). by open_state s. }
  exists s', it. rewrite Hci. split_and!; done || lia.
Qed.

Lemma navigateLightbox_throws (direction : Z) (s : State) :
  filteredItems s = [] →
  ∃ index, navigateLightbox direction s = Threw (set_currentIndex index s).
Proof.
  intros Hnil.
  destruct (navigateLightbox_eq direction s) as (index & -> & _ & _).
  exists index. by rewrite Hnil, nth_item_nil.
Qed.

Lemma closeLightbox_focus (s : State) (it : Item) :
  is_Some (lightbox s) →
  nth_item (filteredItems s) (currentIndex s) = Some it →
  closeLightbox s
  = focus (CardNode (node it))
          (set_bodyOverflow ""
             (set_isLightboxOpen false (set_lightbox (Some false) s))).
Proof.
  intros [open Hlb] Hit. open_state s. cbn in *. subst lb.
  unfold closeLightbox. cbn. by rewrite Hit.
Qed.

(** X16: whatever the direction and whatever the index was before, also a
    stale one, [navigateLightbox] on a gallery that is not empty returns,
    leaves [currentIndex] inside [filteredItems], shows the item at that
    index in every part of the lightbox that exists, and a following
    [closeLightbox] hands the focus to that item, the one on display. *)
Theorem X16_navigateLightbox_lands_on_an_item (direction : Z) (s : State) :
  filteredItems s ≠ [] →
  ∃ s' it,
    navigateLightbox direction s = Returned s'
    ∧ (0 ≤ currentIndex s' < Z.of_nat (length (filteredItems s)))%Z
    ∧ filteredItems s' = filteredItems s
    ∧ filteredItems s !! Z.to_nat (currentIndex s') = Some it
    ∧ showing s' it
    ∧ (is_Some (lightbox s) →
       last (focusCalls (closeLightbox s')) = Some (CardNode (node it))).
Proof.
  intros Hne.
  destruct (navigateLightbox_returns direction s Hne)
    as (s' & it & Hnav & Hin & Hit & Hshow & Hsame & _).
  exists s', it.
  assert (Hfi : filteredItems s' = filteredItems s).
  { destruct Hsame as (_ & _ & _ & _ & _ & _ & _ & _ & -> & _).
    by open_state s. }
  assert (Hlb : lightbox s' = lightbox s).
  { destruct Hsame as (_ & _ & -> & _). by open_state s. }
  split_and!; try (done || lia).
  intros Hsome. rewrite (closeLightbox_focus s' it).
  - unfold focus. open_state s'. cbn. by rewrite last_snoc.
  - by rewrite Hlb.
  - rewrite Hfi. unfold nth_item.
    destruct (currentIndex s' <? 0)%Z eqn:E; [lia | done].
Qed.

Lemma filter_all {A} (P : A → Prop) `{!∀ x, Decision (P x)} (l : list A) :
  (∀ x, x ∈ l → P x) → filter P l = l.
Proof.
  induction l as [|x l IH]; intros Hall; [done|].
  rewrite filter_cons_True by (apply Hall; left).
  f_equal. apply IH. intros y Hy. apply Hall. by right.
Qed.

Lemma elem_of_delete_other {A} (x y : A) (k : nat) (l : list A) :
  x ∈ l → l !! k = Some y → x ≠ y → x ∈ delete k l.
Proof.
  revert k. induction l as [|z l IH]; intros k Hx Hk Hne.
  - by apply elem_of_nil in Hx.
  - destruct k as [|k]; cbn in *.
    + injection Hk as ->. by apply elem_of_cons in Hx as [->|Hx].
    + apply elem_of_cons in Hx as [->|Hx]; [left|right]. by apply (IH k).
Qed.

Lemma init_ready (page : Page) :
  pageCards page ≠ [] →
  pageClose page = true ∨ pageLightbox page = None →
  ∃ s0, init page (initial page) = Returned s0
        ∧ ready s0
        ∧ filterButtons s0 = Some (pageButtons page)
        ∧ portfolioItems s0 = Some (pageCards page)
        ∧ currentFilter s0 = "all"
        ∧ filteredItems s0 = item <$> pageCards page
        ∧ timeouts s0 = []
        ∧ isLightboxOpen s0 = false.
Proof.
  intros Hcards Hclose.
  assert (Hlen : (length (pageCards page) =? 0) = false).
  { by destruct (pageCards page). }
  unfold init, initial, updateFilteredItems. cbv zeta. rewrite Hlen. fields.
  eexists. split; [reflexivity|]. unfold ready. fields.
  split_and!; try done.
  - unfold query. destruct (pageLightbox page); by eexists.
  - destruct Hclose as [->| ->]; [done|]. apply orb_true_r.
  - by apply filter_all.
Qed.

Lemma showOrHide_spec (category : string) (cards : list Card) :
  ∀ (i : nat) (pending : list nat),
    item <$> (showOrHide category i cards pending).1 = item <$> cards
    ∧ (∀ x, x ∈ pending → x ∈ (showOrHide category i cards pending).2)
    ∧ ∀ j c, (showOrHide category i cards pending).1 !! j = Some c →
        if matches category (item c)
        then hiddenClass c = false ∧ display c = ""
        else hiddenClass c = true
             ∧ i + j ∈ (showOrHide category i cards pending).2.
Proof.
  induction cards as [|c cards IH]; intros i pending; cbn [showOrHide].
  { split_and!; [done | done | intros j c' Hj; by destruct j]. }
  destruct (matches category (item c)) eqn:Hm.
  - destruct (IH (S i) pending) as (Hitems & Hkeep & Hcards).
    destruct (showOrHide category (S i) cards pending) as [rest' pending'].
    cbn [fst snd] in *. split_and!.
    + by rewrite !fmap_cons, Hitems.
    + done.
    + intros [|j] c' Hj; cbn in Hj.
      * injection Hj as <-. cbn [item]. by rewrite Hm.
      * specialize (Hcards j c' Hj).
        by replace (i + S j) with (S i + j) by lia.
  - destruct (IH (S i) (pending ++ [i])) as (Hitems & Hkeep & Hcards).
    destruct (showOrHide category (S i) cards (pending ++ [i]))
      as [rest' pending'].
    cbn [fst snd] in *. split_and!.
    + by rewrite !fmap_cons, Hitems.
    + intros x Hx. apply Hkeep, elem_of_app. by left.
    + intros [|j] c' Hj; cbn in Hj.
      * injection Hj as <-. cbn [item hiddenClass]. rewrite Hm.
        split; [done|]. rewrite Nat.add_0_r.
        apply Hkeep, elem_of_app. right. by apply list_elem_of_singleton.
      * specialize (Hcards j c' Hj).
        by replace (i + S j) with (S i + j) by lia.
Qed.

Lemma filterItems_eq (category : string) (s : State)
      (buttons : list Button) (shown : list Card) :
  filterButtons s = Some buttons →
  portfolioItems s = Some shown →
  ∃ s', filterItems category s = Returned s'
        ∧ is_Some (filterButtons s')
        ∧ portfolioItems s'
          = Some (showOrHide category 0 shown (timeouts s)).1
        ∧ timeouts s' = (showOrHide category 0 shown (timeouts s)).2
        ∧ currentFilter s' = category
        ∧ filteredItems s'
          = filter (λ it, matches category it) (item <$> shown)
        ∧ lightbox s' = lightbox s
        ∧ lightboxClose s' = lightboxClose s
        ∧ lightboxPrev s' = lightboxPrev s
        ∧ lightboxNext s' = lightboxNext s
        ∧ isLightboxOpen s' = isLightboxOpen s
        ∧ currentIndex s' = currentIndex s
        ∧ listening s' = listening s.
Proof.
  intros Hfb Hpi. open_state s. fields_in Hfb. fields_in Hpi. subst.
  unfold filterItems. cbv zeta. fields.
  destruct (showOrHide_spec category shown 0 tmo) as (Hitems & _).
  destruct (showOrHide category 0 shown tmo) as [shown' pending].
  cbn [fst snd] in *. unfold updateFilteredItems. fields.
  eexists. split; [reflexivity|]. fields. rewrite Hitems.
  split_and!; by eauto.
Qed.

Lemma same_but_content_ready (s s' : State) :
  same_but_content s s' → ready s → ready s'.
Proof.
  intros (Hfb & Hpi & Hlb & Hlc & _ & _ & _ & _ & _ & _ & _ & _ & _ & Hls).
  unfold ready. by rewrite Hfb, Hpi, Hlb, Hlc, Hls.
Qed.

Lemma openLightbox_eq (it : Item) (s : State) :
  is_Some (lightbox s) →
  lightboxClose s = true →
  ∃ s', openLightbox it s
        = Returned
            (focus CloseButton
               (set_bodyOverflow "hidden"
                  (set_isLightboxOpen true (set_lightbox (Some true) s'))))
        ∧ showing s' it
        ∧ same_but_content
            (set_currentIndex (indexOf (filteredItems s) it) s) s'.
Proof.
  intros [open Hlb] Hlc. unfold openLightbox. rewrite Hlb. cbv zeta.
  destruct (updateLightboxContent_some
              it (set_currentIndex (indexOf (filteredItems s) it) s))
    as (s' & -> & Hshow & Hsame).
  exists s'. split; [|done]. cbn [and_then].
  assert (Hclose : lightboxClose s' = true).
  { destruct Hsame as (_ & _ & _ & -> & _). by open_state s. }
  open_state s'. fields_in Hclose. fields. by rewrite Hclose.
Qed.

Local Ltac ready_fields H :=
  destruct H as (Hls & [buttons Hfb] & [shown Hpi] & [open Hlb] & Hlc).

Local Ltac ready_open s H :=
  ready_fields H; open_state s; fields_all; subst.

Local Ltac ready_done := unfold ready; fields; split_and!; by eauto.

Lemma closeLightbox_ready (s : State) : ready s → ready (closeLightbox s).
Proof.
  intros Hready. ready_open s Hready. unfold closeLightbox. fields.
  destruct (nth_item fi ci); ready_done.
Qed.

Lemma hideIfStillHidden_ready (i : nat) (pending : list nat) (s : State) :
  ready s → ready (hideIfStillHidden i (set_timeouts pending s)).
Proof.
  intros Hready. ready_open s Hready. unfold hideIfStillHidden. fields.
  destruct (shown !! i) as [c|]; [destruct (hiddenClass c)|]; ready_done.
Qed.

Lemma trapFocus_returns (shiftKey : bool) (focusable : list Target)
      (active : option Target) (s : State) :
  ready s →
  ∃ s', trapFocus shiftKey focusable active s = Returned s' ∧ ready s'.
Proof.
  intros Hready. ready_open s Hready. unfold trapFocus. fields.
  destruct (head focusable), (last focusable);
    try (eexists; split; [reflexivity | ready_done]).
  destruct (shiftKey && _); [eexists; split; [reflexivity | ready_done]|].
  destruct (negb shiftKey && _); eexists; (split; [reflexivity | ready_done]).
Qed.

Lemma openLightbox_returns (it : Item) (s : State) :
  ready s → ∃ s', openLightbox it s = Returned s' ∧ ready s'.
Proof.
  intros Hready.
  destruct (openLightbox_eq it s) as (s' & -> & _ & Hsame).
  { apply Hready. }
  { apply Hready. }
  eexists. split; [reflexivity|].
  assert (Hs' : ready s').
  { apply (same_but_content_ready _ _ Hsame).
    clear Hsame. ready_open s Hready. ready_done. }
  clear Hsame Hready. ready_open s' Hs'. ready_done.
Qed.

Lemma filterItems_returns (category : string) (s : State) :
  ready s → ∃ s', filterItems category s = Returned s' ∧ ready s'.
Proof.
  intros Hready. ready_fields Hready.
  destruct (filterItems_eq category s buttons shown Hfb Hpi)
    as (s' & -> & Hfb' & Hpi' & _ & _ & _ & Hlb' & Hlc' & _ & _ & _ & _ & Hls').
  exists s'. split; [done|]. unfold ready.
  rewrite Hpi', Hlb', Hlc', Hls', Hlb. split_and!; by eauto.
Qed.

Lemma navigateLightbox_ready (direction : Z) (s : State) :
  ready s → ready (state_of (navigateLightbox direction s)).
Proof.
  intros Hready. destruct (decide (filteredItems s = [])) as [Hnil|Hne].
  - destruct (navigateLightbox_throws direction s Hnil) as (index & ->).
    cbn [state_of]. ready_open s Hready. ready_done.
  - destruct (navigateLightbox_returns direction s Hne)
      as (s' & it & -> & _ & _ & _ & Hsame & _).
    cbn [state_of]. apply (same_but_content_ready _ _ Hsame).
    clear Hsame. ready_open s Hready. ready_done.
Qed.

Lemma navigateLightbox_throws_iff (direction : Z) (s : State) :
  (∃ s', navigateLightbox direction s = Threw s') ↔ filteredItems s = [].
Proof.
  split.
  - intros [s' Hthrew]. destruct (decide (filteredItems s = [])); [done|].
    destruct (navigateLightbox_returns direction s) as (? & ? & Hret & _);
      [done|]. congruence.
  - intros Hnil.
    destruct (navigateLightbox_throws direction s Hnil) as (index & ->).
    by eexists.
Qed.

Lemma handle_ready (ev : Event) (s : State) :
  ready s →
  ready (state_of (handle ev s))
  ∧ ((∃ s', handle ev s = Threw s') ↔ pages ev s ∧ filteredItems s = []).
Proof.
  intros Hready.
  assert (Hls : listening s = true) by apply Hready.
  assert (Hlc : lightboxClose s = true) by apply Hready.
  assert (Hlb : is_Some (lightbox s)) by apply Hready.
  assert (Hno : ∀ s1, ready s1 →
            ready (state_of (Returned s1))
            ∧ ((∃ s', Returned s1 = Threw s') ↔ False ∧ filteredItems s = [])).
  { intros s1 H1. split; [done|]. split; [by intros [? ?] | by intros [[] _]]. }
  assert (Hnav : ∀ direction (P : Prop), P →
            ready (state_of (navigateLightbox direction s))
            ∧ ((∃ s', navigateLightbox direction s = Threw s')
               ↔ P ∧ filteredItems s = [])).
  { intros direction P HP. split; [by apply navigateLightbox_ready|].
    rewrite navigateLightbox_throws_iff. split; [done | by intros [_ ?]]. }
  destruct ev as [i|i|i key| | | |onBackdrop|key shiftKey focusable active|k];
    cbn [handle pages]; rewrite ?Hls, ?Hlc; cbn [andb].
  - destruct (filterButtons s ≫= (.!! i)) as [btn|]; [|by apply Hno].
    destruct (filterItems_returns (dataFilter btn) s Hready) as (s' & -> & Hs').
    by apply Hno.
  - destruct (portfolioItems s ≫= (.!! i)) as [c|]; [|by apply Hno].
    destruct (openLightbox_returns (item c) s Hready) as (s' & -> & Hs').
    by apply Hno.
  - destruct (portfolioItems s ≫= (.!! i)) as [c|]; [|by apply Hno].
    destruct (String.eqb key "Enter" || String.eqb key " "); [|by apply Hno].
    destruct (openLightbox_returns (item c) s Hready) as (s' & -> & Hs').
    by apply Hno.
  - by apply Hno, closeLightbox_ready.
  - destruct (lightboxPrev s) as [d|] eqn:Hprev.
    + by apply Hnav.
    + split; [done|]. split; [by intros [? ?] | by intros [[? ?] _]].
  - destruct (lightboxNext s) as [d|] eqn:Hnext.
    + by apply Hnav.
    + split; [done|]. split; [by intros [? ?] | by intros [[? ?] _]].
  - destruct Hlb as [open ->]. destruct onBackdrop; [|by apply Hno].
    by apply Hno, closeLightbox_ready.
  - unfold handleKeydown. destruct (isLightboxOpen s) eqn:Hopen; cbn [negb].
    2:{ split; [done|]. split; [by intros [? ?] | by intros [[? ?] _]]. }
    destruct (String.eqb_spec key "Escape") as [->|Hesc].
    { split; [by apply closeLightbox_ready|].
      split; [by intros [? ?] | by intros [[_ [?|?]] _]]. }
    destruct (String.eqb_spec key "ArrowLeft") as [->|Hleft].
    { apply Hnav. split; [done | by left]. }
    destruct (String.eqb_spec key "ArrowRight") as [->|Hright].
    { apply Hnav. split; [done | by right]. }
    destruct (String.eqb_spec key "Tab") as [->|Htab].
    { destruct (trapFocus_returns shiftKey focusable active s Hready)
        as (s' & -> & Hs').
      split; [done|]. split; [by intros [? ?] | by intros [[_ [?|?]] _]]. }
    split; [done|]. split; [by intros [? ?] | by intros [[_ [?|?]] _]].
  - destruct (timeouts s !! k) as [i|]; [|by apply Hno].
    by apply Hno, hideIfStillHidden_ready.
Qed.

Lemma run_ready (evs : list Event) (s : State) : ready s → ready (run evs s).
Proof.
  revert s. induction evs as [|ev evs IH]; intros s Hready; [done|].
  apply IH. by apply handle_ready.
Qed.

(** X17: once [init] has run on a page that has cards and a close button
    (the lightbox that [createLightbox] inserts has one), the only handlers
    that can ever throw are the ones that page through the lightbox, its
    two arrows and the arrow keys while it is open, and they throw exactly
    when the current filter has left no card: [filteredItems[currentIndex]]
    is then undefined and [updateLightboxContent] reads a property of it.
    This holds after any sequence of events, throwing ones included. *)
Theorem X17_only_paging_an_empty_gallery_throws
        (page : Page) (evs : list Event) (ev : Event) :
  pageCards page ≠ [] →
  pageClose page = true ∨ pageLightbox page = None →
  let s := run evs (state_of (init page (initial page))) in
  (∃ s', handle ev s = Threw s') ↔ pages ev s ∧ filteredItems s = [].
Proof.
  intros Hcards Hclose. cbv zeta.
  destruct (init_ready page Hcards Hclose) as (s0 & -> & Hready & _).
  cbn [state_of]. by apply handle_ready, run_ready.
Qed.

Lemma indexOf_first (items : list Item) (k : nat) (it : Item) :
  items !! k = Some it →
  (∀ j other, j < k → items !! j = Some other → node other ≠ node it) →
  indexOf items it = Z.of_nat k.
Proof.
  intros Hk Hfirst. unfold indexOf.
  assert (Hfind : list_find (λ other, node other = node it) items
                  = Some (k, it)).
  { apply list_find_Some. split_and!; [done | done |].
    intros j other Hj Hlt. by apply (Hfirst j). }
  by rewrite Hfind.
Qed.

Lemma indexOf_absent (items : list Item) (it : Item) :
  (∀ other, other ∈ items → node other ≠ node it) →
  indexOf items it = (-1)%Z.
Proof.
  intros Habsent. unfold indexOf.
  assert (Hfind : list_find (λ other, node other = node it) items = None).
  { apply list_find_None, Forall_forall. intros other Hin. by apply Habsent. }
  by rewrite Hfind.
Qed.

Local Ltac open_state' s :=
  destruct s as [fb' cards' lb' li' lt' ld' lc' lp' ln' cf' ci' fi' io' bo'
                 fc' tmo' ls'].

(** What an opened lightbox looks like, in terms of the state before. *)
Lemma openLightbox_opened (it : Item) (s : State) :
  is_Some (lightbox s) →
  lightboxClose s = true →
  ∃ s1, openLightbox it s = Returned s1
        ∧ currentIndex s1 = indexOf (filteredItems s) it
        ∧ filteredItems s1 = filteredItems s
        ∧ lightbox s1 = Some true
        ∧ isLightboxOpen s1 = true
        ∧ bodyOverflow s1 = "hidden"
        ∧ showing s1 it
        ∧ focusCalls s1 = focusCalls s ++ [CloseButton].
Proof.
  intros Hlb Hlc.
  destruct (openLightbox_eq it s Hlb Hlc) as (s' & -> & Hshow & Hsame).
  eexists. split; [reflexivity|].
  destruct Hsame as (_ & _ & _ & _ & _ & _ & _ & Hci & Hfi & _ & _ & Hfc & _).
  unfold showing in *. open_state s. open_state' s'. fields_all. subst.
  split_and!; try done; apply Hshow.
Qed.

(** X18: on a page whose lightbox and close button exist, opening the
    lightbox on a card that the current filter shows puts [currentIndex] on
    that card, displays it, locks the scrolling of the body and moves the
    focus to the close button; closing it again unlocks the scrolling and
    gives the focus back to that same card.  Scrolling is unlocked by
    clearing the inline style, whatever it was before. *)
Theorem X18_open_then_close_returns_focus (s : State) (k : nat) (it : Item) :
  is_Some (lightbox s) →
  lightboxClose s = true →
  filteredItems s !! k = Some it →
  (∀ j other, j < k → filteredItems s !! j = Some other →
              node other ≠ node it) →
  ∃ s1, openLightbox it s = Returned s1
        ∧ currentIndex s1 = Z.of_nat k
        ∧ lightbox s1 = Some true
        ∧ isLightboxOpen s1 = true
        ∧ bodyOverflow s1 = "hidden"
        ∧ showing s1 it
        ∧ last (focusCalls s1) = Some CloseButton
        ∧ lightbox (closeLightbox s1) = Some false
        ∧ isLightboxOpen (closeLightbox s1) = false
        ∧ bodyOverflow (closeLightbox s1) = ""
        ∧ focusCalls (closeLightbox s1)
          = focusCalls s ++ [CloseButton; CardNode (node it)].
Proof.
  intros Hlb Hlc Hk Hfirst.
  destruct (openLightbox_opened it s Hlb Hlc)
    as (s1 & Hopen & Hci & Hfi & Hlb1 & Hio & Hbo & Hshow & Hfc).
  rewrite (indexOf_first _ k it Hk Hfirst) in Hci.
  exists s1.
  assert (Hclose : closeLightbox s1
                   = focus (CardNode (node it))
                       (set_bodyOverflow ""
                          (set_isLightboxOpen false
                             (set_lightbox (Some false) s1)))).
  { apply closeLightbox_focus; [by rewrite Hlb1|].
    rewrite Hfi, Hci. unfold nth_item.
    destruct (Z.of_nat k <? 0)%Z eqn:E; [lia|]. by rewrite Nat2Z.id. }
  rewrite Hclose, Hfc, last_snoc. clear Hclose.
  open_state' s1. fields_all. subst. fields.
  split_and!; try done. by rewrite <- app_assoc.
Qed.

(** X19: a card can be opened that the current filter does not show (it
    stays on the page for 300 ms after the filter hid it, and
    [openLightbox] is public).  [indexOf] then gives -1: the lightbox opens
    and displays the card, but closing it gives the focus to no card, and
    the right arrow leads to the first card of the current filter. *)
Theorem X19_open_on_a_filtered_out_card (s : State) (it : Item) :
  is_Some (lightbox s) →
  lightboxClose s = true →
  (∀ other, other ∈ filteredItems s → node other ≠ node it) →
  ∃ s1, openLightbox it s = Returned s1
        ∧ currentIndex s1 = (-1)%Z
        ∧ isLightboxOpen s1 = true
        ∧ showing s1 it
        ∧ focusCalls (closeLightbox s1) = focusCalls s ++ [CloseButton]
        ∧ ∀ first, filteredItems s !! 0 = Some first →
            ∃ s2, navigateLightbox 1 s1 = Returned s2
                  ∧ currentIndex s2 = 0%Z
                  ∧ showing s2 first.
Proof.
  intros Hlb Hlc Habsent.
  destruct (openLightbox_opened it s Hlb Hlc)
    as (s1 & Hopen & Hci & Hfi & Hlb1 & Hio & Hbo & Hshow & Hfc).
  rewrite (indexOf_absent _ it Habsent) in Hci.
  exists s1. split_and!; try done.
  - unfold closeLightbox. rewrite Hlb1. cbv zeta.
    open_state' s1. fields_all. subst. by fields.
  - intros first Hfirst.
    assert (Hne : filteredItems s1 ≠ []).
    { rewrite Hfi. by destruct (filteredItems s). }
    destruct (navigateLightbox_returns 1 s1 Hne)
      as (s2 & shown & -> & _ & Hshown & Hshow2 & _ & Hstep).
    assert (Hzero : currentIndex s2 = 0%Z).
    { rewrite Hstep; rewrite Hci; [done|].
      destruct (filteredItems s1); [done | cbn [length]; lia]. }
    exists s2. split_and!; [done | done |].
    rewrite Hzero, Hfi in Hshown. change (Z.to_nat 0) with 0 in Hshown.
    by replace first with shown by congruence.
Qed.

(** *** The filter and its hide callbacks *)

Lemma closeLightbox_gallery (s : State) :
  portfolioItems (closeLightbox s) = portfolioItems s
  ∧ filteredItems (closeLightbox s) = filteredItems s
  ∧ currentFilter (closeLightbox s) = currentFilter s
  ∧ timeouts (closeLightbox s) = timeouts s.
Proof.
  open_state s. unfold closeLightbox. fields.
  destruct lb; [|done]. by destruct (nth_item fi ci).
Qed.

Lemma same_but_content_gallery (s s' : State) :
  same_but_content s s' →
  portfolioItems s' = portfolioItems s
  ∧ filteredItems s' = filteredItems s
  ∧ currentFilter s' = currentFilter s
  ∧ timeouts s' = timeouts s.
Proof.
  by intros (_ & -> & _ & _ & _ & _ & -> & _ & -> & _ & _ & _ & -> & _).
Qed.

Lemma navigateLightbox_gallery (direction : Z) (s : State) :
  portfolioItems (state_of (navigateLightbox direction s)) = portfolioItems s
  ∧ filteredItems (state_of (navigateLightbox direction s)) = filteredItems s
  ∧ currentFilter (state_of (navigateLightbox direction s)) = currentFilter s
  ∧ timeouts (state_of (navigateLightbox direction s)) = timeouts s.
Proof.
  destruct (decide (filteredItems s = [])) as [Hnil|Hne].
  - destruct (navigateLightbox_throws direction s Hnil) as (index & ->).
    by open_state s.
  - destruct (navigateLightbox_returns direction s Hne)
      as (s' & it & -> & _ & _ & _ & Hsame & _).
    cbn [state_of].
    destruct (same_but_content_gallery _ _ Hsame) as (-> & -> & -> & ->).
    by open_state s.
Qed.

Lemma openLightbox_gallery (it : Item) (s : State) :
  ready s →
  portfolioItems (state_of (openLightbox it s)) = portfolioItems s
  ∧ filteredItems (state_of (openLightbox it s)) = filteredItems s
  ∧ currentFilter (state_of (openLightbox it s)) = currentFilter s
  ∧ timeouts (state_of (openLightbox it s)) = timeouts s.
Proof.
  intros Hready.
  destruct (openLightbox_eq it s) as (s' & -> & _ & Hsame);
    [apply Hready | apply Hready |].
  cbn [state_of].
  destruct (same_but_content_gallery _ _ Hsame) as (Hpi & Hfi & Hcf & Htmo).
  clear Hsame. open_state s. open_state' s'. fields_all. by subst.
Qed.

Lemma trapFocus_gallery (shiftKey : bool) (focusable : list Target)
      (active : option Target) (s : State) :
  portfolioItems (state_of (trapFocus shiftKey focusable active s))
  = portfolioItems s
  ∧ filteredItems (state_of (trapFocus shiftKey focusable active s))
    = filteredItems s
  ∧ currentFilter (state_of (trapFocus shiftKey focusable active s))
    = currentFilter s
  ∧ timeouts (state_of (trapFocus shiftKey focusable active s)) = timeouts s.
Proof.
  open_state s. unfold trapFocus. fields.
  destruct lb; [|done].
  destruct (head focusable), (last focusable); try done.
  destruct (shiftKey && _); [done|]. by destruct (negb shiftKey && _).
Qed.

(** Every handler but the filter buttons and the hide callbacks leaves the
    cards, the filter and the pending callbacks alone. *)
Lemma handle_gallery (ev : Event) (s : State) :
  ready s →
  (∀ i, ev ≠ FilterClick i) →
  (∀ k, ev ≠ TimeoutFires k) →
  portfolioItems (state_of (handle ev s)) = portfolioItems s
  ∧ filteredItems (state_of (handle ev s)) = filteredItems s
  ∧ currentFilter (state_of (handle ev s)) = currentFilter s
  ∧ timeouts (state_of (handle ev s)) = timeouts s.
Proof.
  intros Hready Hfilter Htimeout.
  destruct ev as [i|i|i key| | | |onBackdrop|key shiftKey focusable active|k];
    cbn [handle].
  - by destruct (Hfilter i).
  - destruct (listening s); [|done].
    destruct (portfolioItems s ≫= (.!! i)) as [c|]; [|done].
    by apply openLightbox_gallery.
  - destruct (listening s); [|done].
    destruct (portfolioItems s ≫= (.!! i)) as [c|]; [|done].
    destruct (String.eqb key "Enter" || String.eqb key " "); [|done].
    by apply openLightbox_gallery.
  - destruct (listening s && lightboxClose s); [|done].
    apply closeLightbox_gallery.
  - destruct (listening s); [|done]. destruct (lightboxPrev s); [|done].
    apply navigateLightbox_gallery.
  - destruct (listening s); [|done]. destruct (lightboxNext s); [|done].
    apply navigateLightbox_gallery.
  - destruct (listening s); [|done]. destruct (lightbox s); [|done].
    destruct onBackdrop; [|done]. apply closeLightbox_gallery.
  - destruct (listening s); [|done]. unfold handleKeydown.
    destruct (negb (isLightboxOpen s)); [done|].
    destruct (String.eqb key "Escape"); [apply closeLightbox_gallery|].
    destruct (String.eqb key "ArrowLeft"); [apply navigateLightbox_gallery|].
    destruct (String.eqb key "ArrowRight"); [apply navigateLightbox_gallery|].
    destruct (String.eqb key "Tab"); [apply trapFocus_gallery | done].
  - by destruct (Htimeout k).
Qed.

Lemma filterItems_filtered (category : string) (s : State) :
  ready s →
  ∃ s', filterItems category s = Returned s'
        ∧ filtered s'
        ∧ ∀ shown, portfolioItems s = Some shown →
            ∃ shown', portfolioItems s' = Some shown'
                      ∧ item <$> shown' = item <$> shown.
Proof.
  intros Hready. ready_fields Hready.
  destruct (filterItems_eq category s buttons shown Hfb Hpi)
    as (s' & -> & _ & Hpi' & Htmo' & Hcf' & Hfi' & _).
  destruct (showOrHide_spec category shown 0 (timeouts s))
    as (Hitems & _ & Hcards).
  exists s'. split; [done|]. split.
  - exists (showOrHide category 0 shown (timeouts s)).1.
    rewrite Hcf', Hfi', Htmo', Hitems. split_and!; [done | done |].
    intros j c Hj. specialize (Hcards j c Hj).
    destruct (matches category (item c)); [done|].
    destruct Hcards as [Hhidden Hpending]. split; [done|]. by right.
  - intros shown0 Hshown0. rewrite Hpi in Hshown0. injection Hshown0 as <-.
    by eexists.
Qed.

Lemma timeout_filtered (k i : nat) (s : State) :
  timeouts s !! k = Some i →
  filtered s →
  filtered (hideIfStillHidden i (set_timeouts (delete k (timeouts s)) s)).
Proof.
  intros Hk (shown & Hpi & Hfi & Hcards).
  assert (Hrest : ∀ j c, shown !! j = Some c → j ≠ i →
            if matches (currentFilter s) (item c)
            then hiddenClass c = false ∧ display c = ""
            else hiddenClass c = true
                 ∧ (display c = "none" ∨ j ∈ delete k (timeouts s))).
  { intros j c Hj Hne. specialize (Hcards j c Hj).
    destruct (matches (currentFilter s) (item c)); [done|].
    destruct Hcards as [Hhidden [Hnone|Hpending]]; split; auto.
    right. by apply (elem_of_delete_other j i k). }
  open_state s. fields_all. subst. unfold hideIfStillHidden. fields.
  destruct (shown !! i) as [c|] eqn:Hi.
  - destruct (hiddenClass c) eqn:Hhidden.
    + exists (<[i := mkCard (item c) true "none"]> shown). fields.
      split_and!; [done | |].
      * rewrite list_fmap_insert. cbn [item].
        by rewrite (list_insert_id (item <$> shown) i (item c))
          by (by rewrite list_lookup_fmap, Hi).
      * intros j c' Hj. apply list_lookup_insert_Some in Hj
          as [(<- & <- & _)|(Hne & Hj)].
        -- cbn [item hiddenClass display]. specialize (Hcards i c Hi).
           destruct (matches cf (item c)); [|by auto].
           destruct Hcards as [Hshown _]. congruence.
        -- by apply Hrest.
    + exists shown. fields. split_and!; [done | done |].
      intros j c' Hj. destruct (decide (j = i)) as [->|Hne]; [|by apply Hrest].
      specialize (Hcards i c' Hj). rewrite Hi in Hj. injection Hj as <-.
      destruct (matches cf (item c)); [done|].
      destruct Hcards as [Hshown _]. congruence.
  - exists shown. fields. split_and!; [done | done |].
    intros j c' Hj. apply Hrest; [done|]. intros ->. congruence.
Qed.

Lemma timeout_items (i : nat) (pending : list nat) (s : State)
      (shown : list Card) :
  portfolioItems s = Some shown →
  ∃ shown', portfolioItems (hideIfStillHidden i (set_timeouts pending s))
            = Some shown'
            ∧ item <$> shown' = item <$> shown.
Proof.
  intros Hpi. open_state s. fields_all. subst.
  unfold hideIfStillHidden. fields.
  destruct (shown !! i) as [c|] eqn:Hi; [|by eexists].
  destruct (hiddenClass c); [|by eexists].
  eexists. fields. split; [done|].
  rewrite list_fmap_insert. cbn [item].
  by rewrite (list_insert_id (item <$> shown) i (item c))
    by (by rewrite list_lookup_fmap, Hi).
Qed.

Lemma handle_filtered (ev : Event) (s : State) (items : list Item) :
  ready s →
  filtered s →
  (∃ shown, portfolioItems s = Some shown ∧ item <$> shown = items) →
  filtered (state_of (handle ev s))
  ∧ ∃ shown, portfolioItems (state_of (handle ev s)) = Some shown
             ∧ item <$> shown = items.
Proof.
  intros Hready Hfiltered (shown & Hpi & Hitems).
  assert (Hcase : (∃ i, ev = FilterClick i) ∨ (∃ k, ev = TimeoutFires k)
                  ∨ ((∀ i, ev ≠ FilterClick i) ∧ (∀ k, ev ≠ TimeoutFires k))).
  { destruct ev; try (by eauto); right; right; by split; intros ? ?. }
  destruct Hcase as [[i ->]|[[k ->]|[Hnofilter Hnotimeout]]].
  { cbn [handle]. destruct (listening s); [|by eauto].
    destruct (filterButtons s ≫= (.!! i)) as [btn|]; [|by eauto].
    destruct (filterItems_filtered (dataFilter btn) s Hready)
      as (s' & -> & Hf' & Hitems').
    destruct (Hitems' shown Hpi) as (shown' & Hpi' & Heq).
    cbn [state_of]. split; [done|]. exists shown'. by rewrite Heq. }
  { cbn [handle]. destruct (timeouts s !! k) as [i|] eqn:Hk; [|by eauto].
    cbn [state_of]. split; [by apply timeout_filtered|].
    destruct (timeout_items i (delete k (timeouts s)) s shown Hpi)
      as (shown' & Hpi' & Heq).
    exists shown'. by rewrite Heq. }
  destruct (handle_gallery ev s Hready Hnofilter Hnotimeout)
    as (Hpi' & Hfi' & Hcf' & Htmo').
  split.
  - destruct Hfiltered as (shown0 & Hpi0 & Hfi0 & Hcards).
    exists shown0. by rewrite Hpi', Hfi', Hcf', Htmo'.
  - exists shown. by rewrite Hpi'.
Qed.

Lemma run_filtered (evs : list Event) (s : State) (items : list Item) :
  ready s →
  filtered s →
  (∃ shown, portfolioItems s = Some shown ∧ item <$> shown = items) →
  filtered (run evs s)
  ∧ ∃ shown, portfolioItems (run evs s) = Some shown
             ∧ item <$> shown = items.
Proof.
  revert s. induction evs as [|ev evs IH]; intros s Hready Hf Hitems;
    [done|].
  destruct (handle_filtered ev s items Hready Hf Hitems) as [Hf' Hitems'].
  apply IH; [by apply handle_ready | done | done].
Qed.

(** X20: from the first click on a filter button on, and whatever happens
    on the page afterwards, the gallery agrees with the filter.  The cards
    are the cards of the page, in their order; the lightbox pages through
    exactly those of the current category; a card carries the hidden class
    exactly when it is not of that category; and once no hide callback is
    pending, the cards of the category are in the layout and the others
    are out of it.  A callback that fires after its card was shown again
    does nothing: it tests the class before it hides the card. *)
Theorem X20_gallery_agrees_with_filter
        (page : Page) (i : nat) (evs : list Event) :
  pageCards page ≠ [] →
  pageClose page = true ∨ pageLightbox page = None →
  i < length (pageButtons page) →
  let s := run (FilterClick i :: evs) (state_of (init page (initial page))) in
  ∃ shown,
    portfolioItems s = Some shown
    ∧ item <$> shown = item <$> pageCards page
    ∧ filteredItems s
      = filter (λ it, matches (currentFilter s) it) (item <$> pageCards page)
    ∧ (∀ c, c ∈ shown →
            hiddenClass c = negb (matches (currentFilter s) (item c)))
    ∧ (timeouts s = [] →
       ∀ c, c ∈ shown →
            display c
            = if matches (currentFilter s) (item c) then "" else "none").
Proof.
  intros Hcards Hclose Hi. cbv zeta.
  destruct (init_ready page Hcards Hclose)
    as (s0 & -> & Hready & Hfb & Hpi & _).
  cbn [state_of].
  change (run (FilterClick i :: evs) s0)
    with (run evs (state_of (handle (FilterClick i) s0))).
  destruct (lookup_lt_is_Some_2 (pageButtons page) i Hi) as [btn Hbtn].
  assert (Hls : listening s0 = true) by apply Hready.
  cbn [handle]. rewrite Hls, Hfb. cbn [mbind option_bind]. rewrite Hbtn.
  destruct (filterItems_filtered (dataFilter btn) s0 Hready)
    as (s1 & Heq & Hf1 & Hitems1).
  rewrite Heq. cbn [state_of].
  destruct (Hitems1 _ Hpi) as (shown1 & Hpi1 & Hkept1).
  assert (Hready1 : ready s1).
  { destruct (filterItems_returns (dataFilter btn) s0 Hready)
      as (s1' & Heq' & Hr). congruence. }
  destruct (run_filtered evs s1 (item <$> pageCards page) Hready1 Hf1)
    as [(shown & Hshown & Hfi & Hstate) (shown' & Hshown' & Hkept)].
  { by exists shown1. }
  assert (shown' = shown) as -> by congruence.
  exists shown. rewrite <- Hkept. split_and!; [done | done | done | |].
  - intros c [j Hj]%list_elem_of_lookup. specialize (Hstate j c Hj).
    destruct (matches _ (item c)); by destruct Hstate.
  - intros Hnone c [j Hj]%list_elem_of_lookup. specialize (Hstate j c Hj).
    destruct (matches _ (item c)); [by destruct Hstate|].
    destruct Hstate as [_ [Hdisplay|Hpending]]; [done|].
    rewrite Hnone in Hpending. by apply elem_of_nil in Hpending.
Qed.

(** From the first card of the gallery, the left arrow wraps round to the
    last one. *)
Lemma X16_witness_left_from_first :
  ∃ s' it,
    navigateLightbox (-1) gallery = Returned s'
    ∧ (0 ≤ currentIndex s' < Z.of_nat (length (filteredItems gallery)))%Z
    ∧ filteredItems s' = filteredItems gallery
    ∧ filteredItems gallery !! Z.to_nat (currentIndex s') = Some it
    ∧ showing s' it
    ∧ (is_Some (lightbox gallery) →
       last (focusCalls (closeLightbox s')) = Some (CardNode (node it))).
Proof.
  apply (X16_navigateLightbox_lands_on_an_item (-1) gallery).
  vm_compute. discriminate.
Defined.

(** A card is opened, the filter is set to a category without cards, then
    the right arrow of the lightbox is clicked. *)
Lemma X17_witness_next_on_empty_gallery :
  ∃ s', handle NextClick
               (run [ItemClick 0; FilterClick 2]
                    (state_of (init gallery_page (initial gallery_page))))
        = Threw s'.
Proof.
  apply (X17_only_paging_an_empty_gallery_throws
           gallery_page [ItemClick 0; FilterClick 2] NextClick).
  - vm_compute. discriminate.
  - right. reflexivity.
  - split; [|reflexivity]. vm_compute. eexists. reflexivity.
Defined.

(** The beach wedding is opened and closed. *)
Lemma X18_witness_beach_wedding :
  ∃ s1, openLightbox beach_wedding gallery = Returned s1
        ∧ currentIndex s1 = Z.of_nat 2
        ∧ lightbox s1 = Some true
        ∧ isLightboxOpen s1 = true
        ∧ bodyOverflow s1 = "hidden"
        ∧ showing s1 beach_wedding
        ∧ last (focusCalls s1) = Some CloseButton
        ∧ lightbox (closeLightbox s1) = Some false
        ∧ isLightboxOpen (closeLightbox s1) = false
        ∧ bodyOverflow (closeLightbox s1) = ""
        ∧ focusCalls (closeLightbox s1)
          = focusCalls gallery ++ [CloseButton; CardNode (node beach_wedding)].
Proof.
  apply (X18_open_then_close_returns_focus gallery 2 beach_wedding).
  - vm_compute. eexists. reflexivity.
  - reflexivity.
  - reflexivity.
  - intros j other Hj.
    destruct j as [|[|j]]; [| | lia]; intros [= <-]; vm_compute; discriminate.
Defined.

(** The filter is set to weddings, and the corporate card is clicked before
    its hide callback has fired. *)
Lemma X19_witness_launch_among_weddings :
  ∃ s1, openLightbox product_launch (run [FilterClick 1] gallery) = Returned s1
        ∧ currentIndex s1 = (-1)%Z
        ∧ isLightboxOpen s1 = true
        ∧ showing s1 product_launch
        ∧ focusCalls (closeLightbox s1)
          = focusCalls (run [FilterClick 1] gallery) ++ [CloseButton]
        ∧ ∀ first, filteredItems (run [FilterClick 1] gallery) !! 0 = Some first →
            ∃ s2, navigateLightbox 1 s1 = Returned s2
                  ∧ currentIndex s2 = 0%Z
                  ∧ showing s2 first.
Proof.
  apply (X19_open_on_a_filtered_out_card
           (run [FilterClick 1] gallery) product_launch).
  - vm_compute. eexists. reflexivity.
  - reflexivity.
  - apply (Forall_forall (λ other, node other ≠ node product_launch)).
    apply (bool_decide_unpack _). vm_compute. exact I.
Defined.

(** Weddings, the hide callback of the corporate card, all, and a click on
    that card. *)
Lemma X20_witness_weddings_then_all :
  let s := run [FilterClick 1; TimeoutFires 0; FilterClick 0; ItemClick 1]
               (state_of (init gallery_page (initial gallery_page))) in
  ∃ shown,
    portfolioItems s = Some shown
    ∧ item <$> shown = item <$> pageCards gallery_page
    ∧ filteredItems s
      = filter (λ it, matches (currentFilter s) it)
               (item <$> pageCards gallery_page)
    ∧ (∀ c, c ∈ shown →
            hiddenClass c = negb (matches (currentFilter s) (item c)))
    ∧ (timeouts s = [] →
       ∀ c, c ∈ shown →
            display c
            = if matches (currentFilter s) (item c) then "" else "none").
Proof.
  apply (X20_gallery_agrees_with_filter
           gallery_page 1 [TimeoutFires 0; FilterClick 0; ItemClick 1]).
  - vm_compute. discriminate.
  - right. reflexivity.
  - cbn. lia.
Defined.

End PortfolioFacts.

(** ** The accordions *)

Section AccordionFacts.

Import Accordion.

Lemma header_setExpanded (v : string) (it : Item) :
  wired it = true → header (setExpanded v it) = Some (Some v).
Proof. unfold wired. destruct it as [[a|] c o]; by cbn. Qed.

Lemma click_labelled (i : nat) (s : State) :
  (∀ j it, items s !! j = Some it → wired it = true →
           header it = Some (Some (attr (open it)))) →
  ∀ j it, items (click i s) !! j = Some it → wired it = true →
          header it = Some (Some (attr (open it))).
Proof.
  intros Hs j it. unfold click.
  destruct (items s !! i) as [clicked|] eqn:Hi; [|by apply Hs].
  destruct (wired clicked) eqn:Hw; [|by apply Hs].
  cbv zeta. cbn [items].
  set (others := if bool_decide _ then _ else _).
  assert (Hothers : ∀ k other, others !! k = Some other → wired other = true →
            header other = Some (Some (attr (open other)))).
  { subst others. case_bool_decide; [|done].
    intros k other Hk Hwired. rewrite list_lookup_fmap in Hk.
    destruct (items s !! k) as [before|]; [|done].
    injection Hk as <-. by destruct before as [[a|] c o]. }
  destruct (decide (j = i)) as [->|Hne].
  - rewrite list_lookup_alter_eq. destruct (others !! i) as [other|]; [|done].
    intros [= <-] Hwired. by destruct other as [[a|] c o].
  - rewrite list_lookup_alter_ne by done. apply Hothers.
Qed.

(** X21: after [initAccordions] and any clicks on headers, the header of
    every item that has a header and a content says whether the item is
    open: [aria-expanded] is "true" exactly on the open ones. *)
Theorem X21_aria_expanded_follows_the_open_class
        (s : State) (headers : list nat) (j : nat) (it : Item) :
  items (clicks headers (initAccordions s)) !! j = Some it →
  wired it = true →
  header it = Some (Some (attr (open it))).
Proof.
  assert (Hinit : ∀ j it, items (initAccordions s) !! j = Some it →
            wired it = true → header it = Some (Some (attr (open it)))).
  { intros k other. unfold initAccordions. cbn [items].
    rewrite list_lookup_fmap. destruct (items s !! k) as [before|]; [|done].
    intros [= <-]. destruct before as [[a|] [] o]; by cbn. }
  revert j it. unfold clicks. generalize dependent (initAccordions s).
  clear s. intros s Hs.
  revert s Hs. induction headers as [|i headers IH]; intros s Hs; [done|].
  cbn [foldl]. apply IH. by apply click_labelled.
Qed.

Lemma click_single (i : nat) (s : State) (clicked : Item) :
  dataSingle s = Some "true" →
  items s !! i = Some clicked →
  wired clicked = true →
  dataSingle (click i s) = Some "true"
  ∧ ∀ j it, items (click i s) !! j = Some it →
      open it = bool_decide (j = i) && negb (open clicked).
Proof.
  intros Hsingle Hi Hw. unfold click. rewrite Hi, Hw. cbv zeta.
  rewrite bool_decide_true by done. cbn [dataSingle items].
  split; [done|]. intros j it.
  destruct (decide (j = i)) as [->|Hne].
  - rewrite list_lookup_alter_eq, list_lookup_fmap, Hi. intros [= <-].
    by rewrite bool_decide_true.
  - rewrite list_lookup_alter_ne, list_lookup_fmap by done.
    destruct (items s !! j) as [before|]; [|done]. intros [= <-].
    by rewrite bool_decide_false.
Qed.

Lemma click_at_most_one (i : nat) (s : State) :
  dataSingle s = Some "true" →
  (∀ j k a b, items s !! j = Some a → items s !! k = Some b →
              open a = true → open b = true → j = k) →
  dataSingle (click i s) = Some "true"
  ∧ ∀ j k a b, items (click i s) !! j = Some a →
      items (click i s) !! k = Some b →
      open a = true → open b = true → j = k.
Proof.
  intros Hsingle Hone.
  destruct (items s !! i) as [clicked|] eqn:Hi.
  2:{ unfold click. by rewrite Hi. }
  destruct (wired clicked) eqn:Hw.
  2:{ unfold click. by rewrite Hi, Hw. }
  destruct (click_single i s clicked Hsingle Hi Hw) as [Hsingle' Hopen].
  split; [done|]. intros j k a b Hj Hk Ha Hb.
  rewrite (Hopen j a Hj) in Ha. rewrite (Hopen k b Hk) in Hb.
  apply andb_true_iff in Ha as [Hji%bool_decide_eq_true _].
  apply andb_true_iff in Hb as [Hki%bool_decide_eq_true _].
  congruence.
Qed.

(** X22: in an accordion with [data-single="true"], a click on a header
    closes every other item, also the items that have no header or no
    content, and toggles its own: afterwards the clicked item is open
    exactly if it was closed before, and no other item is.  So from the
    first such click on, and whatever is clicked later, at most one item
    is open. *)
Theorem X22_single_accordion_opens_at_most_one
        (s : State) (i : nat) (clicked : Item) (headers : list nat) :
  dataSingle s = Some "true" →
  items s !! i = Some clicked →
  wired clicked = true →
  (∀ j it, items (click i s) !! j = Some it →
           open it = bool_decide (j = i) && negb (open clicked))
  ∧ ∀ j k a b,
      items (clicks (i :: headers) s) !! j = Some a →
      items (clicks (i :: headers) s) !! k = Some b →
      open a = true → open b = true → j = k.
Proof.
  intros Hsingle Hi Hw.
  destruct (click_single i s clicked Hsingle Hi Hw) as [Hsingle' Hopen].
  split; [done|].
  change (clicks (i :: headers) s) with (clicks headers (click i s)).
  assert (Hone : ∀ j k a b, items (click i s) !! j = Some a →
            items (click i s) !! k = Some b →
            open a = true → open b = true → j = k).
  { intros j k a b Hj Hk Ha Hb.
    rewrite (Hopen j a Hj) in Ha. rewrite (Hopen k b Hk) in Hb.
    apply andb_true_iff in Ha as [Hji%bool_decide_eq_true _].
    apply andb_true_iff in Hb as [Hki%bool_decide_eq_true _].
    congruence. }
  generalize dependent (click i s). clear. intros s Hsingle _ Hone.
  revert s Hsingle Hone.
  induction headers as [|h headers IH]; intros s Hsingle Hone; [done|].
  change (clicks (h :: headers) s) with (clicks headers (click h s)).
  destruct (click_at_most_one h s Hsingle Hone) as [Hsingle' Hone'].
  by apply IH.
Qed.

(** The second question is closed, the first is closed and opened again,
    and a click lands on the item without header. *)
Lemma X21_witness_first_question :
  header (mkItem (Some (Some "true")) true true)
  = Some (Some (attr (open (mkItem (Some (Some "true")) true true)))).
Proof.
  apply (X21_aria_expanded_follows_the_open_class faq [1; 0; 2] 0).
  - reflexivity.
  - reflexivity.
Defined.

(** All three questions start open; the second is clicked, then others. *)
Lemma X22_witness_faq :
  (∀ j it, items (click 1 (initAccordions faq)) !! j = Some it →
           open it
           = bool_decide (j = 1)
             && negb (open (mkItem (Some (Some "true")) true true)))
  ∧ ∀ j k a b,
      items (clicks (1 :: [0; 2]) (initAccordions faq)) !! j = Some a →
      items (clicks (1 :: [0; 2]) (initAccordions faq)) !! k = Some b →
      open a = true → open b = true → j = k.
Proof.
  apply (X22_single_accordion_opens_at_most_one
           (initAccordions faq) 1 (mkItem (Some (Some "true")) true true)
           [0; 2]).
  - reflexivity.
  - reflexivity.
  - reflexivity.
Defined.

End AccordionFacts.
